(** * Office mood pipeline: a shallow embedding of the two route variants

    The repository contains the mood endpoint twice: [src/app/api/mood/route.ts]
    (module [Route] below) and a second copy of the same route that follows the
    dashboard page in [src/unnamed/part_000] (module [Route2]).  Both are
    embedded function by function; what they share is defined once, in
    sections parameterised by the parts that differ.  The dashboard page
    of [src/unnamed/part_000] is module [Page]. *)

From Stdlib Require Import QArith.
From Stdlib Require Import Ascii String.
From stdpp Require Import gmap list strings.

Local Open Scope N_scope.
Local Open Scope nat_scope.

(** ** JavaScript strings

    A JavaScript string is a sequence of UTF-16 code units; [length],
    [substring], [[^>]] and [\s] all work on code units. *)

Abbreviation jsstring := (list N).

(** An ASCII literal as a JavaScript string. *)
Definition js (s : string) : jsstring :=
  (fun a => N_of_ascii a) <$> list_ascii_of_string s.
Arguments js s%_string.

Definition LT : N := 60.     (* < *)
Definition GT : N := 62.     (* > *)
Definition AMP : N := 38.    (* & *)
Definition COLON : N := 58.  (* : *)
Definition SPACE : N := 32.
Definition COMMA : N := 44.

(** [\s] of a regular expression, and the characters [String.prototype.trim]
    removes: WhiteSpace and LineTerminator of ECMAScript. *)
Definition is_space (c : N) : bool :=
  ((9 <=? c) && (c <=? 13) || (c =? 32) || (c =? 160) || (c =? 5760)
   || (8192 <=? c) && (c <=? 8202) || (c =? 8232) || (c =? 8233)
   || (c =? 8239) || (c =? 8287) || (c =? 12288) || (c =? 65279))%N.

(** The class [[a-z0-9_+-]]. *)
Definition is_name_char (c : N) : bool :=
  ((97 <=? c) && (c <=? 122) || (48 <=? c) && (c <=? 57)
   || (c =? 95) || (c =? 43) || (c =? 45))%N.

Fixpoint starts_with (p s : jsstring) : bool :=
  match p, s with
  | [], _ => true
  | a :: p', b :: s' => (a =? b)%N && starts_with p' s'
  | _ :: _, [] => false
  end.

(** Position of the first code unit [c] in [s]. *)
Fixpoint index_of (c : N) (s : jsstring) : option nat :=
  match s with
  | [] => None
  | d :: s' => if (d =? c)%N then Some 0 else S <$> index_of c s'
  end.

(** Length of the longest prefix of [s] whose code units satisfy [f]. *)
Fixpoint run (f : N → bool) (s : jsstring) : nat :=
  match s with
  | [] => 0
  | c :: s' => if f c then S (run f s') else 0
  end.

(** ** [String.prototype.replace] with a global regular expression

    A matcher tells, for the text that starts at the current position,
    how many code units the regular expression matches there ([None]: no
    match at this position).  [replace_from] is the scan of a [/g]
    replacement: a match is replaced by [r] and the scan resumes behind it,
    an unmatched code unit is copied.  [skip] counts the code units of the
    current match still to be passed over.  None of the expressions of this
    program matches the empty string. *)
Fixpoint replace_from (m : jsstring → option nat) (r : jsstring)
    (skip : nat) (s : jsstring) : jsstring :=
  match s with
  | [] => []
  | c :: rest =>
      match skip with
      | S k => replace_from m r k rest
      | O =>
          match m s with
          | Some (S k) => r ++ replace_from m r k rest
          | _ => c :: replace_from m r 0 rest
          end
      end
  end.

Definition replace (m : jsstring → option nat) (r s : jsstring) : jsstring :=
  replace_from m r 0 s.

(** [/p[^>]+>/] for a literal [p]: [p], then at least one code unit other
    than [>], up to the first [>] that follows. *)
Definition match_tag (p s : jsstring) : option nat :=
  if starts_with p s then
    match drop (length p) s with
    | c :: t =>
        if (c =? GT)%N then None
        else (fun j => length p + 1 + j + 1) <$> index_of GT t
    | [] => None
    end
  else None.

(** A literal pattern such as [/&amp;/]. *)
Definition match_lit (p s : jsstring) : option nat :=
  if starts_with p s then Some (length p) else None.

(** [/:[a-z0-9_+-]+:/] *)
Definition match_emoji (s : jsstring) : option nat :=
  match s with
  | c :: t =>
      if (c =? COLON)%N then
        match run is_name_char t with
        | O => None
        | S n =>
            match drop (S n) t with
            | d :: _ => if (d =? COLON)%N then Some (S n + 2) else None
            | [] => None
            end
        end
      else None
  | [] => None
  end.

(** [/\s+/] *)
Definition match_space (s : jsstring) : option nat :=
  match run is_space s with
  | O => None
  | S n => Some (S n)
  end.

Fixpoint trim_start (s : jsstring) : jsstring :=
  match s with
  | [] => []
  | c :: s' => if is_space c then trim_start s' else s
  end.

Definition trim_end (s : jsstring) : jsstring :=
  reverse (trim_start (reverse s)).

Definition trim (s : jsstring) : jsstring := trim_end (trim_start s).

(** The three markup patterns, the three entities, and white space. *)
Definition strip_mentions : jsstring → jsstring := replace (match_tag (js "<@")) [].
Definition strip_links : jsstring → jsstring := replace (match_tag (js "<http")) [].
Definition strip_angle : jsstring → jsstring := replace (match_tag (js "<")) [].
Definition unescape_amp : jsstring → jsstring := replace (match_lit (js "&amp;")) (js "&").
Definition unescape_lt : jsstring → jsstring := replace (match_lit (js "&lt;")) (js "<").
Definition unescape_gt : jsstring → jsstring := replace (match_lit (js "&gt;")) (js ">").
Definition strip_emoji_codes : jsstring → jsstring := replace match_emoji [].
Definition collapse_space : jsstring → jsstring := replace match_space (js " ").

(** The template literal [`:${name}:`]. *)
Definition emoji_code (name : jsstring) : jsstring := COLON :: name ++ [COLON].

(** [String.prototype.replace] with a string pattern: the first occurrence. *)
Fixpoint replace_first (p r s : jsstring) : jsstring :=
  if starts_with p s then r ++ drop (length p) s
  else match s with
       | [] => []
       | c :: s' => c :: replace_first p r s'
       end.

(** [String.prototype.split] with a one-character separator. *)
Fixpoint split (sep : N) (s : jsstring) : list jsstring :=
  match s with
  | [] => [[]]
  | c :: s' =>
      if (c =? sep)%N then [] :: split sep s'
      else match split sep s' with
           | h :: t => (c :: h) :: t
           | [] => [[c]]
           end
  end.

(** [Array.prototype.join] *)
Fixpoint join (sep : jsstring) (l : list jsstring) : jsstring :=
  match l with
  | [] => []
  | [x] => x
  | x :: l' => x ++ sep ++ join sep l'
  end.

(** A string or [undefined] in a condition: only a non-empty string is truthy. *)
Definition truthy (v : option jsstring) : bool :=
  match v with
  | Some (_ :: _) => true
  | _ => false
  end.

(** A string or [undefined] in a template literal. *)
Definition interpolate (v : option jsstring) : jsstring :=
  match v with
  | Some s => s
  | None => js "undefined"
  end.

(** ** Objects used as maps

    [Record<string, T>] values are object literals: a finite map of own
    properties, with [Object.prototype] behind it.  [o[key]] finds an own
    property, else a member of the prototype, else [undefined]. *)

Definition object {A} (props : list (jsstring * A)) : gmap jsstring A :=
  foldl (fun o kv => <[kv.1 := kv.2]> o) ∅ props.

Definition Object_prototype : list jsstring :=
  [js "constructor"; js "__proto__"; js "hasOwnProperty"; js "isPrototypeOf";
   js "propertyIsEnumerable"; js "toLocaleString"; js "toString"; js "valueOf";
   js "__defineGetter__"; js "__defineSetter__"; js "__lookupGetter__";
   js "__lookupSetter__"].

Inductive property (A : Type) : Type :=
  | Own (a : A)
  | Inherited (key : jsstring)
  | Undefined.
Arguments Own {A} a.
Arguments Inherited {A} key.
Arguments Undefined {A}.

Definition get {A} (o : gmap jsstring A) (key : jsstring) : property A :=
  match o !! key with
  | Some a => Own a
  | None => if bool_decide (key ∈ Object_prototype) then Inherited key else Undefined
  end.

(** What [o[key] || fallback] evaluates to: a value of the declared type, or
    the member [key] of [Object.prototype] (a function, or the prototype
    itself for [__proto__]; truthy in every case). *)
Inductive ref (A : Type) : Type :=
  | Val (a : A)
  | ProtoMember (key : jsstring).
Arguments Val {A} a.
Arguments ProtoMember {A} key.

(** ** Errors and promises *)

Record JsError := { error_name : jsstring; message : jsstring }.

(** [new Error(message)] *)
Definition Error (message : jsstring) : JsError :=
  {| error_name := js "Error"; message := message |}.

(** [String(e.message || e)]: the message, or for an empty message what
    [Error.prototype.toString] gives, the name. *)
Definition error_string (e : JsError) : jsstring :=
  match message e with
  | [] => error_name e
  | _ :: _ => message e
  end.

(** A promise that has settled. *)
Inductive Settled (A : Type) : Type :=
  | Resolved (a : A)
  | Rejected (e : JsError).
Arguments Resolved {A} a.
Arguments Rejected {A} e.

(** Among promises given with the time at which each settles, the rejection
    that comes first (the earlier promise of the list when two come together). *)
Fixpoint first_rejection {A} (ps : list (nat * Settled A)) : option (nat * JsError) :=
  match ps with
  | [] => None
  | (t, Rejected e) :: ps' =>
      match first_rejection ps' with
      | Some (t', e') => if t' <? t then Some (t', e') else Some (t, e)
      | None => Some (t, e)
      end
  | (_, Resolved _) :: ps' => first_rejection ps'
  end.

Fixpoint resolved_values {A} (ps : list (nat * Settled A)) : list A :=
  match ps with
  | [] => []
  | (_, Resolved a) :: ps' => a :: resolved_values ps'
  | (_, Rejected _) :: ps' => resolved_values ps'
  end.

(** [Promise.all]: rejected with the first rejection, else resolved with
    all values in the order of the promises. *)
Definition Promise_all {A} (ps : list (nat * Settled A)) : Settled (list A) :=
  match first_rejection ps with
  | Some (_, e) => Rejected e
  | None => Resolved (resolved_values ps)
  end.

(** ** The data the routes exchange *)

Module Slack.

Record Reaction := { name : jsstring }.

(** An entry of [conversations.history], with the fields the route reads. *)
Record Message := {
  type : option jsstring;
  subtype : option jsstring;
  bot_id : option jsstring;
  files : bool;                       (* [m.files] is present *)
  text : option jsstring;
  reactions : option (list Reaction);
  ts : option jsstring
}.

End Slack.

Module History.

(** The body of a [conversations.history] response. *)
Record Body := {
  ok : bool;
  error : option jsstring;
  messages : option (list Slack.Message)
}.

End History.

Module EmojiList.

(** A value of the [emoji] object of [emoji.list]: a string, or anything else. *)
Inductive Value :=
  | Str (s : jsstring)
  | NotString.

(** The body of an [emoji.list] response; [emoji] is [Object.entries(data.emoji)],
    absent when [data.emoji] is not an object. *)
Record Body := {
  ok : bool;
  emoji : option (list (jsstring * Value))
}.

End EmojiList.

Module OpenAI.

(** [data.error]: its [message] and what [JSON.stringify] makes of it. *)
Record ApiError := {
  error_message : option jsstring;
  stringified : jsstring
}.

(** The body of a chat completion: [data.error] and
    [data?.choices?.[0]?.message?.content]. *)
Record Body := {
  error : option ApiError;
  content : option jsstring
}.

End OpenAI.

Record MessageWithTimestamp := { text : jsstring; timestamp : Q }.

Record Playlist := { name : jsstring; url : jsstring }.

(** [MoodAnalysis]; [E] is what [top_emojis] holds. *)
Record MoodAnalysis (E : Type) := {
  mood_score : Q;
  mood_label : jsstring;
  summary : jsstring;
  positive_signals : list jsstring;
  negative_signals : list jsstring;
  top_emojis : list E
}.
Arguments mood_score {E} _.
Arguments mood_label {E} _.
Arguments summary {E} _.
Arguments positive_signals {E} _.
Arguments negative_signals {E} _.
Arguments top_emojis {E} _.

(** The emoji cache of the module: [emojiCache] and [emojiCacheTime]. *)
Record EmojiCache := {
  emojiCache : option (gmap jsstring jsstring);
  emojiCacheTime : Z
}.

(** The body of the response: the mood payload, or [{ error }].  The
    payload is [{ ...mood, playlist, sample_size, generated_at }]: the three
    properties written behind the spread are the ones the response has,
    whatever the completion holds under these names. *)
Record MoodData := {
  mood : MoodAnalysis (ref jsstring);
  playlist : ref Playlist;
  sample_size : nat;
  generated_at : jsstring
}.

Inductive ResponseBody :=
  | Payload (data : MoodData)
  | Failure (error : jsstring).

Record Response := { status : N; body : ResponseBody }.

(** Everything a request reads from outside of the route. *)
(** What [JSON.parse] returns, as far as the routes read it: a value whose
    [top_emojis] is an array, read at the declared type, or any other
    value ([null], a number, an object without the array, ...), on which
    [parsed.top_emojis.map] throws the [TypeError] [thrown]. *)
Inductive Parsed : Type :=
  | Analysis (parsed : MoodAnalysis jsstring)
  | NoEmojis (thrown : JsError).

Record World := {
  (** [process.env.SLACK_CHANNEL_IDS]; [None] when the variable is not set *)
  SLACK_CHANNEL_IDS : option jsstring;
  (** the [TypeError] that the runtime throws for [undefined.split] *)
  split_of_undefined : JsError;
  (** the [conversations.history] call for the [i]-th channel id *)
  conversations_history : nat → jsstring → Settled History.Body;
  (** the time at which the [i]-th of these calls settles *)
  settles_at : nat → nat;
  parseFloat : jsstring → Q;
  (** [Date.now() / 1000] when the messages are weighted *)
  now : Q;
  (** the completion call, for the weighted messages of the prompt *)
  chat_completions : list jsstring → Settled OpenAI.Body;
  (** [JSON.parse]: the value it returns or the [SyntaxError] it throws *)
  JSON_parse : jsstring → Settled Parsed;
  (** the emoji cache when the request starts, and [Date.now()] *)
  cache : EmojiCache;
  now_ms : Z;
  (** the [emoji.list] call made for the [i]-th of [top_emojis] *)
  emoji_list : nat → Settled EmojiList.Body;
  (** [new Date().toISOString()] *)
  toISOString : jsstring
}.

Definition Qgt_bool (a b : Q) : bool := negb (Qle_bool a b).

(** [Array.prototype.sort] with the comparator [(a, b) => b.timestamp -
    a.timestamp]: stable, newest first. *)
Fixpoint insert_newest_first (m : MessageWithTimestamp)
    (l : list MessageWithTimestamp) : list MessageWithTimestamp :=
  match l with
  | [] => [m]
  | x :: l' =>
      if Qgt_bool (timestamp x) (timestamp m) then x :: insert_newest_first m l'
      else m :: l
  end.

Definition sort_newest_first (l : list MessageWithTimestamp)
    : list MessageWithTimestamp :=
  foldr insert_newest_first [] l.

Definition CACHE_DURATION : Z := 60 * 60 * 1000.

(** [process.env.SLACK_CHANNEL_IDS!.split(',').map(id => id.trim())], for a
    variable that is set; when it is not, [split] throws and there are no
    channel ids. *)
Definition channelIds (w : World) : list jsstring :=
  match SLACK_CHANNEL_IDS w with
  | Some ids => trim <$> split COMMA ids
  | None => []
  end.

(** ** What the two routes have in common *)

Module Common.

Section Pipeline.

(** The parts in which the routes differ: the fallback table, the callback
    that makes a cleaned message of a raw one, the two ages of the recency
    tiers (in seconds), what becomes of an exception raised while the
    completion is parsed, and the playlist table. *)
Context (getBasicEmojiMap : gmap jsstring jsstring).
Context (toMessage : World → Slack.Message → MessageWithTimestamp).
Context (recent_age middle_age : Q).
Context (parse_failure : jsstring → JsError → JsError).
Context (playlistsForMood : jsstring → ref Playlist).

Definition getUnicodeForEmojiName (name : jsstring) : jsstring :=
  match getBasicEmojiMap !! emoji_code name with
  | Some (c :: basic) => c :: basic
  | _ => emoji_code name
  end.

(** One turn of the loop over [Object.entries(data.emoji)].  The keys read
    and written here start with a colon: none is a member of
    [Object.prototype]. *)
Definition emoji_entry (emojiMap : gmap jsstring jsstring)
    (entry : jsstring * EmojiList.Value) : gmap jsstring jsstring :=
  let name := entry.1 in
  match entry.2 with
  | EmojiList.Str value =>
      if starts_with (js "alias:") value then
        let aliasName := replace_first (js "alias:") [] value in
        <[emoji_code name :=
            match emojiMap !! emoji_code aliasName with
            | Some (c :: known) => c :: known
            | _ => getUnicodeForEmojiName aliasName
            end]> emojiMap
      else if starts_with (js "http") value then
        <[emoji_code name := emoji_code name]> emojiMap
      else
        <[emoji_code name := getUnicodeForEmojiName name]> emojiMap
  | EmojiList.NotString => emojiMap
  end.

Definition buildEmojiMap (entries : list (jsstring * EmojiList.Value))
    : gmap jsstring jsstring :=
  foldl emoji_entry ∅ entries.

(** [fetchSlackEmojis]: the map it returns and the cache it leaves, given
    the cache it finds, [Date.now()] and how its [emoji.list] call ends. *)
Definition fetchSlackEmojis (c : EmojiCache) (now : Z)
    (res : Settled EmojiList.Body) : gmap jsstring jsstring * EmojiCache :=
  match emojiCache c with
  | Some cached =>
      if (now - emojiCacheTime c <? CACHE_DURATION)%Z then (cached, c)
      else
        match res with
        | Resolved {| EmojiList.ok := true; EmojiList.emoji := Some entries |} =>
            let merged := buildEmojiMap entries ∪ getBasicEmojiMap in
            (merged, {| emojiCache := Some merged; emojiCacheTime := now |})
        | _ => (getBasicEmojiMap, c)
        end
  | None =>
      match res with
      | Resolved {| EmojiList.ok := true; EmojiList.emoji := Some entries |} =>
          let merged := buildEmojiMap entries ∪ getBasicEmojiMap in
          (merged, {| emojiCache := Some merged; emojiCacheTime := now |})
      | _ => (getBasicEmojiMap, c)
      end
  end.

(** [emojiMap[emojiCode] || emojiCode] *)
Definition convertSlackEmojiToUnicode (c : EmojiCache) (now : Z)
    (res : Settled EmojiList.Body) (emojiCode : jsstring)
    : ref jsstring * EmojiCache :=
  let (emojiMap, c') := fetchSlackEmojis c now res in
  (match get emojiMap emojiCode with
   | Own (u :: unicode) => Val (u :: unicode)
   | Own [] => Val emojiCode
   | Inherited key => ProtoMember key
   | Undefined => Val emojiCode
   end, c').

Definition fetchSlackMessagesFromChannel (w : World) (channelId : jsstring)
    (res : Settled History.Body) : Settled (list MessageWithTimestamp) :=
  match res with
  | Rejected e => Rejected e
  | Resolved data =>
      if negb (History.ok data) then
        Rejected (Error (js "Slack error for channel " ++ channelId ++ js ": "
                           ++ interpolate (History.error data)))
      else
        let allMessages := default [] (History.messages data) in
        let typeFiltered :=
          filter (λ m, Slack.type m = Some (js "message")) allMessages in
        let subtypeFiltered :=
          filter (λ m, truthy (Slack.subtype m) = false
                       ∨ Slack.subtype m = Some (js "thread_broadcast"))
                 typeFiltered in
        let botFiltered :=
          filter (λ m, truthy (Slack.bot_id m) = false) subtypeFiltered in
        let fileFiltered := filter (λ m, Slack.files m = false) botFiltered in
        let textMessages :=
          filter (λ m, truthy (Slack.text m) = true) fileFiltered in
        Resolved (filter (λ msg, 3 < length (text msg))
                    (toMessage w <$> textMessages))
  end.

(** The loop that fills [weightedMessages]. *)
Definition weightedMessages (now : Q) (flatMessages : list MessageWithTimestamp)
    : list jsstring :=
  let oneDayAgo := (now - recent_age)%Q in
  let oneWeekAgo := (now - middle_age)%Q in
  foldl (λ weighted msg,
           if Qgt_bool (timestamp msg) oneDayAgo then
             weighted ++ [text msg; text msg; text msg]
           else if Qgt_bool (timestamp msg) oneWeekAgo then
             weighted ++ [text msg; text msg]
           else
             weighted ++ [text msg])
        [] flatMessages.

(** The promises of [channelIds.map(...)], each with the time at which
    it settles. *)
Definition channel_fetches (w : World)
    : list (nat * Settled (list MessageWithTimestamp)) :=
  imap (λ i channelId,
          (settles_at w i,
           fetchSlackMessagesFromChannel w channelId
             (conversations_history w i channelId)))
       (channelIds w).

Definition fetchSlackFromMultipleChannels (w : World) : Settled (list jsstring) :=
  match SLACK_CHANNEL_IDS w with
  | None => Rejected (split_of_undefined w)
  | Some _ =>
      match Promise_all (channel_fetches w) with
      | Rejected e => Rejected e
      | Resolved allMessages =>
          let flatMessages := sort_newest_first (concat allMessages) in
          Resolved (weightedMessages (now w) flatMessages)
      end
  end.

(** [analyzeWithOpenAI] ([analyzeWithAI] in the second route).  Every
    conversion of [top_emojis] starts before any [emoji.list] call has
    ended, so each of them finds the cache as the request found it. *)
Definition analyzeWithOpenAI (w : World) (messages : list jsstring)
    : Settled (MoodAnalysis (ref jsstring)) :=
  match chat_completions w messages with
  | Rejected e => Rejected e
  | Resolved data =>
      match OpenAI.error data with
      | Some err =>
          Rejected (Error (js "OpenAI API error: " ++
            (if truthy (OpenAI.error_message err)
             then interpolate (OpenAI.error_message err)
             else OpenAI.stringified err)))
      | None =>
          if negb (truthy (OpenAI.content data)) then
            Rejected (Error (js "OpenAI returned no content"))
          else
            let content := interpolate (OpenAI.content data) in
            match JSON_parse w content with
            | Rejected e => Rejected (parse_failure content e)
            | Resolved (NoEmojis thrown) =>
                Rejected (parse_failure content thrown)
            | Resolved (Analysis parsed) =>
                Resolved
                  {| mood_score := mood_score parsed;
                     mood_label := mood_label parsed;
                     summary := summary parsed;
                     positive_signals := positive_signals parsed;
                     negative_signals := negative_signals parsed;
                     top_emojis :=
                       imap (λ i emoji,
                               (convertSlackEmojiToUnicode (cache w) (now_ms w)
                                  (emoji_list w i) emoji).1)
                            (top_emojis parsed) |}
            end
      end
  end.

Definition GET (w : World) : Response :=
  match fetchSlackFromMultipleChannels w with
  | Rejected e => {| status := 500; body := Failure (error_string e) |}
  | Resolved msgs =>
      match analyzeWithOpenAI w msgs with
      | Rejected e => {| status := 500; body := Failure (error_string e) |}
      | Resolved mood =>
          {| status := 200;
             body := Payload {| mood := mood;
                                playlist := playlistsForMood (mood_label mood);
                                sample_size := length msgs;
                                generated_at := toISOString w |} |}
      end
  end.

End Pipeline.

End Common.

(** ** [src/app/api/mood/route.ts] *)

Module Route.

Definition cleanSlackText (text : jsstring) : jsstring :=
  trim (collapse_space (strip_emoji_codes (unescape_gt (unescape_lt
    (unescape_amp (strip_angle (strip_links (strip_mentions text)))))))).

(** The glyphs are given by their UTF-16 code units. *)
Definition getBasicEmojiMap : gmap jsstring jsstring := object [
    (js ":pray:", [55357; 56911]%N);
    (js ":cry:", [55357; 56866]%N);
    (js ":sob:", [55357; 56877]%N);
    (js ":disappointed:", [55357; 56862]%N);
    (js ":broken_heart:", [55357; 56468]%N);
    (js ":heart:", [10084; 65039]%N);
    (js ":clap:", [55357; 56399]%N);
    (js ":party_blob:", [55356; 57225]%N);
    (js ":partying_face:", [55358; 56691]%N);
    (js ":joy:", [55357; 56834]%N);
    (js ":raised_hands:", [55357; 56908]%N);
    (js ":fire:", [55357; 56613]%N);
    (js ":thumbsup:", [55357; 56397]%N);
    (js ":+1:", [55357; 56397]%N);
    (js ":thumbsdown:", [55357; 56398]%N);
    (js ":-1:", [55357; 56398]%N);
    (js ":tada:", [55356; 57226]%N);
    (js ":star:", [11088]%N);
    (js ":100:", [55357; 56495]%N);
    (js ":muscle:", [55357; 56490]%N);
    (js ":sparkles:", [10024]%N);
    (js ":rocket:", [55357; 56960]%N);
    (js ":eyes:", [55357; 56384]%N);
    (js ":thinking_face:", [55358; 56596]%N);
    (js ":thinking:", [55358; 56596]%N);
    (js ":sweat_smile:", [55357; 56837]%N);
    (js ":scream:", [55357; 56881]%N);
    (js ":worried:", [55357; 56863]%N);
    (js ":fearful:", [55357; 56872]%N);
    (js ":weary:", [55357; 56873]%N);
    (js ":pensive:", [55357; 56852]%N);
    (js ":relieved:", [55357; 56844]%N);
    (js ":triumph:", [55357; 56868]%N);
    (js ":persevere:", [55357; 56867]%N);
    (js ":confounded:", [55357; 56854]%N);
    (js ":rage:", [55357; 56865]%N);
    (js ":angry:", [55357; 56864]%N);
    (js ":smile:", [55357; 56842]%N);
    (js ":grin:", [55357; 56833]%N);
    (js ":laughing:", [55357; 56838]%N);
    (js ":blush:", [55357; 56842]%N);
    (js ":wink:", [55357; 56841]%N);
    (js ":heart_eyes:", [55357; 56845]%N);
    (js ":kissing_heart:", [55357; 56856]%N);
    (js ":sunglasses:", [55357; 56846]%N);
    (js ":smirk:", [55357; 56847]%N);
    (js ":innocent:", [55357; 56839]%N);
    (js ":nerd_face:", [55358; 56595]%N);
    (js ":face_with_monocle:", [55358; 56784]%N);
    (js ":star_struck:", [55358; 56617]%N);
    (js ":upside_down_face:", [55357; 56899]%N);
    (js ":slightly_smiling_face:", [55357; 56898]%N);
    (js ":grimacing:", [55357; 56876]%N);
    (js ":neutral_face:", [55357; 56848]%N);
    (js ":expressionless:", [55357; 56849]%N);
    (js ":confused:", [55357; 56853]%N);
    (js ":frowning:", [9785; 65039]%N);
    (js ":slightly_frowning_face:", [55357; 56897]%N);
    (js ":unamused:", [55357; 56850]%N)
  ].

Definition getUnicodeForEmojiName : jsstring → jsstring :=
  Common.getUnicodeForEmojiName getBasicEmojiMap.

Definition fetchSlackEmojis
    : EmojiCache → Z → Settled EmojiList.Body → gmap jsstring jsstring * EmojiCache :=
  Common.fetchSlackEmojis getBasicEmojiMap.

Definition convertSlackEmojiToUnicode
    : EmojiCache → Z → Settled EmojiList.Body → jsstring → ref jsstring * EmojiCache :=
  Common.convertSlackEmojiToUnicode getBasicEmojiMap.

Definition Chaos : Playlist :=
  {| name := js "Calm Lo-Fi Focus";
     url := js "https://open.spotify.com/playlist/37i9dQZF1DX3Ogo9pFvBkY" |}.
Definition Stressed : Playlist :=
  {| name := js "Chill Hits";
     url := js "https://open.spotify.com/playlist/37i9dQZF1DX4WYpdgoIcn6" |}.
Definition Neutral : Playlist :=
  {| name := js "Easy Indie";
     url := js "https://open.spotify.com/playlist/37i9dQZF1DX2Nc3B70tvx0" |}.
Definition Good : Playlist :=
  {| name := js "Feel Good Pop";
     url := js "https://open.spotify.com/playlist/37i9dQZF1DXdPec7aLTmlC" |}.
Definition Vibes : Playlist :=
  {| name := js "Office Party Bangers";
     url := js "https://open.spotify.com/playlist/37i9dQZF1DXaXB8fQg7xif" |}.

(** [map[moodLabel] || map.Neutral]; a playlist object is truthy. *)
Definition playlistsForMood (moodLabel : jsstring) : ref Playlist :=
  let map := object [(js "Chaos", Chaos); (js "Stressed", Stressed);
                     (js "Neutral", Neutral); (js "Good", Good);
                     (js "Vibes", Vibes)] in
  match get map moodLabel with
  | Own playlist => Val playlist
  | Inherited key => ProtoMember key
  | Undefined => Val Neutral
  end.

(** The callback of [textMessages.map]: the cleaned text, with the
    reactions of the message behind it when it has any. *)
Definition toMessage (w : World) (m : Slack.Message) : MessageWithTimestamp :=
  let text := cleanSlackText (default [] (Slack.text m)) in
  let finalText :=
    match Slack.reactions m with
    | Some (r :: rs) =>
        let reactionEmojis :=
          join (js " ") ((λ r, emoji_code (Slack.name r)) <$> (r :: rs)) in
        text ++ js " [Reactions: " ++ reactionEmojis ++ js "]"
    | _ => text
    end in
  {| text := finalText;
     timestamp := parseFloat w (if truthy (Slack.ts m)
                                then interpolate (Slack.ts m) else js "0") |}.

Definition fetchSlackMessagesFromChannel
    : World → jsstring → Settled History.Body → Settled (list MessageWithTimestamp) :=
  Common.fetchSlackMessagesFromChannel toMessage.

(** Last 24 hours: three times; last week: twice. *)
Definition weightedMessages : Q → list MessageWithTimestamp → list jsstring :=
  Common.weightedMessages (24 * 60 * 60) (7 * 24 * 60 * 60).

Definition fetchSlackFromMultipleChannels : World → Settled (list jsstring) :=
  Common.fetchSlackFromMultipleChannels toMessage (24 * 60 * 60) (7 * 24 * 60 * 60).

(** The [catch] around [JSON.parse] and the conversions. *)
Definition parse_failure (content : jsstring) (parseError : JsError) : JsError :=
  Error (js "Failed to parse OpenAI response as JSON: "
           ++ take 100 content ++ js "...").

Definition analyzeWithOpenAI
    : World → list jsstring → Settled (MoodAnalysis (ref jsstring)) :=
  Common.analyzeWithOpenAI getBasicEmojiMap parse_failure.

Definition GET : World → Response :=
  Common.GET getBasicEmojiMap toMessage (24 * 60 * 60) (7 * 24 * 60 * 60)
    parse_failure playlistsForMood.

End Route.

(** ** The second route, [src/unnamed/part_000] *)

Module Route2.

(** The same chain without the emoji-code pattern ("Keep emoji codes -
    don't strip them, AI needs to see them"). *)
Definition cleanSlackText (text : jsstring) : jsstring :=
  trim (collapse_space (unescape_gt (unescape_lt
    (unescape_amp (strip_angle (strip_links (strip_mentions text))))))).

(** The glyphs are given by the UTF-16 code units of the file as it stands. *)
Definition getBasicEmojiMap : gmap jsstring jsstring := object [
    (js ":pray:", [287; 376; 8482]%N);
    (js ":pray::skin-tone-2:", [287; 376; 8482; 287; 376; 187]%N);
    (js ":pray::skin-tone-3:", [287; 376; 8482; 287; 376; 188]%N);
    (js ":pray::skin-tone-4:", [287; 376; 8482; 287; 376; 189]%N);
    (js ":pray::skin-tone-5:", [287; 376; 8482; 287; 376; 190]%N);
    (js ":pray::skin-tone-6:", [287; 376; 8482; 287; 376; 191]%N);
    (js ":cry:", [287; 376; 732; 162]%N);
    (js ":sob:", [287; 376; 732; 173]%N);
    (js ":disappointed:", [287; 376; 732]%N);
    (js ":broken_heart:", [287; 376; 8217; 8221]%N);
    (js ":heart:", [226; 164; 239; 184]%N);
    (js ":white_heart:", [287; 376; 164]%N);
    (js ":clap:", [287; 376; 8216]%N);
    (js ":clap::skin-tone-2:", [287; 376; 8216; 287; 376; 187]%N);
    (js ":clap::skin-tone-3:", [287; 376; 8216; 287; 376; 188]%N);
    (js ":clap::skin-tone-4:", [287; 376; 8216; 287; 376; 189]%N);
    (js ":clap::skin-tone-5:", [287; 376; 8216; 287; 376; 190]%N);
    (js ":clap::skin-tone-6:", [287; 376; 8216; 287; 376; 191]%N);
    (js ":party_blob:", [287; 376; 8240]%N);
    (js ":partying_face:", [287; 376; 165; 179]%N);
    (js ":joy:", [287; 376; 732; 8218]%N);
    (js ":raised_hands:", [287; 376; 8482; 338]%N);
    (js ":raised_hands::skin-tone-2:", [287; 376; 8482; 338; 287; 376; 187]%N);
    (js ":raised_hands::skin-tone-3:", [287; 376; 8482; 338; 287; 376; 188]%N);
    (js ":raised_hands::skin-tone-4:", [287; 376; 8482; 338; 287; 376; 189]%N);
    (js ":raised_hands::skin-tone-5:", [287; 376; 8482; 338; 287; 376; 190]%N);
    (js ":raised_hands::skin-tone-6:", [287; 376; 8482; 338; 287; 376; 191]%N);
    (js ":fire:", [287; 376; 8221; 165]%N);
    (js ":thumbsup:", [287; 376; 8216]%N);
    (js ":thumbsup::skin-tone-2:", [287; 376; 8216; 287; 376; 187]%N);
    (js ":thumbsup::skin-tone-3:", [287; 376; 8216; 287; 376; 188]%N);
    (js ":thumbsup::skin-tone-4:", [287; 376; 8216; 287; 376; 189]%N);
    (js ":thumbsup::skin-tone-5:", [287; 376; 8216; 287; 376; 190]%N);
    (js ":thumbsup::skin-tone-6:", [287; 376; 8216; 287; 376; 191]%N);
    (js ":+1:", [287; 376; 8216]%N);
    (js ":+1::skin-tone-2:", [287; 376; 8216; 287; 376; 187]%N);
    (js ":+1::skin-tone-3:", [287; 376; 8216; 287; 376; 188]%N);
    (js ":+1::skin-tone-4:", [287; 376; 8216; 287; 376; 189]%N);
    (js ":+1::skin-tone-5:", [287; 376; 8216; 287; 376; 190]%N);
    (js ":+1::skin-tone-6:", [287; 376; 8216; 287; 376; 191]%N);
    (js ":thumbsdown:", [287; 376; 8216]%N);
    (js ":thumbsdown::skin-tone-2:", [287; 376; 8216; 287; 376; 187]%N);
    (js ":thumbsdown::skin-tone-3:", [287; 376; 8216; 287; 376; 188]%N);
    (js ":thumbsdown::skin-tone-4:", [287; 376; 8216; 287; 376; 189]%N);
    (js ":thumbsdown::skin-tone-5:", [287; 376; 8216; 287; 376; 190]%N);
    (js ":thumbsdown::skin-tone-6:", [287; 376; 8216; 287; 376; 191]%N);
    (js ":-1:", [287; 376; 8216]%N);
    (js ":-1::skin-tone-2:", [287; 376; 8216; 287; 376; 187]%N);
    (js ":-1::skin-tone-3:", [287; 376; 8216; 287; 376; 188]%N);
    (js ":-1::skin-tone-4:", [287; 376; 8216; 287; 376; 189]%N);
    (js ":-1::skin-tone-5:", [287; 376; 8216; 287; 376; 190]%N);
    (js ":-1::skin-tone-6:", [287; 376; 8216; 287; 376; 191]%N);
    (js ":tada:", [287; 376; 352]%N);
    (js ":star:", [226; 173]%N);
    (js ":100:", [287; 376; 8217; 175]%N);
    (js ":muscle:", [287; 376; 8217; 170]%N);
    (js ":muscle::skin-tone-2:", [287; 376; 8217; 170; 287; 376; 187]%N);
    (js ":muscle::skin-tone-3:", [287; 376; 8217; 170; 287; 376; 188]%N);
    (js ":muscle::skin-tone-4:", [287; 376; 8217; 170; 287; 376; 189]%N);
    (js ":muscle::skin-tone-5:", [287; 376; 8217; 170; 287; 376; 190]%N);
    (js ":muscle::skin-tone-6:", [287; 376; 8217; 170; 287; 376; 191]%N);
    (js ":sparkles:", [226; 339; 168]%N);
    (js ":rocket:", [287; 376; 353; 8364]%N);
    (js ":eyes:", [287; 376; 8216; 8364]%N);
    (js ":thinking_face:", [287; 376; 164; 8221]%N);
    (js ":thinking:", [287; 376; 164; 8221]%N);
    (js ":sweat_smile:", [287; 376; 732; 8230]%N);
    (js ":scream:", [287; 376; 732; 177]%N);
    (js ":worried:", [287; 376; 732; 376]%N);
    (js ":fearful:", [287; 376; 732; 168]%N);
    (js ":weary:", [287; 376; 732; 169]%N);
    (js ":pensive:", [287; 376; 732; 8221]%N);
    (js ":relieved:", [287; 376; 732; 338]%N);
    (js ":triumph:", [287; 376; 732; 164]%N);
    (js ":persevere:", [287; 376; 732; 163]%N);
    (js ":confounded:", [287; 376; 732; 8211]%N);
    (js ":rage:", [287; 376; 732; 161]%N);
    (js ":angry:", [287; 376; 732; 160]%N);
    (js ":smile:", [287; 376; 732; 352]%N);
    (js ":grin:", [287; 376; 732]%N);
    (js ":laughing:", [287; 376; 732; 8224]%N);
    (js ":blush:", [287; 376; 732; 352]%N);
    (js ":wink:", [287; 376; 732; 8240]%N);
    (js ":heart_eyes:", [287; 376; 732]%N);
    (js ":kissing_heart:", [287; 376; 732; 732]%N);
    (js ":sunglasses:", [287; 376; 732]%N);
    (js ":smirk:", [287; 376; 732]%N);
    (js ":innocent:", [287; 376; 732; 8225]%N);
    (js ":nerd_face:", [287; 376; 164; 8220]%N);
    (js ":face_with_monocle:", [287; 376; 167]%N);
    (js ":star_struck:", [287; 376; 164; 169]%N);
    (js ":upside_down_face:", [287; 376; 8482; 402]%N);
    (js ":slightly_smiling_face:", [287; 376; 8482; 8218]%N);
    (js ":grimacing:", [287; 376; 732; 172]%N);
    (js ":neutral_face:", [287; 376; 732]%N);
    (js ":expressionless:", [287; 376; 732; 8216]%N);
    (js ":confused:", [287; 376; 732; 8226]%N);
    (js ":frowning:", [226; 732; 185; 239; 184]%N);
    (js ":slightly_frowning_face:", [287; 376; 8482]%N);
    (js ":unamused:", [287; 376; 732; 8217]%N);
    (js ":taco:", [287; 376; 338; 174]%N);
    (js ":kudosity-logo:", [287; 376; 8221; 174]%N);
    (js ":rolling_on_the_floor_laughing:", [287; 376; 164; 163]%N);
    (js ":arrow_up:", [226; 172; 8224; 239; 184]%N)
  ].

Definition getUnicodeForEmojiName : jsstring → jsstring :=
  Common.getUnicodeForEmojiName getBasicEmojiMap.

Definition fetchSlackEmojis
    : EmojiCache → Z → Settled EmojiList.Body → gmap jsstring jsstring * EmojiCache :=
  Common.fetchSlackEmojis getBasicEmojiMap.

Definition convertSlackEmojiToUnicode
    : EmojiCache → Z → Settled EmojiList.Body → jsstring → ref jsstring * EmojiCache :=
  Common.convertSlackEmojiToUnicode getBasicEmojiMap.

Definition Chaos : Playlist :=
  {| name := js "Calm Lo-Fi Focus";
     url := js "https://open.spotify.com/playlist/37i9dQZF1DX3Ogo9pFvBkY" |}.
Definition Stressed : Playlist :=
  {| name := js "Peaceful Piano";
     url := js "https://open.spotify.com/playlist/37i9dQZF1DX4sWSpwBtn3A" |}.
Definition Neutral : Playlist :=
  {| name := js "Easy Indie";
     url := js "https://open.spotify.com/playlist/37i9dQZF1DX2Nc3B70tvx0" |}.
Definition Good : Playlist :=
  {| name := js "Feel Good Pop";
     url := js "https://open.spotify.com/playlist/37i9dQZF1DXdPec7aLTmlC" |}.
Definition Vibes : Playlist :=
  {| name := js "Office Party Bangers";
     url := js "https://open.spotify.com/playlist/37i9dQZF1DXaXB8fQg7xif" |}.

Definition playlistsForMood (moodLabel : jsstring) : ref Playlist :=
  let map := object [(js "Chaos", Chaos); (js "Stressed", Stressed);
                     (js "Neutral", Neutral); (js "Good", Good);
                     (js "Vibes", Vibes)] in
  match get map moodLabel with
  | Own playlist => Val playlist
  | Inherited key => ProtoMember key
  | Undefined => Val Neutral
  end.

(** The callback of [textMessages.map]. *)
Definition toMessage (w : World) (m : Slack.Message) : MessageWithTimestamp :=
  {| text := cleanSlackText (default [] (Slack.text m));
     timestamp := parseFloat w (if truthy (Slack.ts m)
                                then interpolate (Slack.ts m) else js "0") |}.

Definition fetchSlackMessagesFromChannel
    : World → jsstring → Settled History.Body → Settled (list MessageWithTimestamp) :=
  Common.fetchSlackMessagesFromChannel toMessage.

(** Last hour: three times; last six hours: twice. *)
Definition weightedMessages : Q → list MessageWithTimestamp → list jsstring :=
  Common.weightedMessages (60 * 60) (6 * 60 * 60).

Definition fetchSlackFromMultipleChannels : World → Settled (list jsstring) :=
  Common.fetchSlackFromMultipleChannels toMessage (60 * 60) (6 * 60 * 60).

(** [JSON.parse] and [parsed.top_emojis.map] are not guarded here: what
    they throw is the rejection. *)
Definition parse_failure (content : jsstring) (parseError : JsError) : JsError :=
  parseError.

Definition analyzeWithAI
    : World → list jsstring → Settled (MoodAnalysis (ref jsstring)) :=
  Common.analyzeWithOpenAI getBasicEmojiMap parse_failure.

Definition GET : World → Response :=
  Common.GET getBasicEmojiMap toMessage (60 * 60) (6 * 60 * 60)
    parse_failure playlistsForMood.

End Route2.

(** * The page

    The [Home] component that shows the answer of the endpoint: what a run
    of [fetchMood] does to the state and which effects it starts, which of
    the views is rendered, the cursor trail, and the styling helpers. *)

Module Page.

(** [interface MoodData], the answer of the endpoint read at its declared
    type. *)
Record MoodData := {
  mood_score : Q;
  mood_label : jsstring;
  summary : jsstring;
  positive_signals : list jsstring;
  negative_signals : list jsstring;
  top_emojis : list jsstring;
  playlist : Playlist;
  sample_size : N;
  generated_at : jsstring
}.

(** What [res.json()] gives: an object with an [error], or the data. *)
Inductive Json : Type :=
  | ErrorBody (error : jsstring)
  | MoodBody (d : MoodData).

(** The state of the component that [fetchMood] reads and writes. *)
Record State := {
  data : option Json;
  loading : bool;
  error : option jsstring;
  isRefreshing : bool
}.

Definition initial : State :=
  {| data := None; loading := true; error := None; isRefreshing := false |}.

Inductive Effect : Type :=
  | Confetti
  | EmojiRain (emojis : list jsstring).

(** [data?.mood_score] *)
Definition score_of (json : Json) : option Q :=
  match json with
  | MoodBody d => Some (mood_score d)
  | ErrorBody _ => None
  end.

(** A number or [undefined] in a condition: zero and [undefined] are falsy. *)
Definition number_truthy (n : option Q) : bool :=
  match n with
  | Some q => negb (Qeq_bool q 0)
  | None => false
  end.

(** [prevScore !== score] *)
Definition differs (prevScore : option Q) (score : Q) : bool :=
  match prevScore with
  | Some p => negb (Qeq_bool p score)
  | None => true
  end.

(** [fetchMood]: the state it leaves and the effects it starts, given the
    state it finds and how the request for [/api/mood] ends. *)
Definition fetchMood (s : State) (reply : Settled Json) : State * list Effect :=
  match reply with
  | Rejected e =>
      ({| data := data s; loading := false; error := Some (message e);
          isRefreshing := false |}, [])
  | Resolved (ErrorBody (c :: reason)) =>
      ({| data := data s; loading := false; error := Some (c :: reason);
          isRefreshing := false |}, [])
  | Resolved json =>
      let prevScore := data s ≫= score_of in
      let effects :=
        match json with
        | MoodBody d =>
            let score := mood_score d in
            (if Qle_bool 80 score then [Confetti] else [])
            ++ (if Qle_bool score 30
                   && (negb (number_truthy prevScore) || differs prevScore score)
                then [EmojiRain (top_emojis d)] else [])
            ++ (if number_truthy prevScore && differs prevScore score
                   && Qgt_bool score 30 && Qgt_bool 80 score
                then [EmojiRain (top_emojis d)] else [])
        | ErrorBody _ => []
        end in
      ({| data := Some json; loading := false; error := error s;
          isRefreshing := false |}, effects)
  end.

(** What the component renders.  Data without the fields of [MoodData]
    make the rendering of the dashboard throw. *)
Inductive View : Type :=
  | Spinner
  | ErrorPanel (reason : jsstring)
  | Blank
  | Dashboard (d : MoodData)
  | RenderThrows.

Definition view (s : State) : View :=
  if loading s then Spinner
  else match error s with
       | Some (c :: reason) => ErrorPanel (c :: reason)
       | _ =>
           match data s with
           | None => Blank
           | Some (MoodBody d) => Dashboard d
           | Some (ErrorBody _) => RenderThrows
           end
       end.

(** ** The cursor trail *)

Record Trail := { x : Q; y : Q; id : Z }.

Record Cursor := { cursorTrail : list Trail; trailIdRef : Z }.

Definition no_trail : Cursor := {| cursorTrail := []; trailIdRef := 0 |}.

(** [n++] on a number that holds a whole value: at [2^53] the sum is
    rounded back to [2^53]. *)
Definition increment (n : Z) : Z := if (n <? 2 ^ 53)%Z then (n + 1)%Z else n.

(** [l.slice(-n)] *)
Definition slice_last {A} (n : nat) (l : list A) : list A :=
  drop (length l - n) l.

(** [handleMouseMove], on the coordinates of the event. *)
Definition handleMouseMove (s : Cursor) (e : Q * Q) : Cursor :=
  let newTrail := {| x := e.1; y := e.2; id := trailIdRef s |} in
  {| cursorTrail := slice_last 8 (cursorTrail s) ++ [newTrail];
     trailIdRef := increment (trailIdRef s) |}.

(** ** Styling *)

Definition getMoodColor (label : jsstring) : ref jsstring :=
  let colors := object [(js "Chaos", js "text-red-500");
                        (js "Stressed", js "text-orange-500");
                        (js "Neutral", js "text-yellow-500");
                        (js "Good", js "text-green-500");
                        (js "Vibes", js "text-blue-500")] in
  match get colors label with
  | Own (c :: color) => Val (c :: color)
  | Own [] => Val (js "text-gray-500")
  | Inherited key => ProtoMember key
  | Undefined => Val (js "text-gray-500")
  end.

Definition getMoodBgColor (label : jsstring) : ref jsstring :=
  let colors := object [(js "Chaos", js "bg-red-100");
                        (js "Stressed", js "bg-orange-100");
                        (js "Neutral", js "bg-yellow-100");
                        (js "Good", js "bg-green-100");
                        (js "Vibes", js "bg-blue-100")] in
  match get colors label with
  | Own (c :: color) => Val (c :: color)
  | Own [] => Val (js "bg-gray-100")
  | Inherited key => ProtoMember key
  | Undefined => Val (js "bg-gray-100")
  end.

Definition getHeartbeatSpeed (score : Q) : Q :=
  if Qgt_bool 20 score then 5 # 10
  else if Qgt_bool 40 score then 7 # 10
  else if Qgt_bool 60 score then 1
  else if Qgt_bool 80 score then 13 # 10
  else 15 # 10.

End Page.

(** ** Vocabulary of the statements *)

(** [t] occurs in [s] ([String.prototype.includes] is its test). *)
Definition substring (t s : jsstring) : Prop := ∃ pre post, s = pre ++ t ++ post.

Fixpoint includes (t s : jsstring) : bool :=
  starts_with t s || match s with [] => false | _ :: s' => includes t s' end.

(** [closed_from false s]: every [<] of [s] is closed by a [>] of [s] before
    the next [<], so that [s] ends outside of [<...>] markup. *)
Fixpoint closed_from (inside : bool) (s : jsstring) : bool :=
  match s with
  | [] => negb inside
  | c :: s' =>
      if inside then
        if (c =? LT)%N then false
        else if (c =? GT)%N then closed_from false s' else closed_from true s'
      else
        if (c =? LT)%N then closed_from true s' else closed_from false s'
  end.

(** A position between [pre] and [post] lies outside of the markup that
    [cleanSlackText] strips when the markup of [pre] is closed, or when no
    [>] follows. *)
Definition outside_markup (pre post : jsstring) : Prop :=
  closed_from false pre = true ∨ GT ∉ post.

Inductive closed : jsstring → Prop :=
  | closed_nil : closed []
  | closed_text c s : c ≠ LT → closed s → closed (c :: s)
  | closed_tag u s : LT ∉ u → GT ∉ u → closed s → closed (LT :: u ++ GT :: s).

(** The five stages that both routes apply before white space is
    collapsed: the three markup patterns and the three entities. *)
Definition strip_markup (text : jsstring) : jsstring :=
  unescape_gt (unescape_lt (unescape_amp
    (strip_angle (strip_links (strip_mentions text))))).

(** What may follow a [<] that [/<[^>]+>/] does not match: a [>] at once,
    or no [>] at all. *)
Definition dead (w : jsstring) : Prop := head w = Some GT ∨ GT ∉ w.

(** None of the markup expressions matches anywhere in [s]. *)
Definition tag_free (s : jsstring) : Prop :=
  ∀ w, (LT :: w) `suffix_of` s → dead w.

(** White space is collapsed: every white space code unit is a single
    space, and no white space follows it. *)
Definition collapsed (s : jsstring) : Prop :=
  ∀ c w, (c :: w) `suffix_of` s → is_space c = true →
    c = SPACE ∧ run is_space w = 0.

(** A text in normal form: no markup, no entity, white space collapsed
    and trimmed. *)
Definition normal (s : jsstring) : Prop :=
  tag_free s ∧ collapsed s ∧ (AMP ∉ s) ∧ trim s = s.

(** The number of times the text of a message is repeated, by the ages of
    the two recency tiers. *)
Definition recency_weight (recent_age middle_age now : Q)
    (m : MessageWithTimestamp) : nat :=
  if Qgt_bool (timestamp m) (now - recent_age) then 3
  else if Qgt_bool (timestamp m) (now - middle_age) then 2
  else 1.

(** The number of entries of a sequence that are the text [t]. *)
Definition occurrences (t : jsstring) (l : list jsstring) : nat :=
  length (filter (λ x, x = t) l).

(** The emoji cache is of no use at [now]: a directory has to be fetched. *)
Definition cache_expired (c : EmojiCache) (now : Z) : Prop :=
  emojiCache c = None ∨ (CACHE_DURATION ≤ now - emojiCacheTime c)%Z.

(** A well-formed link: [https://], a host, a path, and no white space. *)
Definition well_formed_url (u : jsstring) : bool :=
  starts_with (js "https://") u
  && match split 47 (drop 8 u) with
     | host :: _ :: _ => negb (bool_decide (host = []))
     | _ => false
     end
  && forallb (λ c, negb (is_space c)) u.

Definition five_labels : list jsstring :=
  [js "Chaos"; js "Stressed"; js "Neutral"; js "Good"; js "Vibes"].

(** The recency tier of a timestamp, in the words of the specification:
    three times above the recent threshold, twice strictly between the
    thresholds, once otherwise, and a timestamp that is a threshold belongs
    to the tier below it. *)
Definition in_tier (recent middle ts : Q) (n : nat) : Prop :=
  ((recent < ts)%Q → n = 3)
  ∧ ((middle < ts)%Q → (ts < recent)%Q → n = 2)
  ∧ ((ts == recent)%Q → n = 2)
  ∧ ((ts == middle)%Q → n = 1)
  ∧ ((ts < middle)%Q → n = 1).

(** [s] is what the directory in use holds for [code]: the cached
    directory, the fallback table, or the directory that is fetched. *)
Definition directory_entry (basic : gmap jsstring jsstring) (c : EmojiCache)
    (res : Settled EmojiList.Body) (code s : jsstring) : Prop :=
  (∃ cached, emojiCache c = Some cached ∧ cached !! code = Some s)
  ∨ basic !! code = Some s
  ∨ (∃ entries,
       res = Resolved {| EmojiList.ok := true; EmojiList.emoji := Some entries |}
       ∧ Common.buildEmojiMap basic entries !! code = Some s).

(** ** Sample requests *)

Definition no_cache : EmojiCache := {| emojiCache := None; emojiCacheTime := 0 |}.

(** An ordinary message of a person. *)
Definition said (text ts : jsstring) : Slack.Message :=
  {| Slack.type := Some (js "message"); Slack.subtype := None;
     Slack.bot_id := None; Slack.files := false; Slack.text := Some text;
     Slack.reactions := None; Slack.ts := Some ts |}.

Definition history_of (ms : list Slack.Message) : Settled History.Body :=
  Resolved {| History.ok := true; History.error := None;
              History.messages := Some ms |}.

Definition history_error (reason : jsstring) : Settled History.Body :=
  Resolved {| History.ok := false; History.error := Some reason;
              History.messages := None |}.

(** [parseFloat] on the decimal digits of a whole number. *)
Definition digits (s : jsstring) : Q :=
  inject_Z (foldl (λ n c, 10 * n + (Z.of_N c - 48))%Z 0%Z s).

(** A JSON text, written with ['] for the double quote. *)
Definition json (s : string) : jsstring :=
  (λ c, if (c =? 39)%N then 34%N else c) <$> js s.
Arguments json s%_string.

(** The analysis of a good day with the label [label]. *)
Definition labelled (label : jsstring) : MoodAnalysis jsstring :=
  {| mood_score := 82; mood_label := label;
     summary := js "Releases went out and people are celebrating.";
     positive_signals := [js "release shipped"]; negative_signals := [];
     top_emojis := [js ":tada:"; js ":shipit:"] |}.

(** The JSON text of [labelled label], for a label without quotes or
    backslashes. *)
Definition labelled_json (label : jsstring) : jsstring :=
  json "{'mood_score':82,'mood_label':'" ++ label
  ++ json "','summary':'Releases went out and people are celebrating.','positive_signals':['release shipped'],'negative_signals':[],'top_emojis':[':tada:',':shipit:']}".

Definition good_day : MoodAnalysis jsstring := labelled (js "Vibes").

Definition completion_of (content : jsstring) : Settled OpenAI.Body :=
  Resolved {| OpenAI.error := None; OpenAI.content := Some content |}.

Definition completion_error (message : jsstring) : Settled OpenAI.Body :=
  Resolved {| OpenAI.error :=
                Some {| OpenAI.error_message := Some message;
                        OpenAI.stringified := js "{...}" |};
              OpenAI.content := None |}.

(** A request at second 1000000 over the channels [C1] and [C2], with no
    emoji cache and an emoji directory that cannot be fetched. *)
Definition request (history : nat → Settled History.Body) (settles : nat → nat)
    (completion : Settled OpenAI.Body) (parsed : Settled Parsed) : World :=
  {| SLACK_CHANNEL_IDS := Some (js "C1, C2");
     split_of_undefined :=
       {| error_name := js "TypeError";
          message := js "Cannot read properties of undefined (reading 'split')" |};
     conversations_history := λ i _, history i;
     settles_at := settles;
     parseFloat := digits;
     now := 1000000;
     chat_completions := λ _, completion;
     JSON_parse := λ _, parsed;
     cache := no_cache;
     now_ms := 1000000000;
     emoji_list := λ _, Rejected {| error_name := js "TypeError";
                                    message := js "fetch failed" |};
     toISOString := js "1970-01-12T13:46:40.000Z" |}.

(** [C1] has one message of this second, [C2] one that is two hours old. *)
Definition two_channels (i : nat) : Settled History.Body :=
  match i with
  | 0 => history_of [said (js "we shipped the release") (js "1000000")]
  | _ => history_of [said (js "standup moved to ten") (js "992800")]
  end.

(** The completion is the JSON text of the analysis of a good day. *)
Definition quiet_day : World :=
  request two_channels id (completion_of (labelled_json (js "Vibes")))
    (Resolved (Analysis good_day)).

(** The completion carries the label [constructor]. *)
Definition odd_label : World :=
  request two_channels id (completion_of (labelled_json (js "constructor")))
    (Resolved (Analysis (labelled (js "constructor")))).

Definition rate_limited : World :=
  request two_channels id (completion_error (js "rate limited"))
    (Resolved (Analysis good_day)).

Definition apology : jsstring :=
  js "I am sorry, but I cannot analyse these messages right now. Please try again in a few minutes, or send fewer messages at once.".

(** The completion [content] is no JSON text, and [JSON.parse] throws
    [thrown] on it. *)
Definition unparsed (content : jsstring) (thrown : JsError) : World :=
  request two_channels id (completion_of content) (Rejected thrown).

(** The [SyntaxError] of V8 for the apology; it quotes the first ten code
    units of the text. *)
Definition apology_error : JsError :=
  {| error_name := js "SyntaxError";
     message := js "Unexpected token 'I', " ++ [34%N] ++ js "I am sorry"
                ++ [34%N] ++ js "... is not valid JSON" |}.

(** The completion is prose. *)
Definition not_json : World := unparsed apology apology_error.

(** The completion is a JSON text without [top_emojis], and
    [parsed.top_emojis.map] throws the [TypeError] of V8. *)
Definition no_emojis : World :=
  request two_channels id (completion_of (json "{'mood_score':82}"))
    (Resolved (NoEmojis
       {| error_name := js "TypeError";
          message := js "Cannot read properties of undefined (reading 'map')" |})).

(** The variable [SLACK_CHANNEL_IDS] is not set. *)
Definition unconfigured : World :=
  {| SLACK_CHANNEL_IDS := None;
     split_of_undefined := split_of_undefined quiet_day;
     conversations_history := conversations_history quiet_day;
     settles_at := settles_at quiet_day;
     parseFloat := parseFloat quiet_day;
     now := now quiet_day;
     chat_completions := chat_completions quiet_day;
     JSON_parse := JSON_parse quiet_day;
     cache := cache quiet_day;
     now_ms := now_ms quiet_day;
     emoji_list := emoji_list quiet_day;
     toISOString := toISOString quiet_day |}.

(** [C1] answers [invalid_auth]. *)
Definition invalid_auth : World :=
  request (λ i, match i with
                | 0 => history_error (js "invalid_auth")
                | _ => two_channels 1
                end)
    id (completion_of (labelled_json (js "Vibes"))) (Resolved (Analysis good_day)).

(** [C1] answers [invalid_auth], but the call for [C2] has failed before. *)
Definition two_failures : World :=
  request (λ i, match i with
                | 0 => history_error (js "invalid_auth")
                | _ => Rejected {| error_name := js "TypeError";
                                   message := js "fetch failed" |}
                end)
    (λ i, 2 - i) (completion_of (labelled_json (js "Vibes")))
    (Resolved (Analysis good_day)).

(** A directory in which [shipit] is an alias of [squirrel], listed before
    [squirrel] itself, an alias of [tada]. *)
Definition aliases : list (jsstring * EmojiList.Value) :=
  [(js "shipit", EmojiList.Str (js "alias:squirrel"));
   (js "squirrel", EmojiList.Str (js "alias:tada"));
   (js "parrot", EmojiList.Str (js "https://emoji.slack-edge.com/parrot.gif"))].

(** The same directory with [squirrel] listed before [shipit]. *)
Definition aliases_target_first : list (jsstring * EmojiList.Value) :=
  [(js "squirrel", EmojiList.Str (js "alias:tada"));
   (js "shipit", EmojiList.Str (js "alias:squirrel"));
   (js "parrot", EmojiList.Str (js "https://emoji.slack-edge.com/parrot.gif"))].

(** ** Vocabulary of the further statements *)

(** A raw message that passes the five filters of
    [fetchSlackMessagesFromChannel] that come before the cleaning. *)
Definition substantive (m : Slack.Message) : Prop :=
  Slack.type m = Some (js "message")
  ∧ (truthy (Slack.subtype m) = false
     ∨ Slack.subtype m = Some (js "thread_broadcast"))
  ∧ truthy (Slack.bot_id m) = false
  ∧ Slack.files m = false
  ∧ truthy (Slack.text m) = true.

(** The number of code units of [s] that are [c]. *)
Definition count_of (c : N) (s : jsstring) : nat :=
  length (filter (λ d, d = c) s).

#[global] Instance substantive_dec (m : Slack.Message) : Decision (substantive m).
Proof. unfold substantive. apply _. Defined.

(** Every message is at least as recent as each message behind it. *)
Definition newest_first (l : list MessageWithTimestamp) : Prop :=
  ∀ i j a b, i < j → l !! i = Some a → l !! j = Some b →
    (timestamp b <= timestamp a)%Q.

(** [all] holds, in the order of the channel ids, what the fetch of each
    channel has resolved with. *)
Definition channel_results
    (fetchChannel : World → jsstring → Settled History.Body
                    → Settled (list MessageWithTimestamp))
    (w : World) (all : list (list MessageWithTimestamp)) : Prop :=
  length all = length (channelIds w)
  ∧ ∀ i channelId, channelIds w !! i = Some channelId →
      ∃ ms, all !! i = Some ms
            ∧ fetchChannel w channelId (conversations_history w i channelId)
              = Resolved ms.

(** The same request, with other times at which the history calls settle. *)
Definition reschedule (w : World) (settles : nat → nat) : World :=
  {| SLACK_CHANNEL_IDS := SLACK_CHANNEL_IDS w;
     split_of_undefined := split_of_undefined w;
     conversations_history := conversations_history w;
     settles_at := settles;
     parseFloat := parseFloat w;
     now := now w;
     chat_completions := chat_completions w;
     JSON_parse := JSON_parse w;
     cache := cache w;
     now_ms := now_ms w;
     emoji_list := emoji_list w;
     toISOString := toISOString w |}.

(** A message with a reaction and a text that is all markup. *)
Definition reacted : Slack.Message :=
  {| Slack.type := Some (js "message"); Slack.subtype := None;
     Slack.bot_id := None; Slack.files := false;
     Slack.text := Some (js "<@U1>");
     Slack.reactions := Some [{| Slack.name := js "tada" |}];
     Slack.ts := Some (js "999000") |}.

(** A channel history with a join notice, a bot message, an upload, a
    greeting of two letters, the message with a reaction and two ordinary
    messages. *)
Definition mixed_history : History.Body :=
  {| History.ok := true; History.error := None;
     History.messages := Some [
       {| Slack.type := Some (js "message");
          Slack.subtype := Some (js "channel_join");
          Slack.bot_id := None; Slack.files := false;
          Slack.text := Some (js "<@U2> has joined the channel");
          Slack.reactions := None; Slack.ts := Some (js "999500") |};
       {| Slack.type := Some (js "message"); Slack.subtype := None;
          Slack.bot_id := Some (js "B1"); Slack.files := false;
          Slack.text := Some (js "build 512 passed");
          Slack.reactions := None; Slack.ts := Some (js "999400") |};
       {| Slack.type := Some (js "message"); Slack.subtype := None;
          Slack.bot_id := None; Slack.files := true;
          Slack.text := Some (js "the slides of the review");
          Slack.reactions := None; Slack.ts := Some (js "999300") |};
       said (js "hi") (js "999200");
       reacted;
       said (js "we shipped the release") (js "1000000");
       {| Slack.type := Some (js "message");
          Slack.subtype := Some (js "thread_broadcast");
          Slack.bot_id := None; Slack.files := false;
          Slack.text := Some (js "also posted to the channel");
          Slack.reactions := None; Slack.ts := Some (js "998000") |} ] |}.

(** Three messages of which the last two are of the same second. *)
Definition three_messages : list MessageWithTimestamp :=
  [ {| text := js "old"; timestamp := 10 |};
    {| text := js "first of the second"; timestamp := 20 |};
    {| text := js "second of the second"; timestamp := 20 |} ].

(** The completion has neither an error object nor a content. *)
Definition no_content : World :=
  request two_channels id
    (Resolved {| OpenAI.error := None; OpenAI.content := None |})
    (Resolved (Analysis good_day)).

(** No entry of the directory is the empty string. *)
Definition no_empty_glyph (m : gmap jsstring jsstring) : Prop :=
  ∀ code s, m !! code = Some s → s ≠ [].

(** A directory as [emoji.list] gives it: a standard name, a custom emoji
    that bears the name of a standard one, an entry that is no string, an
    alias of the custom emoji, and an alias of a standard emoji that the
    directory does not list. *)
Definition workspace_emoji : list (jsstring * EmojiList.Value) :=
  [(js "rocket", EmojiList.Str (js "standard"));
   (js "fire", EmojiList.Str (js "https://emoji.slack-edge.com/fire.png"));
   (js "broken", EmojiList.NotString);
   (js "lit", EmojiList.Str (js "alias:fire"));
   (js "bravo", EmojiList.Str (js "alias:clap"))].

(** A cache that was filled at millisecond 5 with a directory of one
    entry. *)
Definition old_cache : EmojiCache :=
  {| emojiCache := Some {[ js ":old:" := js "old" ]}; emojiCacheTime := 5 |}.

(** The points of all mouse events, each with its place in the sequence of
    events for an id. *)
Definition trail_of (events : list (Q * Q)) : list Page.Trail :=
  imap (λ i e, {| Page.x := e.1; Page.y := e.2; Page.id := Z.of_nat i |}) events.

(** An answer of the endpoint with the score [score]. *)
Definition scored (score : Q) : Page.MoodData :=
  {| Page.mood_score := score; Page.mood_label := js "Stressed";
     Page.summary := js "Two incidents and a late release.";
     Page.positive_signals := []; Page.negative_signals := [js "incident"];
     Page.top_emojis := [js ":sob:"; js ":fire:"];
     Page.playlist := Route2.Stressed; Page.sample_size := 12;
     Page.generated_at := js "1970-01-12T13:46:40.000Z" |}.

(** The page after it has shown an answer with the score [score]. *)
Definition showing (score : Q) : Page.State :=
  {| Page.data := Some (Page.MoodBody (scored score)); Page.loading := false;
     Page.error := None; Page.isRefreshing := false |}.

(** ** The scan of a global replacement *)

Section Replace.
Variable m : jsstring → option nat.
Variable r : jsstring.

Lemma replace_from_nil k : replace_from m r k [] = [].
Proof. by destruct k. Qed.

Lemma replace_from_drop k s :
  replace_from m r k s = replace m r (drop k s).
Proof.
  revert k; induction s as [|c s IH]; intros [|k]; simpl; done.
Qed.

Lemma replace_cons_match c s k :
  m (c :: s) = Some (S k) →
  replace m r (c :: s) = r ++ replace m r (drop k s).
Proof.
  intros H. unfold replace at 1. simpl. rewrite H.
  by rewrite replace_from_drop.
Qed.

Lemma replace_cons_copy c s :
  (∀ k, m (c :: s) ≠ Some (S k)) →
  replace m r (c :: s) = c :: replace m r s.
Proof.
  intros H. unfold replace. simpl.
  destruct (m (c :: s)) as [[|k]|] eqn:E; try done.
  by destruct (H k).
Qed.

(** Code units of the result come from the text or from the replacement. *)
Lemma elem_of_replace_from x k s :
  x ∈ replace_from m r k s → x ∈ s ∨ x ∈ r.
Proof.
  revert k; induction s as [|c s IH]; intros k; simpl.
  - by left.
  - destruct k as [|k].
    + destruct (m (c :: s)) as [[|j]|].
      * rewrite elem_of_cons. intros [->|H]; [left; by left|].
        destruct (IH _ H); [left; by right|by right].
      * rewrite elem_of_app. intros [H|H]; [by right|].
        destruct (IH _ H); [left; by right|by right].
      * rewrite elem_of_cons. intros [->|H]; [left; by left|].
        destruct (IH _ H); [left; by right|by right].
    + intros H. destruct (IH _ H); [left; by right|by right].
Qed.

Lemma elem_of_replace x s : x ∈ replace m r s → x ∈ s ∨ x ∈ r.
Proof. apply elem_of_replace_from. Qed.

(** A text in which the expression matches nowhere is left as it is. *)
Lemma replace_no_match s :
  (∀ v, v `suffix_of` s → m v = None) → replace m r s = s.
Proof.
  induction s as [|c s IH]; intros H; [done|].
  rewrite replace_cons_copy.
  - f_equal. apply IH. intros v Hv. apply H. by apply suffix_cons_r.
  - intros k. by rewrite (H (c :: s)).
Qed.

(** No match starts inside [a]: [a] is copied. *)
Lemma replace_copy_prefix a b :
  (∀ v, v ≠ [] → v `suffix_of` a → m (v ++ b) = None) →
  replace m r (a ++ b) = a ++ replace m r b.
Proof.
  induction a as [|c a IH]; intros H; [done|].
  simpl. rewrite replace_cons_copy.
  - f_equal. apply IH. intros v Hne Hv. apply H; [done|by apply suffix_cons_r].
  - intros k. pose proof (H (c :: a) ltac:(done) ltac:(done)) as E.
    simpl in E. by rewrite E.
Qed.

(** Every match that starts inside [a] ends inside [a]: the scan of
    [a ++ b] is at a fresh position when it reaches [b]. *)
Lemma replace_from_split a b k :
  (∀ v j, v `suffix_of` a → m (v ++ b) = Some j → j ≤ length v) →
  k ≤ length a →
  ∃ a', replace_from m r k (a ++ b) = a' ++ replace m r b.
Proof.
  revert k; induction a as [|c a IH]; intros k H Hk.
  - simpl in Hk. assert (k = 0) as -> by lia. by exists [].
  - assert (∀ v j, v `suffix_of` a → m (v ++ b) = Some j → j ≤ length v) as H'.
    { intros v j Hv. apply H. by apply suffix_cons_r. }
    simpl. destruct k as [|k].
    + destruct (m (c :: a ++ b)) as [[|j]|] eqn:E.
      * destruct (IH 0 H' ltac:(lia)) as [a' Ha']. exists (c :: a'). by rewrite Ha'.
      * pose proof (H (c :: a) (S j) ltac:(done) E) as Hj. simpl in Hj.
        destruct (IH j H' ltac:(lia)) as [a' Ha']. exists (r ++ a').
        by rewrite Ha', (assoc_L (++)).
      * destruct (IH 0 H' ltac:(lia)) as [a' Ha']. exists (c :: a'). by rewrite Ha'.
    + simpl in Hk. apply IH; [done|lia].
Qed.

Lemma replace_split a b :
  (∀ v j, v `suffix_of` a → m (v ++ b) = Some j → j ≤ length v) →
  ∃ a', replace m r (a ++ b) = a' ++ replace m r b.
Proof. intros H. apply replace_from_split; [done|lia]. Qed.

End Replace.

(** ** Facts about the matchers *)

Lemma drop_S_middle {A} (u : list A) x y : drop (S (length u)) (u ++ x :: y) = y.
Proof.
  rewrite cons_middle, (assoc_L (++)). apply drop_app_length'.
  rewrite length_app. simpl. lia.
Qed.

Lemma starts_with_prefix p s : starts_with p s = true ↔ p `prefix_of` s.
Proof.
  revert s; induction p as [|a p IH]; intros [|b s]; simpl.
  - split; [intros _; apply prefix_nil|done].
  - split; [intros _; apply prefix_nil|done].
  - split; [done|]. intros H. by apply prefix_nil_inv in H.
  - rewrite andb_true_iff, N.eqb_eq, IH. split.
    + intros [-> H]. by apply prefix_cons.
    + intros H. apply prefix_cons_inv_1 in H as H1.
      apply prefix_cons_inv_2 in H. done.
Qed.

Lemma starts_with_cons a p s :
  starts_with (a :: p) s = true → ∃ s', s = a :: s'.
Proof.
  destruct s as [|b s]; simpl; [done|].
  rewrite andb_true_iff, N.eqb_eq. intros [-> _]. by eexists.
Qed.

Lemma index_of_Some c s j :
  index_of c s = Some j ↔ ∃ a b, s = a ++ c :: b ∧ length a = j ∧ c ∉ a.
Proof.
  revert j; induction s as [|d s IH]; intros j; simpl.
  - split; [done|]. intros ([|??] & b & ? & _); done.
  - destruct (N.eqb_spec d c) as [->|Hne].
    + split.
      * intros [= <-]. exists [], s. split_and!; [done..|apply not_elem_of_nil].
      * intros ([|x a] & b & E & <- & Hn); [done|].
        injection E as -> ->. destruct Hn. by left.
    + destruct (index_of c s) as [i|] eqn:Ei; simpl.
      * split.
        -- intros [= <-]. destruct (proj1 (IH i) eq_refl) as (a & b & -> & <- & Hn).
           exists (d :: a), b. split_and!; [done..|].
           rewrite not_elem_of_cons. split; [congruence|done].
        -- intros ([|x a] & b & E & <- & Hn).
           { injection E as -> ->. done. }
           injection E as -> ->. apply not_elem_of_cons in Hn as [_ Hn].
           f_equal. simpl. f_equal.
           assert (Some i = Some (length a)) as [= ->]; [|done].
           apply IH. by exists a, b.
      * split; [done|].
        intros ([|x a] & b & E & <- & Hn).
        { injection E as -> ->. done. }
        injection E as -> ->. apply not_elem_of_cons in Hn as [_ Hn].
        exfalso. assert (None = Some (length a)); [|done].
        apply IH. by exists a, b.
Qed.

Lemma index_of_None c s : index_of c s = None ↔ c ∉ s.
Proof.
  induction s as [|d s IH]; simpl.
  - split; [intros _; apply not_elem_of_nil|done].
  - rewrite not_elem_of_cons. destruct (N.eqb_spec d c) as [->|Hne].
    + split; [done|]. by intros [? _].
    + destruct (index_of c s); simpl.
      * split; [done|]. intros [_ H]. by apply IH in H.
      * split; [|done]. intros _. split; [congruence|]. by apply IH.
Qed.

Lemma index_of_is_Some c s : c ∈ s → is_Some (index_of c s).
Proof.
  intros H. destruct (index_of c s) eqn:E; [by eexists|].
  by apply index_of_None in E.
Qed.

Lemma index_of_app_lt c a b j :
  c ∉ b → index_of c (a ++ b) = Some j → j < length a.
Proof.
  intros Hb (x & y & E & <- & Hx)%index_of_Some.
  destruct (decide (length x < length a)) as [|Hge]; [done|].
  exfalso. apply Hb.
  assert (drop (length a) (a ++ b) = drop (length a) (x ++ c :: y)) as E' by by rewrite E.
  rewrite drop_app_length, drop_app_le in E' by lia.
  rewrite E', elem_of_app, elem_of_cons. right; by left.
Qed.

(** A tag match ends at the first [>] of the text. *)
Lemma match_tag_first_gt p s k :
  GT ∉ p → match_tag p s = Some k →
  ∃ j, k = S j ∧ index_of GT s = Some j ∧ length p < j.
Proof.
  intros Hp. unfold match_tag.
  destruct (starts_with p s) eqn:Ep; [|done].
  apply starts_with_prefix in Ep as [s' ->].
  rewrite drop_app_length. destruct s' as [|c t]; [done|].
  destruct (N.eqb_spec c GT) as [->|Hc]; [done|].
  destruct (index_of GT t) as [i|] eqn:Ei; [|done]. simpl. intros [= <-].
  apply index_of_Some in Ei as (a & b & -> & <- & Ha).
  exists (length p + 1 + length a). split_and!; [lia| |lia].
  apply index_of_Some. exists (p ++ c :: a), b. split_and!.
  - by rewrite <-(assoc_L (++)).
  - rewrite length_app. simpl. lia.
  - rewrite not_elem_of_app, not_elem_of_cons. done.
Qed.

Lemma match_tag_of_first_gt p s j :
  starts_with p s = true → index_of GT s = Some j → length p < j →
  match_tag p s = Some (S j).
Proof.
  intros Ep Ej Hj. unfold match_tag. rewrite Ep.
  apply starts_with_prefix in Ep as [s' ->].
  rewrite drop_app_length.
  apply index_of_Some in Ej as (a & b & E & <- & Ha).
  assert (a = p ++ drop (length p) a) as Ea.
  { rewrite <-(take_drop (length p) a) at 1. f_equal.
    assert (take (length p) (p ++ s') = take (length p) (a ++ GT :: b)) as E'
      by by rewrite E.
    rewrite take_app_length, take_app_le in E' by lia. done. }
  destruct (drop (length p) a) as [|c a'] eqn:Ed.
  { rewrite Ea, length_app in Hj. simpl in Hj. lia. }
  rewrite Ea, <-(assoc_L (++)) in E. apply app_inv_head in E as ->.
  simpl. rewrite Ea, not_elem_of_app, not_elem_of_cons in Ha.
  destruct Ha as (_ & Hc & Ha').
  destruct (N.eqb_spec c GT) as [->|_]; [done|].
  assert (index_of GT (a' ++ GT :: b) = Some (length a')) as ->.
  { apply index_of_Some. by exists a', b. }
  simpl. f_equal. rewrite Ea, length_app. simpl. lia.
Qed.

Lemma match_tag_head p c s k : match_tag (LT :: p) (c :: s) = Some k → c = LT.
Proof.
  unfold match_tag. destruct (starts_with (LT :: p) (c :: s)) eqn:E; [|done].
  apply starts_with_cons in E as [? [= -> _]]. done.
Qed.

(** Whatever one of the three markup expressions matches, [/<[^>]+>/]
    matches too. *)
Lemma match_tag_angle p s k :
  GT ∉ p → match_tag (LT :: p) s = Some k → match_tag [LT] s = Some k.
Proof.
  intros Hp H.
  assert (starts_with [LT] s = true) as E1.
  { unfold match_tag in H. destruct (starts_with (LT :: p) s) eqn:E; [|done].
    apply starts_with_cons in E as [s' ->]. done. }
  apply match_tag_first_gt in H as (j & -> & Hj & Hlen).
  - apply match_tag_of_first_gt; [done..|]. simpl in *. lia.
  - rewrite not_elem_of_cons. done.
Qed.

(** ** Emoji codes and the markup around them *)

Lemma closed_from_closed s :
  (closed_from false s = true → closed s) ∧
  (closed_from true s = true →
     ∃ u s', s = u ++ GT :: s' ∧ (LT ∉ u) ∧ (GT ∉ u) ∧ closed s').
Proof.
  induction s as [|c s [IH1 IH2]]; simpl.
  - split; [intros _; constructor|done].
  - destruct (N.eqb_spec c LT) as [->|Hc]; split; try done.
    + intros (u & s' & -> & ? & ? & ?)%IH2. by constructor.
    + intros H. constructor; [done|by apply IH1].
    + destruct (N.eqb_spec c GT) as [->|Hg].
      * intros H. exists [], s. split_and!; try done; try apply not_elem_of_nil.
        by apply IH1.
      * intros (u & s' & -> & ? & ? & ?)%IH2. exists (c :: u), s'.
        rewrite !not_elem_of_cons. split_and!; try done; congruence.
Qed.

Lemma closed_closed_from s : closed s → closed_from false s = true.
Proof.
  induction 1 as [|c s Hc _ IH|u s Hl Hg _ IH]; simpl; [done| |].
  - by destruct (N.eqb_spec c LT).
  - induction u as [|d u IHu]; simpl; [done|].
    apply not_elem_of_cons in Hl as [??], Hg as [??].
    destruct (N.eqb_spec d LT); [congruence|].
    destruct (N.eqb_spec d GT); [congruence|]. by apply IHu.
Qed.

Section TagStage.
Variable p : jsstring.
Hypothesis p_no_gt : GT ∉ p.

Local Abbreviation m := (match_tag (LT :: p)).

Lemma lt_p_no_gt : GT ∉ LT :: p.
Proof. by rewrite not_elem_of_cons. Qed.

Lemma match_tag_not_lt c s : c ≠ LT → m (c :: s) = None.
Proof.
  intros Hc. destruct (m (c :: s)) eqn:E; [|done].
  by apply match_tag_head in E.
Qed.

Lemma match_tag_bound v b j : GT ∉ b → m (v ++ b) = Some j → j ≤ length v.
Proof.
  intros Hb E.
  destruct (match_tag_first_gt _ _ _ lt_p_no_gt E) as (i & -> & Hi & _).
  apply index_of_app_lt in Hi; [lia|done].
Qed.

Lemma match_tag_no_gt s : GT ∉ s → m s = None.
Proof.
  intros Hs. destruct (m s) eqn:E; [|done].
  destruct (match_tag_first_gt _ _ _ lt_p_no_gt E) as (i & _ & Hi & _).
  apply index_of_Some in Hi as (a & b & -> & _). destruct Hs.
  rewrite elem_of_app, elem_of_cons. right; by left.
Qed.

(** Text without [<] is copied. *)
Lemma strip_tag_copy a b :
  LT ∉ a → replace m [] (a ++ b) = a ++ replace m [] b.
Proof.
  intros Ha. apply replace_copy_prefix. intros [|c v] Hne [k Hv]; [done|].
  simpl. apply match_tag_not_lt. intros ->. apply Ha. rewrite Hv.
  rewrite elem_of_app, elem_of_cons. right; by left.
Qed.

(** Closed markup is stripped on its own: what follows it does not
    matter, and what is left of it is closed again. *)
Lemma strip_tag_closed pre rest :
  closed pre →
  ∃ pre', replace m [] (pre ++ rest) = pre' ++ replace m [] rest ∧ closed pre'.
Proof.
  induction 1 as [|c s Hc _ (pre' & E & Hcl)|u s Hl Hg _ (pre' & E & Hcl)].
  - exists []. split; [done|constructor].
  - exists (c :: pre'). split; [|by constructor].
    simpl. rewrite replace_cons_copy, E; [done|].
    intros k. by rewrite match_tag_not_lt.
  - destruct (m ((LT :: u ++ GT :: s) ++ rest)) as [k|] eqn:Em.
    + exists pre'. split; [|done].
      destruct (match_tag_first_gt _ _ _ lt_p_no_gt Em) as (j & -> & Hj & _).
      assert (Some j = Some (S (length u))) as [= ->].
      { rewrite <-Hj. apply index_of_Some.
        exists (LT :: u), (s ++ rest). simpl.
        rewrite <-(assoc_L (++)), not_elem_of_cons. done. }
      simpl in *. rewrite (replace_cons_match _ _ _ _ _ Em). simpl.
      rewrite <-(assoc_L (++)). simpl. by rewrite drop_S_middle.
    + exists (LT :: u ++ GT :: pre'). split; [|by constructor].
      simpl in *. rewrite replace_cons_copy by (intros k; by rewrite Em).
      rewrite <-!(assoc_L (++)). simpl.
      replace (u ++ GT :: s ++ rest) with ((u ++ [GT]) ++ s ++ rest)
        by by rewrite <-(assoc_L (++)).
      rewrite strip_tag_copy, E, <-(assoc_L (++)); [done|].
      rewrite not_elem_of_app, not_elem_of_cons. split_and!; try done.
      apply not_elem_of_nil.
Qed.

(** A token without angle brackets that lies outside of the markup
    passes the stage, and still lies outside of the markup after it. *)
Lemma tag_stage_keeps pre tok post :
  LT ∉ tok → GT ∉ tok → outside_markup pre post →
  ∃ pre' post',
    replace m [] (pre ++ tok ++ post) = pre' ++ tok ++ post' ∧
    outside_markup pre' post'.
Proof.
  intros Hl Hg [Hc|Hp].
  - apply closed_from_closed in Hc.
    destruct (strip_tag_closed pre (tok ++ post) Hc) as (pre' & -> & Hcl).
    exists pre', (replace m [] post). rewrite strip_tag_copy by done.
    split; [done|]. left. by apply closed_closed_from.
  - assert (GT ∉ tok ++ post) as Hb by by rewrite not_elem_of_app.
    destruct (replace_split m [] pre (tok ++ post)) as [pre' ->].
    { intros v j _. by apply match_tag_bound. }
    exists pre', post. split; [|by right]. f_equal.
    apply replace_no_match. intros v [k Hv]. apply match_tag_no_gt.
    intros Hin. apply Hb. rewrite Hv, elem_of_app. by right.
Qed.

End TagStage.

(** Code units of an emoji code: a colon or a name character; none of them
    is white space, an angle bracket or an ampersand. *)
Ltac char_class :=
  unfold is_name_char, is_space, LT, GT, AMP, COLON, SPACE in *;
  repeat match goal with
  | |- _ = false => apply not_true_iff_false; intro
  | H : _ = false |- _ => apply not_true_iff_false in H
  end;
  repeat match goal with
  | H : _ |- _ =>
      match type of H with context [@eq bool _ true] => revert H end
  end;
  rewrite ?orb_true_iff, ?andb_true_iff, ?N.leb_le, ?N.eqb_eq; lia.

Lemma name_char_not_space c : is_name_char c = true → is_space c = false.
Proof. intros H. char_class. Qed.

Lemma name_char_plain c :
  is_name_char c = true → c ≠ LT ∧ c ≠ GT ∧ c ≠ AMP ∧ c ≠ COLON.
Proof. intros H. split_and!; intros ->; done. Qed.

Lemma colon_not_space : is_space COLON = false.
Proof. done. Qed.

Lemma elem_of_emoji_code c name :
  forallb is_name_char name = true →
  c ∈ emoji_code name → c = COLON ∨ is_name_char c = true.
Proof.
  intros Hn. unfold emoji_code.
  rewrite elem_of_cons, elem_of_app, elem_of_cons, elem_of_nil.
  intros [->|[H|[->|[]]]]; [by left| |by left].
  right. rewrite forallb_forall in Hn. apply Hn. by apply list_elem_of_In.
Qed.

Lemma emoji_code_plain c name :
  forallb is_name_char name = true → c ∈ emoji_code name →
  c ≠ LT ∧ c ≠ GT ∧ c ≠ AMP ∧ is_space c = false.
Proof.
  intros Hn [->|H]%elem_of_emoji_code; [done| |done].
  destruct (name_char_plain c H) as (? & ? & ? & _).
  split_and!; try done. by apply name_char_not_space.
Qed.

Lemma run_app_le f v c y : f c = false → run f (v ++ c :: y) ≤ length v.
Proof.
  intros Hc. induction v as [|d v IH]; simpl.
  - rewrite Hc. lia.
  - destruct (f d); lia.
Qed.

(** A literal pattern neither starts inside the token nor reaches into it
    when its first code unit does not occur in the token and the first code
    unit of the token does not occur in the pattern. *)
Lemma lit_stage_keeps p0 p r pre c t post :
  c ∉ p0 :: p → p0 ∉ c :: t →
  ∃ pre' post',
    replace (match_lit (p0 :: p)) r (pre ++ (c :: t) ++ post)
    = pre' ++ (c :: t) ++ post'.
Proof.
  intros Hc Hp.
  destruct (replace_split (match_lit (p0 :: p)) r pre ((c :: t) ++ post))
    as [pre' ->].
  { intros v j _. unfold match_lit.
    destruct (starts_with _ _) eqn:E; [|done]. intros [= <-].
    apply starts_with_prefix in E as [z E].
    destruct (decide (length (p0 :: p) ≤ length v)) as [|Hlt]; [done|].
    exfalso. apply Hc.
    assert ((v ++ (c :: t) ++ post) !! length v = Some c) as Hv
      by (simpl; by rewrite list_lookup_middle).
    rewrite E, lookup_app_l in Hv by lia.
    apply list_elem_of_lookup. by eexists. }
  exists pre', (replace (match_lit (p0 :: p)) r post). f_equal.
  apply replace_copy_prefix. intros [|d v] Hne [k Hv]; [done|].
  unfold match_lit. destruct (starts_with _ _) eqn:E; [|done].
  apply starts_with_cons in E as [? [= -> _]].
  destruct Hp. rewrite Hv, elem_of_app. right; by left.
Qed.

Lemma space_stage_keeps pre tok post :
  (∀ c, c ∈ tok → is_space c = false) → tok ≠ [] →
  ∃ pre' post', collapse_space (pre ++ tok ++ post) = pre' ++ tok ++ post'.
Proof.
  intros Hs Hne. unfold collapse_space.
  destruct (replace_split match_space (js " ") pre (tok ++ post)) as [pre' ->].
  { intros v j _. unfold match_space.
    destruct tok as [|c t]; [done|].
    pose proof (run_app_le is_space v c (t ++ post) (Hs c ltac:(by left))).
    simpl in *. destruct (run _ _); [done|]. intros [= <-]. lia. }
  exists pre', (replace match_space (js " ") post). f_equal.
  apply replace_copy_prefix. intros [|d v] Hv0 [k Hv]; [done|].
  unfold match_space. simpl. rewrite Hs; [done|].
  rewrite Hv, elem_of_app. right; by left.
Qed.

Lemma trim_start_keeps a c y :
  is_space c = false → ∃ a', trim_start (a ++ c :: y) = a' ++ c :: y.
Proof.
  intros Hc. induction a as [|d a [a' IH]]; simpl.
  - exists []. by rewrite Hc.
  - destruct (is_space d); [by exists a'|by exists (d :: a)].
Qed.

Lemma trim_end_keeps a c y :
  is_space c = false → ∃ y', trim_end (a ++ c :: y) = a ++ c :: y'.
Proof.
  intros Hc. unfold trim_end.
  rewrite reverse_app, reverse_cons, <-(assoc_L (++)). simpl.
  destruct (trim_start_keeps (reverse y) c (reverse a) Hc) as [y' ->].
  exists (reverse y').
  by rewrite reverse_app, reverse_cons, reverse_involutive, <-(assoc_L (++)).
Qed.

Lemma trim_keeps pre name post :
  forallb is_name_char name = true →
  ∃ pre' post',
    trim (pre ++ emoji_code name ++ post) = pre' ++ emoji_code name ++ post'.
Proof.
  intros Hn. unfold trim, emoji_code. simpl.
  destruct (trim_start_keeps pre COLON ((name ++ [COLON]) ++ post) colon_not_space)
    as [pre' ->].
  replace (pre' ++ COLON :: (name ++ [COLON]) ++ post)
    with ((pre' ++ COLON :: name) ++ COLON :: post)
    by by rewrite <-!(assoc_L (++)).
  destruct (trim_end_keeps (pre' ++ COLON :: name) COLON post colon_not_space)
    as [post' ->].
  exists pre', post'. by rewrite <-!(assoc_L (++)).
Qed.

(** Non-membership in a list of given code units, by evaluation. *)
Ltac not_in :=
  match goal with
  | |- ?x ∉ ?l =>
      exact (bool_decide_eq_false_1 (x ∈ l) (eq_refl (bool_decide (x ∈ l))))
  end.

Lemma includes_substring t s : includes t s = true ↔ substring t s.
Proof.
  induction s as [|c s IH]; simpl.
  - rewrite orb_false_r, starts_with_prefix. split.
    + intros ->%prefix_nil_inv. by exists [], [].
    + intros (pre & post & E). symmetry in E.
      apply app_eq_nil in E as [_ [-> _]%app_eq_nil]. done.
  - rewrite orb_true_iff, starts_with_prefix, IH. split.
    + intros [[post ->]|(pre & post & ->)]; [by exists [], post|].
      by exists (c :: pre), post.
    + intros ([|d pre] & post & E).
      * left. exists post. done.
      * injection E as -> ->. right. by exists pre, post.
Qed.

Section MarkupStages.
Context (pre tok post : jsstring).
Hypothesis tok_lt : LT ∉ tok.
Hypothesis tok_gt : GT ∉ tok.
Hypothesis out : outside_markup pre post.

Lemma strip_mentions_keeps :
  ∃ pre' post', strip_mentions (pre ++ tok ++ post) = pre' ++ tok ++ post'
                ∧ outside_markup pre' post'.
Proof. apply (tag_stage_keeps (js "@")); try done. not_in. Qed.

Lemma strip_links_keeps :
  ∃ pre' post', strip_links (pre ++ tok ++ post) = pre' ++ tok ++ post'
                ∧ outside_markup pre' post'.
Proof.
  apply (tag_stage_keeps (js "http")); try done. not_in.
Qed.

Lemma strip_angle_keeps :
  ∃ pre' post', strip_angle (pre ++ tok ++ post) = pre' ++ tok ++ post'
                ∧ outside_markup pre' post'.
Proof. apply (tag_stage_keeps []); try done. apply not_elem_of_nil. Qed.

End MarkupStages.

Lemma strip_markup_keeps pre name post :
  forallb is_name_char name = true → outside_markup pre post →
  ∃ pre' post',
    strip_markup (pre ++ emoji_code name ++ post)
    = pre' ++ emoji_code name ++ post'.
Proof.
  intros Hn Hout. unfold strip_markup.
  assert ((LT ∉ emoji_code name) ∧ (GT ∉ emoji_code name)
          ∧ (AMP ∉ emoji_code name)) as (Hl & Hg & Ha).
  { split_and!; intros H; by destruct (emoji_code_plain _ _ Hn H) as (?&?&?&?). }
  destruct (strip_mentions_keeps pre _ post Hl Hg Hout) as (p1 & q1 & -> & H1).
  destruct (strip_links_keeps p1 _ q1 Hl Hg H1) as (p2 & q2 & -> & H2).
  destruct (strip_angle_keeps p2 _ q2 Hl Hg H2) as (p3 & q3 & -> & _).
  unfold unescape_amp, unescape_lt, unescape_gt.
  change (js "&amp;") with (AMP :: js "amp;").
  change (js "&lt;") with (AMP :: js "lt;").
  change (js "&gt;") with (AMP :: js "gt;").
  unfold emoji_code in *.
  destruct (lit_stage_keeps AMP (js "amp;") (js "&") p3 COLON
              (name ++ [COLON]) q3) as (p4 & q4 & ->); [|done|].
  { not_in. }
  destruct (lit_stage_keeps AMP (js "lt;") (js "<") p4 COLON
              (name ++ [COLON]) q4) as (p5 & q5 & ->); [|done|].
  { not_in. }
  destruct (lit_stage_keeps AMP (js "gt;") (js ">") p5 COLON
              (name ++ [COLON]) q5) as (p6 & q6 & ->); [|done|].
  { not_in. }
  by exists p6, q6.
Qed.

(** The second route keeps every emoji code that lies outside of the
    markup it strips. *)
Theorem Route2_cleanSlackText_keeps_emoji_codes pre name post :
  forallb is_name_char name = true → outside_markup pre post →
  substring (emoji_code name)
    (Route2.cleanSlackText (pre ++ emoji_code name ++ post)).
Proof.
  intros Hn Hout. unfold Route2.cleanSlackText.
  destruct (strip_markup_keeps pre name post Hn Hout) as (p1 & q1 & E).
  unfold strip_markup in E. rewrite E.
  destruct (space_stage_keeps p1 (emoji_code name) q1) as (p2 & q2 & ->);
    [|done|].
  { intros c Hc. by destruct (emoji_code_plain _ _ Hn Hc) as (?&?&?&?). }
  destruct (trim_keeps p2 name q2 Hn) as (p3 & q3 & ->).
  by exists p3, q3.
Qed.

(** ** Texts on which a second normalization changes nothing *)

Lemma match_angle_dead w : match_tag [LT] (LT :: w) = None ↔ dead w.
Proof.
  unfold match_tag, dead. simpl. destruct w as [|c t]; simpl.
  - split; [intros _; right; apply not_elem_of_nil|done].
  - destruct (N.eqb_spec c GT) as [->|Hc].
    + split; [by left|done].
    + rewrite not_elem_of_cons. destruct (index_of GT t) as [j|] eqn:E; simpl.
      * split; [done|]. intros [[=]|[_ H]]; [done|].
        by apply index_of_None in H; rewrite H in E.
      * apply index_of_None in E. split; [|done]. intros _. right. split; [congruence|done].
Qed.

Lemma tag_free_no_match p s v :
  GT ∉ p → tag_free s → v `suffix_of` s → match_tag (LT :: p) v = None.
Proof.
  intros Hp Hs Hv. destruct (match_tag (LT :: p) v) as [k|] eqn:E; [|done].
  apply match_tag_angle in E; [|done].
  destruct v as [|c w]; [done|].
  pose proof (match_tag_head [] c w k E) as Hc. subst c.
  apply Hs, match_angle_dead in Hv. congruence.
Qed.

Lemma tag_free_nil : tag_free [].
Proof. intros w H. by apply suffix_cons_nil_inv in H. Qed.

Lemma tag_free_cons c s :
  (c = LT → dead s) → tag_free s → tag_free (c :: s).
Proof.
  intros Hc Hs w [[= <- ->]|H]%suffix_cons_inv; [by apply Hc|by apply Hs].
Qed.

Lemma tag_free_app r s : LT ∉ r → tag_free s → tag_free (r ++ s).
Proof.
  induction r as [|c r IH]; intros Hr Hs; [done|].
  apply not_elem_of_cons in Hr as [Hc Hr]. simpl.
  apply tag_free_cons; [congruence|by apply IH].
Qed.

Lemma tag_free_suffix v s : v `suffix_of` s → tag_free s → tag_free v.
Proof. intros Hv Hs w Hw. apply Hs. by etrans. Qed.

Lemma dead_app_l w z : dead (w ++ z) → dead w.
Proof.
  intros [H|H].
  - destruct w as [|c w]; [right; apply not_elem_of_nil|by left].
  - right. apply not_elem_of_app in H as [H _]. done.
Qed.

Lemma tag_free_app_l y z : tag_free (y ++ z) → tag_free y.
Proof.
  intros H w Hw. apply (dead_app_l w z), H.
  change (LT :: w ++ z) with ((LT :: w) ++ z). by apply suffix_app.
Qed.

Section ReplaceTagFree.
Variable m : jsstring → option nat.
Variable r : jsstring.
Hypothesis r_lt : LT ∉ r.
Hypothesis r_gt : GT ∉ r.
Hypothesis m_gt : ∀ t j, m (GT :: t) ≠ Some (S j).

Lemma dead_replace w : dead w → dead (replace m r w).
Proof.
  intros [H|H].
  - left. destruct w as [|c w]; [done|]. injection H as ->.
    rewrite replace_cons_copy; [done|]. apply m_gt.
  - right. intros [Hin|Hin]%elem_of_replace; done.
Qed.

(** Where the scan copies a [<], nothing that could close it follows. *)
Lemma tag_free_replace_from k s :
  (∀ w, (LT :: w) `suffix_of` s → (∀ j, m (LT :: w) ≠ Some (S j)) → dead w) →
  tag_free (replace_from m r k s).
Proof.
  revert k; induction s as [|c s IH]; intros k H; simpl; [apply tag_free_nil|].
  assert (∀ k', tag_free (replace_from m r k' s)) as IH'.
  { intros k'. apply IH. intros w Hw. apply H. by apply suffix_cons_r. }
  destruct k as [|k]; [|done].
  destruct (m (c :: s)) as [[|j]|] eqn:E.
  - apply tag_free_cons; [|done]. intros ->. apply dead_replace.
    apply H; [done|]. intros j. by rewrite E.
  - by apply tag_free_app.
  - apply tag_free_cons; [|done]. intros ->. apply dead_replace.
    apply H; [done|]. intros j. by rewrite E.
Qed.

End ReplaceTagFree.

Lemma tag_free_strip_angle s : tag_free (strip_angle s).
Proof.
  apply tag_free_replace_from; try apply not_elem_of_nil.
  - intros t j. by rewrite (match_tag_not_lt []).
  - intros w _ H. apply match_angle_dead.
    destruct (match_tag [LT] (LT :: w)) as [k|] eqn:E; [|done].
    destruct (match_tag_first_gt _ _ _ (lt_p_no_gt [] (not_elem_of_nil _)) E)
      as (j & -> & _). by destruct (H j).
Qed.

Lemma tag_free_collapse_space s : tag_free s → tag_free (collapse_space s).
Proof.
  intros Hs. apply tag_free_replace_from; try not_in.
  - intros t j. done.
  - intros w Hw _. by apply Hs.
Qed.

Lemma trim_start_suffix s : trim_start s `suffix_of` s.
Proof.
  induction s as [|c s IH]; simpl; [done|].
  destruct (is_space c); [by apply suffix_cons_r|done].
Qed.

Lemma trim_end_prefix s : trim_end s `prefix_of` s.
Proof.
  unfold trim_end. destruct (trim_start_suffix (reverse s)) as [k E].
  exists (reverse k). rewrite <-reverse_app, <-E. by rewrite reverse_involutive.
Qed.

Lemma tag_free_trim s : tag_free s → tag_free (trim s).
Proof.
  intros Hs. unfold trim.
  destruct (trim_end_prefix (trim_start s)) as [k E].
  apply (tag_free_app_l _ k). rewrite <-E.
  apply (tag_free_suffix _ s); [apply trim_start_suffix|done].
Qed.

Lemma collapsed_nil : collapsed [].
Proof. intros c w H. by apply suffix_cons_nil_inv in H. Qed.

Lemma collapsed_cons c s :
  (is_space c = true → c = SPACE ∧ run is_space s = 0) →
  collapsed s → collapsed (c :: s).
Proof.
  intros Hc Hs d w [[= <- ->]|H]%suffix_cons_inv; [done|by apply Hs].
Qed.

Lemma collapsed_tail c s : collapsed (c :: s) → collapsed s.
Proof. intros H d w Hw. apply H. by apply suffix_cons_r. Qed.

Lemma run_app_l f w z : run f (w ++ z) = 0 → run f w = 0.
Proof. destruct w as [|c w]; simpl; [done|]. by destruct (f c). Qed.

Lemma collapsed_app_l y z : collapsed (y ++ z) → collapsed y.
Proof.
  intros H c w Hw Hc.
  destruct (H c (w ++ z)) as [-> Hr]; [|done|].
  - change (c :: w ++ z) with ((c :: w) ++ z). by apply suffix_app.
  - split; [done|]. by apply run_app_l in Hr.
Qed.

Lemma run_drop_run f s : run f (drop (run f s) s) = 0.
Proof.
  induction s as [|c s IH]; simpl; [done|].
  destruct (f c) eqn:E; simpl; [done|by rewrite E].
Qed.

Lemma run_collapse_space s :
  run is_space s = 0 → run is_space (collapse_space s) = 0.
Proof.
  destruct s as [|c s]; simpl; [done|].
  destruct (is_space c) eqn:E; [done|]. intros _.
  unfold collapse_space. rewrite replace_cons_copy.
  - simpl. by rewrite E.
  - intros k. unfold match_space. simpl. by rewrite E.
Qed.

Lemma collapsed_collapse_from k s :
  collapsed (replace_from match_space (js " ") k s).
Proof.
  revert k; induction s as [|c s IH]; intros k; simpl; [apply collapsed_nil|].
  destruct k as [|k]; [|done].
  unfold match_space at 1. simpl. destruct (is_space c) eqn:E.
  - apply collapsed_cons; [|done]. intros _. split; [done|].
    rewrite replace_from_drop. apply run_collapse_space, run_drop_run.
  - apply collapsed_cons; [|done]. by rewrite E.
Qed.

Lemma collapsed_collapse_space s : collapsed (collapse_space s).
Proof. apply collapsed_collapse_from. Qed.

Lemma collapse_space_collapsed s : collapsed s → collapse_space s = s.
Proof.
  unfold collapse_space. induction s as [|c s IH]; intros H; [done|].
  pose proof (IH (collapsed_tail _ _ H)) as IH'.
  destruct (is_space c) eqn:E.
  - destruct (H c s) as [-> Hr]; [done..|].
    rewrite (replace_cons_match _ _ _ _ 0).
    + change (drop 0 s) with s. by rewrite IH'.
    + unfold match_space. simpl. by rewrite Hr.
  - rewrite replace_cons_copy, IH'; [done|].
    intros k. unfold match_space. simpl. by rewrite E.
Qed.

Lemma collapsed_trim s : collapsed s → collapsed (trim s).
Proof.
  intros Hs. unfold trim.
  destruct (trim_end_prefix (trim_start s)) as [k E].
  apply (collapsed_app_l _ k). rewrite <-E.
  intros c w Hw. apply Hs. etrans; [done|apply trim_start_suffix].
Qed.

(** [trim] is idempotent. *)
Lemma trim_start_run s : run is_space s = 0 → trim_start s = s.
Proof. destruct s as [|c s]; simpl; [done|]. by destruct (is_space c). Qed.

Lemma run_trim_start s : run is_space (trim_start s) = 0.
Proof.
  induction s as [|c s IH]; simpl; [done|].
  destruct (is_space c) eqn:E; [done|]. simpl. by rewrite E.
Qed.

Lemma trim_end_trim_end s : trim_end (trim_end s) = trim_end s.
Proof.
  unfold trim_end. rewrite reverse_involutive.
  by rewrite (trim_start_run (trim_start _)) by apply run_trim_start.
Qed.

Lemma run_trim_end s : run is_space s = 0 → run is_space (trim_end s) = 0.
Proof.
  intros H. destruct s as [|c s]; [done|]. simpl in H.
  destruct (is_space c) eqn:E; [done|].
  destruct (trim_end_keeps [] c s E) as [y' Hy].
  change ([] ++ c :: s) with (c :: s) in Hy. rewrite Hy. simpl. by rewrite E.
Qed.

Lemma trim_trim s : trim (trim s) = trim s.
Proof.
  unfold trim.
  rewrite (trim_start_run (trim_end _)) by apply run_trim_end, run_trim_start.
  apply trim_end_trim_end.
Qed.

Lemma elem_of_trim c s : c ∈ trim s → c ∈ s.
Proof.
  unfold trim. destruct (trim_end_prefix (trim_start s)) as [k E].
  destruct (trim_start_suffix s) as [k' E'].
  intros H. rewrite E', E, !elem_of_app. right; by left.
Qed.

Lemma strip_tag_tag_free p s :
  GT ∉ p → tag_free s → replace (match_tag (LT :: p)) [] s = s.
Proof.
  intros Hp Hs. apply replace_no_match. intros v Hv.
  by apply (tag_free_no_match p s).
Qed.

Lemma unescape_no_amp p r s : AMP ∉ s → replace (match_lit (AMP :: p)) r s = s.
Proof.
  intros Hs. apply replace_no_match. intros v [k Hv].
  unfold match_lit. destruct (starts_with _ _) eqn:E; [|done].
  apply starts_with_cons in E as [v' ->]. destruct Hs.
  rewrite Hv, elem_of_app, elem_of_cons. right; by left.
Qed.

Lemma strip_emoji_no_colon s : COLON ∉ s → strip_emoji_codes s = s.
Proof.
  intros Hs. apply replace_no_match. intros [|c v] [k Hv]; [done|].
  simpl. destruct (N.eqb_spec c COLON) as [->|]; [|done]. destruct Hs.
  rewrite Hv, elem_of_app, elem_of_cons. right; by left.
Qed.

Lemma elem_of_strip x m s : x ∈ replace m [] s → x ∈ s.
Proof. intros [H|H%elem_of_nil]%elem_of_replace; done. Qed.

Lemma elem_of_collapse_space x s : x ∈ collapse_space s → x ∈ s ∨ x = SPACE.
Proof.
  intros [H|H]%elem_of_replace; [by left|right].
  by apply list_elem_of_singleton in H.
Qed.

Lemma strip_markup_no_amp s :
  AMP ∉ s → strip_markup s = strip_angle (strip_links (strip_mentions s)).
Proof.
  intros Hs. unfold strip_markup, unescape_gt, unescape_lt, unescape_amp.
  change (js "&amp;") with (AMP :: js "amp;").
  change (js "&lt;") with (AMP :: js "lt;").
  change (js "&gt;") with (AMP :: js "gt;").
  set (a := strip_angle (strip_links (strip_mentions s))).
  assert (AMP ∉ a) as Ha
    by by intros ?%elem_of_strip%elem_of_strip%elem_of_strip.
  by rewrite (unescape_no_amp _ _ a), (unescape_no_amp _ _ a),
    (unescape_no_amp _ _ a).
Qed.

Lemma strip_markup_normal s : tag_free s → AMP ∉ s → strip_markup s = s.
Proof.
  intros Ht Ha. rewrite strip_markup_no_amp by done.
  unfold strip_mentions, strip_links, strip_angle.
  change (js "<@") with (LT :: js "@").
  change (js "<http") with (LT :: js "http").
  change (js "<") with (LT :: []).
  rewrite (strip_tag_tag_free (js "@") s), (strip_tag_tag_free (js "http") s),
    (strip_tag_tag_free [] s); try done; not_in.
Qed.

Lemma Route2_cleanSlackText_normal s : normal s → Route2.cleanSlackText s = s.
Proof.
  intros (Ht & Hc & Ha & Htrim). unfold Route2.cleanSlackText.
  fold (strip_markup s). rewrite strip_markup_normal by done.
  by rewrite collapse_space_collapsed.
Qed.

Lemma Route_cleanSlackText_normal s :
  normal s → COLON ∉ s → Route.cleanSlackText s = s.
Proof.
  intros (Ht & Hc & Ha & Htrim) Hcol. unfold Route.cleanSlackText.
  fold (strip_markup s). rewrite strip_markup_normal by done.
  rewrite strip_emoji_no_colon by done.
  by rewrite collapse_space_collapsed.
Qed.

Lemma normal_clean s :
  AMP ∉ s → normal (trim (collapse_space (strip_markup s))).
Proof.
  intros Ha. rewrite strip_markup_no_amp by done. split_and!.
  - apply tag_free_trim, tag_free_collapse_space, tag_free_strip_angle.
  - apply collapsed_trim, collapsed_collapse_space.
  - intros [H|H]%elem_of_trim%elem_of_collapse_space; [|done].
    by apply elem_of_strip, elem_of_strip, elem_of_strip in H.
  - apply trim_trim.
Qed.

(** ** Recency weighting *)

Lemma Qgt_bool_iff a b : Qgt_bool a b = true ↔ (b < a)%Q.
Proof.
  unfold Qgt_bool. rewrite negb_true_iff, <-not_true_iff_false, Qle_bool_iff.
  split; [apply Qnot_le_lt|apply Qlt_not_le].
Qed.

Lemma Qgt_bool_false a b : Qgt_bool a b = false ↔ (a <= b)%Q.
Proof.
  unfold Qgt_bool. by rewrite negb_false_iff, Qle_bool_iff.
Qed.

Section Weights.
Context (recent_age middle_age : Q).
Hypothesis ages : (recent_age < middle_age)%Q.

Local Abbreviation weight := (recency_weight recent_age middle_age).

Lemma weightedMessages_from now acc msgs :
  foldl (λ weighted msg,
           if Qgt_bool (timestamp msg) (now - recent_age) then
             weighted ++ [text msg; text msg; text msg]
           else if Qgt_bool (timestamp msg) (now - middle_age) then
             weighted ++ [text msg; text msg]
           else
             weighted ++ [text msg])
        acc msgs
  = acc ++ mjoin ((λ m, replicate (weight now m) (text m)) <$> msgs).
Proof.
  revert acc; induction msgs as [|m msgs IH]; intros acc; simpl.
  - by rewrite (right_id_L [] (++)).
  - rewrite IH. unfold recency_weight.
    destruct (Qgt_bool _ _); [|destruct (Qgt_bool _ _)];
      by rewrite <-(assoc_L (++)).
Qed.

(** The weighted sequence is the texts in order, each repeated as often as
    its recency weight says. *)
Lemma weightedMessages_expansion now msgs :
  Common.weightedMessages recent_age middle_age now msgs
  = mjoin ((λ m, replicate (weight now m) (text m)) <$> msgs).
Proof. apply (weightedMessages_from now []). Qed.

Lemma recency_weight_tiers now m :
  let recent := (now - recent_age)%Q in
  let middle := (now - middle_age)%Q in
  ((recent < timestamp m)%Q → weight now m = 3)
  ∧ ((middle < timestamp m)%Q → (timestamp m < recent)%Q → weight now m = 2)
  ∧ ((timestamp m == recent)%Q → weight now m = 2)
  ∧ ((timestamp m == middle)%Q → weight now m = 1)
  ∧ ((timestamp m < middle)%Q → weight now m = 1).
Proof.
  intros recent middle. unfold recency_weight. fold recent middle.
  assert (middle < recent)%Q as Hmr.
  { unfold middle, recent. apply Qplus_lt_r. by apply Qopp_lt_compat. }
  destruct (Qgt_bool (timestamp m) recent) eqn:E1;
    [apply Qgt_bool_iff in E1|apply Qgt_bool_false in E1];
  (destruct (Qgt_bool (timestamp m) middle) eqn:E2;
    [apply Qgt_bool_iff in E2|apply Qgt_bool_false in E2]);
  split_and!; intros; try done; exfalso.
  all: repeat match goal with
       | H : (_ == _)%Q |- _ => rewrite H in *; clear H
       end.
  all: try (eapply Qlt_irrefl; eauto using Qlt_trans, Qle_lt_trans, Qlt_le_trans; fail).
  all: first [ by eapply Qlt_irrefl, Qlt_trans
             | by eapply Qlt_irrefl, Qle_lt_trans
             | by eapply Qlt_irrefl, Qlt_le_trans
             | (eapply Qlt_irrefl, Qlt_le_trans; [|done];
                eapply Qlt_trans; done)
             | (eapply Qlt_irrefl, Qle_lt_trans; [done|];
                eapply Qlt_trans; done) ].
Qed.

Lemma occurrences_app t l1 l2 :
  occurrences t (l1 ++ l2) = occurrences t l1 + occurrences t l2.
Proof. unfold occurrences. by rewrite filter_app, length_app. Qed.

Lemma occurrences_replicate t n x :
  occurrences t (replicate n x) = if decide (x = t) then n else 0.
Proof.
  unfold occurrences. induction n as [|n IH]; simpl.
  - by destruct (decide _).
  - rewrite filter_cons. destruct (decide (x = t)); simpl; by rewrite IH.
Qed.

Lemma occurrences_absent t now msgs :
  t ∉ text <$> msgs →
  occurrences t (mjoin ((λ m, replicate (weight now m) (text m)) <$> msgs)) = 0.
Proof.
  induction msgs as [|m msgs IH]; csimpl; [done|].
  rewrite not_elem_of_cons, occurrences_app, occurrences_replicate.
  intros [Hne Hn]. rewrite IH by done. by destruct (decide _).
Qed.

(** When no two messages have the same text, the text of each message is
    there exactly as often as its weight says. *)
Lemma occurrences_weight now msgs m :
  NoDup (text <$> msgs) → m ∈ msgs →
  occurrences (text m)
    (Common.weightedMessages recent_age middle_age now msgs) = weight now m.
Proof.
  rewrite weightedMessages_expansion.
  induction msgs as [|x msgs IH]; csimpl; [by intros _ ?%elem_of_nil|].
  rewrite NoDup_cons, elem_of_cons, occurrences_app, occurrences_replicate.
  intros [Hx Hnd] [->|Hm].
  - rewrite decide_True by done. rewrite occurrences_absent by done. lia.
  - rewrite decide_False, IH by (try done; intros E; apply Hx; rewrite E;
      by apply list_elem_of_fmap_2). done.
Qed.

Lemma length_weightedMessages now msgs :
  length (Common.weightedMessages recent_age middle_age now msgs)
  = sum_list (weight now <$> msgs).
Proof.
  rewrite weightedMessages_expansion.
  induction msgs as [|m msgs IH]; csimpl; [done|].
  by rewrite length_app, length_replicate, IH.
Qed.

End Weights.

(** ** [Promise.all] *)

Lemma first_rejection_mem {A} (ps : list (nat * Settled A)) t e :
  first_rejection ps = Some (t, e) → ∃ j, ps !! j = Some (t, Rejected e).
Proof.
  revert t e; induction ps as [|[t0 [a|e0]] ps IH]; intros t e; simpl; [done| |].
  - intros [j Hj]%IH. by exists (S j).
  - destruct (first_rejection ps) as [[t' e']|] eqn:E.
    + destruct (t' <? t0); intros [= <- <-]; [|by exists 0].
      destruct (IH _ _ eq_refl) as [j Hj]. by exists (S j).
    + intros [= <- <-]. by exists 0.
Qed.

Lemma first_rejection_is_Some {A} (ps : list (nat * Settled A)) i t e :
  ps !! i = Some (t, Rejected e) → is_Some (first_rejection ps).
Proof.
  revert i; induction ps as [|[t0 [a|e0]] ps IH]; intros [|i]; simpl; try done.
  - apply IH.
  - intros _. destruct (first_rejection ps) as [[t' e']|]; [|by eexists].
    destruct (t' <? t0); by eexists.
  - intros H. destruct (IH _ H) as [[t' e'] ->].
    destruct (t' <? t0); by eexists.
Qed.

(** The rejection that settles before every other rejection is the one
    [Promise.all] passes on. *)
Lemma first_rejection_first {A} (ps : list (nat * Settled A)) i t e :
  ps !! i = Some (t, Rejected e) →
  (∀ j t' e', j ≠ i → ps !! j = Some (t', Rejected e') → t < t') →
  first_rejection ps = Some (t, e).
Proof.
  revert i; induction ps as [|[t0 r0] ps IH]; intros [|i]; simpl; try done.
  - intros [= -> ->] H.
    destruct (first_rejection ps) as [[t' e']|] eqn:E; [|done].
    destruct (first_rejection_mem _ _ _ E) as [j Hj].
    pose proof (H (S j) t' e' ltac:(done) Hj) as Hlt.
    destruct (Nat.ltb_spec t' t); [lia|done].
  - intros Hi H. rewrite (IH i Hi).
    + destruct r0 as [a|e0]; [done|].
      pose proof (H 0 t0 e0 ltac:(done) eq_refl) as Hlt.
      destruct (Nat.ltb_spec t t0); [done|lia].
    + intros j t' e' Hne Hj. apply (H (S j) t' e'); [congruence|done].
Qed.

Lemma first_rejection_None {A} (ps : list (nat * Settled A)) :
  first_rejection ps = None →
  ∀ i t r, ps !! i = Some (t, r) → ∃ a, r = Resolved a.
Proof.
  intros Hn i t [a|e] Hi; [by eexists|].
  destruct (first_rejection_is_Some _ _ _ _ Hi) as [? E]. congruence.
Qed.

(** ** The request handler *)

Section Handler.
Context (getBasicEmojiMap : gmap jsstring jsstring).
Context (toMessage : World → Slack.Message → MessageWithTimestamp).
Context (recent_age middle_age : Q).
Context (parse_failure : jsstring → JsError → JsError).
Context (playlistsForMood : jsstring → ref Playlist).

Local Abbreviation fetchChannel := (Common.fetchSlackMessagesFromChannel toMessage).
Local Abbreviation fetchAll :=
  (Common.fetchSlackFromMultipleChannels toMessage recent_age middle_age).
Local Abbreviation analyze :=
  (Common.analyzeWithOpenAI getBasicEmojiMap parse_failure).
Local Abbreviation handler :=
  (Common.GET getBasicEmojiMap toMessage recent_age middle_age parse_failure
     playlistsForMood).

Lemma error_string_Error c m : error_string (Error (c :: m)) = c :: m.
Proof. done. Qed.

Lemma GET_fetch_rejected w e :
  fetchAll w = Rejected e →
  handler w = {| status := 500; body := Failure (error_string e) |}.
Proof. unfold Common.GET. by intros ->. Qed.

Lemma GET_analyze_rejected w msgs e :
  fetchAll w = Resolved msgs → analyze w msgs = Rejected e →
  handler w = {| status := 500; body := Failure (error_string e) |}.
Proof. unfold Common.GET. by intros -> ->. Qed.

Lemma GET_payload w data :
  body (handler w) = Payload data →
  ∃ msgs mood,
    fetchAll w = Resolved msgs ∧ analyze w msgs = Resolved mood
    ∧ status (handler w) = 200%N
    ∧ data = {| mood := mood; playlist := playlistsForMood (mood_label mood);
                sample_size := length msgs; generated_at := toISOString w |}.
Proof.
  unfold Common.GET.
  destruct (fetchAll w) as [msgs|e] eqn:Ef; [|done].
  destruct (analyze w msgs) as [mood|e] eqn:Ea; [|done].
  simpl. intros [= <-]. by exists msgs, mood.
Qed.

Lemma fetchAll_resolved w msgs :
  fetchAll w = Resolved msgs →
  ∃ allMessages,
    Promise_all (Common.channel_fetches toMessage w) = Resolved allMessages
    ∧ msgs = Common.weightedMessages recent_age middle_age (now w)
               (sort_newest_first (concat allMessages)).
Proof.
  unfold Common.fetchSlackFromMultipleChannels.
  destruct (SLACK_CHANNEL_IDS w); [|done].
  destruct (Promise_all _) as [allMessages|e]; [|done].
  intros [= <-]. by exists allMessages.
Qed.

(** There are channel ids only when the variable is set. *)
Lemma channelIds_configured w i channelId :
  channelIds w !! i = Some channelId → ∃ ids, SLACK_CHANNEL_IDS w = Some ids.
Proof.
  unfold channelIds. destruct (SLACK_CHANNEL_IDS w) as [ids|]; [|done].
  by exists ids.
Qed.

Lemma channel_fetches_lookup w i channelId :
  channelIds w !! i = Some channelId →
  Common.channel_fetches toMessage w !! i
  = Some (settles_at w i,
          fetchChannel w channelId (conversations_history w i channelId)).
Proof.
  intros H. unfold Common.channel_fetches.
  by rewrite list_lookup_imap, H.
Qed.

Lemma channel_fetches_lookup_inv w i t r :
  Common.channel_fetches toMessage w !! i = Some (t, r) →
  ∃ channelId, channelIds w !! i = Some channelId ∧ t = settles_at w i
    ∧ r = fetchChannel w channelId (conversations_history w i channelId).
Proof.
  unfold Common.channel_fetches. rewrite list_lookup_imap.
  destruct (channelIds w !! i) as [channelId|]; [|done].
  simpl. intros [= <- <-]. by exists channelId.
Qed.

(** A channel whose history is not [ok] rejects with an error that names
    the channel and the reason. *)
Lemma fetchChannel_not_ok w channelId data :
  History.ok data = false →
  fetchChannel w channelId (Resolved data)
  = Rejected (Error (js "Slack error for channel " ++ channelId ++ js ": "
                       ++ interpolate (History.error data))).
Proof. unfold Common.fetchSlackMessagesFromChannel. by intros ->. Qed.

(** One rejected channel rejects the aggregation, and the handler answers
    500 with the message of the rejection that came first. *)
Lemma GET_channel_rejected w i channelId e :
  channelIds w !! i = Some channelId →
  fetchChannel w channelId (conversations_history w i channelId) = Rejected e →
  ∃ e', fetchAll w = Rejected e'
        ∧ handler w = {| status := 500; body := Failure (error_string e') |}
        ∧ ∃ j id, channelIds w !! j = Some id
            ∧ fetchChannel w id (conversations_history w j id) = Rejected e'.
Proof.
  intros Hi He. pose proof (channel_fetches_lookup w i channelId Hi) as Hl.
  rewrite He in Hl.
  destruct (first_rejection_is_Some _ _ _ _ Hl) as [[t' e'] E].
  exists e'. destruct (channelIds_configured w i channelId Hi) as [ids Hids].
  assert (fetchAll w = Rejected e') as Hf.
  { unfold Common.fetchSlackFromMultipleChannels, Promise_all.
    by rewrite Hids, E. }
  split_and!; [done|by apply GET_fetch_rejected|].
  destruct (first_rejection_mem _ _ _ E) as [j Hj].
  destruct (channel_fetches_lookup_inv _ _ _ _ Hj) as (id & Hid & _ & Hr).
  by exists j, id.
Qed.

(** ... and it is the message of this channel when every other channel
    that is rejected settles later. *)
Lemma GET_channel_rejected_first w i channelId e :
  channelIds w !! i = Some channelId →
  fetchChannel w channelId (conversations_history w i channelId) = Rejected e →
  (∀ j id e', j ≠ i → channelIds w !! j = Some id →
     fetchChannel w id (conversations_history w j id) = Rejected e' →
     settles_at w i < settles_at w j) →
  fetchAll w = Rejected e
  ∧ handler w = {| status := 500; body := Failure (error_string e) |}.
Proof.
  intros Hi He Hfirst. pose proof (channel_fetches_lookup w i channelId Hi) as Hl.
  rewrite He in Hl.
  destruct (channelIds_configured w i channelId Hi) as [ids Hids].
  assert (fetchAll w = Rejected e) as Hf.
  { unfold Common.fetchSlackFromMultipleChannels, Promise_all. rewrite Hids.
    rewrite (first_rejection_first _ i _ e Hl); [done|].
    intros j t' e' Hne Hj.
    destruct (channel_fetches_lookup_inv _ _ _ _ Hj) as (id & Hid & -> & Hr).
    by apply (Hfirst j id e'). }
  split; [done|by apply GET_fetch_rejected].
Qed.

(** The completion carries an error object. *)
Lemma analyze_api_error w msgs data err :
  chat_completions w msgs = Resolved data → OpenAI.error data = Some err →
  analyze w msgs
  = Rejected (Error (js "OpenAI API error: " ++
      (if truthy (OpenAI.error_message err)
       then interpolate (OpenAI.error_message err)
       else OpenAI.stringified err))).
Proof. unfold Common.analyzeWithOpenAI. by intros -> ->. Qed.

(** The content of the completion does not parse. *)
Lemma analyze_parse_failure w msgs data content e :
  chat_completions w msgs = Resolved data → OpenAI.error data = None →
  OpenAI.content data = Some content → content ≠ [] →
  JSON_parse w content = Rejected e →
  analyze w msgs = Rejected (parse_failure content e).
Proof.
  unfold Common.analyzeWithOpenAI. intros -> -> -> Hne. simpl.
  destruct content as [|c content]; [done|]. simpl. by intros ->.
Qed.

End Handler.

(** ** The emoji directory *)

Lemma emoji_code_inj a b : emoji_code a = emoji_code b → a = b.
Proof. unfold emoji_code. intros [= H]. by apply app_inv_tail in H. Qed.

Lemma emoji_code_not_inherited name : emoji_code name ∉ Object_prototype.
Proof.
  unfold Object_prototype, emoji_code.
  rewrite !not_elem_of_cons. split_and!; try done. apply not_elem_of_nil.
Qed.

Lemma replace_first_start p r s :
  starts_with p s = true → replace_first p r s = r ++ drop (length p) s.
Proof. intros H. destruct s; simpl; by rewrite H. Qed.

Lemma replace_first_alias target :
  replace_first (js "alias:") [] (js "alias:" ++ target) = target.
Proof. done. Qed.

Section Directory.
Context (getBasicEmojiMap : gmap jsstring jsstring).

Local Abbreviation entry := (Common.emoji_entry getBasicEmojiMap).
Local Abbreviation build := (Common.buildEmojiMap getBasicEmojiMap).
Local Abbreviation unicode := (Common.getUnicodeForEmojiName getBasicEmojiMap).
Local Abbreviation fetchEmojis := (Common.fetchSlackEmojis getBasicEmojiMap).
Local Abbreviation convert := (Common.convertSlackEmojiToUnicode getBasicEmojiMap).

Lemma getUnicodeForEmojiName_unknown name :
  getBasicEmojiMap !! emoji_code name = None → unicode name = emoji_code name.
Proof. unfold Common.getUnicodeForEmojiName. by intros ->. Qed.

Lemma getUnicodeForEmojiName_nonempty name : unicode name ≠ [].
Proof.
  unfold Common.getUnicodeForEmojiName.
  by destruct (getBasicEmojiMap !! emoji_code name) as [[|??]|].
Qed.

(** A turn of the loop writes the key of its own entry only. *)
Lemma emoji_entry_other emojiMap name value key :
  (∀ s, value = EmojiList.Str s → name ≠ key) →
  entry emojiMap (name, value) !! emoji_code key = emojiMap !! emoji_code key.
Proof.
  intros H. unfold Common.emoji_entry. cbn [fst snd].
  destruct value as [s|]; [|done].
  assert (emoji_code name ≠ emoji_code key) as Hne.
  { intros E%emoji_code_inj. by apply (H s). }
  destruct (starts_with (js "alias:") s);
    [|destruct (starts_with (js "http") s)]; by rewrite lookup_insert_ne.
Qed.

Lemma foldl_emoji_entry_other entries emojiMap key :
  (∀ s, (key, EmojiList.Str s) ∉ entries) →
  foldl entry emojiMap entries !! emoji_code key = emojiMap !! emoji_code key.
Proof.
  revert emojiMap; induction entries as [|[n v] entries IH]; intros m H; [done|].
  simpl. rewrite IH.
  - apply emoji_entry_other. intros s -> ->. apply (H s). by left.
  - intros s Hin. apply (H s). by right.
Qed.

(** An alias to a name that the loop has not met and that the fallback
    table does not know is mapped to the code of that name. *)
Lemma emoji_entry_alias_unknown emojiMap name target :
  emojiMap !! emoji_code target = None →
  getBasicEmojiMap !! emoji_code target = None →
  entry emojiMap (name, EmojiList.Str (js "alias:" ++ target))
  = <[emoji_code name := emoji_code target]> emojiMap.
Proof.
  intros Hm Hb. unfold Common.emoji_entry. cbn [fst snd].
  assert (starts_with (js "alias:") (js "alias:" ++ target) = true) as ->
    by done.
  rewrite replace_first_alias, Hm.
  by rewrite getUnicodeForEmojiName_unknown.
Qed.

Lemma buildEmojiMap_alias_unknown entries i name target :
  NoDup entries.*1 →
  entries !! i = Some (name, EmojiList.Str (js "alias:" ++ target)) →
  getBasicEmojiMap !! emoji_code target = None →
  (∀ j value, j < i → entries !! j ≠ Some (target, EmojiList.Str value)) →
  build entries !! emoji_code name = Some (emoji_code target).
Proof.
  intros Hnd Hi Hb Hbefore. unfold Common.buildEmojiMap.
  rewrite <-(take_drop_middle entries i _ Hi) in Hnd |- *.
  rewrite foldl_app. cbn [foldl].
  rewrite foldl_emoji_entry_other.
  - rewrite emoji_entry_alias_unknown; [by rewrite lookup_insert_eq| |done].
    rewrite foldl_emoji_entry_other; [done|].
    intros s (j & Hj)%list_elem_of_lookup.
    apply lookup_take_Some in Hj as [Hj Hlt]. by apply (Hbefore j s).
  - intros s Hin. rewrite fmap_app, fmap_cons in Hnd. simpl in Hnd.
    apply NoDup_app in Hnd as (_ & _ & Hnd). apply NoDup_cons in Hnd as [Hn _].
    apply Hn. by apply (list_elem_of_fmap_2 fst) in Hin.
Qed.

(** The map that [fetchSlackEmojis] returns: the cached directory, the
    fallback table, or the directory it has built over the fallback table. *)
Lemma fetchSlackEmojis_cases c now res :
  (∃ cached, emojiCache c = Some cached ∧ (fetchEmojis c now res).1 = cached)
  ∨ (fetchEmojis c now res).1 = getBasicEmojiMap
  ∨ (∃ entries,
       res = Resolved {| EmojiList.ok := true; EmojiList.emoji := Some entries |}
       ∧ (fetchEmojis c now res).1 = build entries ∪ getBasicEmojiMap).
Proof.
  unfold Common.fetchSlackEmojis.
  destruct (emojiCache c) as [cached|] eqn:Ec.
  - destruct (_ <? _)%Z; [left; by exists cached|].
    destruct res as [[[] [entries|]]|e]; simpl; try (right; by left).
    right; right. by exists entries.
  - destruct res as [[[] [entries|]]|e]; simpl; try (right; by left).
    right; right. by exists entries.
Qed.

Lemma fetchSlackEmojis_fetched c now entries :
  cache_expired c now →
  (fetchEmojis c now
     (Resolved {| EmojiList.ok := true; EmojiList.emoji := Some entries |})).1
  = build entries ∪ getBasicEmojiMap.
Proof.
  unfold Common.fetchSlackEmojis. intros [->|H]; [done|].
  destruct (emojiCache c); [|done].
  by destruct (Z.ltb_spec (now - emojiCacheTime c) CACHE_DURATION); [lia|].
Qed.

(** A code that is not empty and is no member of [Object.prototype] is
    translated to a string that is not empty: the entry of the map for the
    code, or the code. *)
Lemma convert_total c now res emojiCode :
  emojiCode ≠ [] → emojiCode ∉ Object_prototype →
  ∃ s, (convert c now res emojiCode).1 = Val s ∧ s ≠ []
       ∧ (s = emojiCode ∨ (fetchEmojis c now res).1 !! emojiCode = Some s).
Proof.
  intros Hne Hp. unfold Common.convertSlackEmojiToUnicode.
  destruct (fetchEmojis c now res) as [emojiMap c']. simpl.
  unfold get. destruct (emojiMap !! emojiCode) as [[|u s]|] eqn:E.
  - exists emojiCode. split_and!; [done..|by left].
  - exists (u :: s). split_and!; [done..|by right].
  - rewrite bool_decide_eq_false_2 by done.
    exists emojiCode. split_and!; [done..|by left].
Qed.

End Directory.

(** ** The playlist table *)

Lemma object_lookup_other {A} (props : list (jsstring * A)) key :
  key ∉ props.*1 → object props !! key = None.
Proof.
  unfold object. intros H.
  assert (∀ o : gmap jsstring A,
            foldl (λ o kv, <[kv.1:=kv.2]> o) o props !! key = o !! key) as Hf.
  { induction props as [|[k a] props IH]; intros o; [done|]. simpl in *.
    apply not_elem_of_cons in H as [Hk H]. rewrite IH by done.
    by rewrite lookup_insert_ne. }
  by rewrite Hf, lookup_empty.
Qed.

(** ** What cleaning does to the length and to the code units *)

Lemma index_of_lt c s j : index_of c s = Some j → j < length s.
Proof.
  intros (a & b & -> & <- & _)%index_of_Some. rewrite length_app. simpl. lia.
Qed.

Lemma run_le f s : run f s ≤ length s.
Proof. induction s as [|c s IH]; simpl; [done|]. destruct (f c); lia. Qed.

Lemma match_tag_len p v j : match_tag p v = Some j → j ≤ length v.
Proof.
  unfold match_tag. destruct (starts_with p v) eqn:E; [|done].
  apply starts_with_prefix in E as [v' ->]. rewrite drop_app_length.
  destruct v' as [|c t]; [done|]. destruct (c =? GT)%N; [done|].
  destruct (index_of GT t) as [i|] eqn:Ei; [|done]. simpl. intros [= <-].
  apply index_of_lt in Ei. rewrite length_app. simpl. lia.
Qed.

Lemma match_lit_len p v j : match_lit p v = Some j → j = length p ∧ j ≤ length v.
Proof.
  unfold match_lit. destruct (starts_with p v) eqn:E; [|done].
  apply starts_with_prefix in E. apply prefix_length in E. by intros [= <-].
Qed.

Lemma match_emoji_len v j : match_emoji v = Some j → j ≤ length v.
Proof.
  destruct v as [|c t]; simpl; [done|]. destruct (c =? COLON)%N; [|done].
  destruct (run is_name_char t) as [|n]; [done|].
  destruct (drop (S n) t) as [|d u] eqn:E; [done|].
  destruct (d =? COLON)%N; [|done]. intros [= <-].
  apply (f_equal length) in E. rewrite length_drop in E. simpl in E. lia.
Qed.

Lemma match_space_len v j : match_space v = Some j → 1 ≤ j ≤ length v.
Proof.
  unfold match_space. pose proof (run_le is_space v).
  destruct (run is_space v); [done|]. intros [= <-]. lia.
Qed.

(** A replacement that is no longer than what it replaces does not
    lengthen the text. *)
Lemma length_replace_from m r k s :
  (∀ v j, m v = Some j → j ≤ length v ∧ length r ≤ j) →
  length (replace_from m r k s) ≤ length s - k.
Proof.
  intros Hm. revert k; induction s as [|c s IH]; intros k; simpl; [lia|].
  destruct k as [|k]; [|apply IH].
  destruct (m (c :: s)) as [[|j]|] eqn:E.
  - specialize (IH 0). simpl. lia.
  - destruct (Hm _ _ E) as [H1 H2]. simpl in H1.
    specialize (IH j). rewrite length_app. lia.
  - specialize (IH 0). simpl. lia.
Qed.

Lemma length_replace m r s :
  (∀ v j, m v = Some j → j ≤ length v ∧ length r ≤ j) →
  length (replace m r s) ≤ length s.
Proof. intros H. pose proof (length_replace_from m r 0 s H). unfold replace. lia. Qed.

Lemma length_strip_tag p s : length (replace (match_tag p) [] s) ≤ length s.
Proof.
  apply length_replace. intros v j Hj%match_tag_len. simpl. lia.
Qed.

Lemma length_unescape p r s :
  length r ≤ length p → length (replace (match_lit p) r s) ≤ length s.
Proof.
  intros Hr. apply length_replace. intros v j [-> Hj]%match_lit_len. lia.
Qed.

Lemma length_strip_emoji_codes s : length (strip_emoji_codes s) ≤ length s.
Proof.
  apply length_replace. intros v j Hj%match_emoji_len. simpl. lia.
Qed.

Lemma length_collapse_space s : length (collapse_space s) ≤ length s.
Proof.
  apply length_replace. intros v j Hj%match_space_len. simpl. lia.
Qed.

Lemma length_trim s : length (trim s) ≤ length s.
Proof.
  unfold trim. pose proof (prefix_length _ _ (trim_end_prefix (trim_start s))).
  pose proof (suffix_length _ _ (trim_start_suffix s)). lia.
Qed.

Lemma length_strip_markup s : length (strip_markup s) ≤ length s.
Proof.
  unfold strip_markup, unescape_gt, unescape_lt, unescape_amp,
    strip_angle, strip_links, strip_mentions.
  repeat (etrans; [first [apply length_unescape; simpl; lia
                         |apply length_strip_tag]|]).
  done.
Qed.

Lemma elem_of_unescape x p r s :
  x ∈ replace (match_lit p) r s → x ∈ s ∨ x ∈ r.
Proof. apply elem_of_replace. Qed.

Lemma elem_of_strip_markup x s :
  x ∈ strip_markup s → x ∈ s ∨ x ∈ [AMP; LT; GT].
Proof.
  unfold strip_markup, unescape_gt, unescape_lt, unescape_amp.
  intros [[[H|H]%elem_of_replace|H]%elem_of_replace|H]%elem_of_replace.
  - left. by apply elem_of_strip, elem_of_strip, elem_of_strip in H.
  - right. apply list_elem_of_singleton in H as ->. by left.
  - right. apply list_elem_of_singleton in H as ->. right; by left.
  - right. apply list_elem_of_singleton in H as ->. do 2 right; by left.
Qed.

(** The cleaned text has no white space at either end. *)
Lemma run_trim s : run is_space (trim s) = 0.
Proof. apply run_trim_end, run_trim_start. Qed.

Lemma run_reverse_trim s : run is_space (reverse (trim s)) = 0.
Proof.
  unfold trim, trim_end. rewrite reverse_involutive. apply run_trim_start.
Qed.

Lemma run_0_head s c : run is_space s = 0 → head s = Some c → is_space c = false.
Proof.
  destruct s as [|d s]; simpl; [done|]. intros H [= <-].
  by destruct (is_space d).
Qed.

(** ** [split], [join] and the channel ids *)

Lemma split_nonempty sep s : split sep s ≠ [].
Proof.
  destruct s as [|c s]; simpl; [done|].
  destruct (c =? sep)%N; [done|]. by destruct (split sep s).
Qed.

Lemma join_split sep s : join [sep] (split sep s) = s.
Proof.
  induction s as [|c s IH]; simpl; [done|].
  pose proof (split_nonempty sep s) as Hne.
  destruct (N.eqb_spec c sep) as [->|Hc];
    destruct (split sep s) as [|h [|h' t]]; simpl in *; try done;
    by rewrite <-IH.
Qed.

Lemma length_split sep s : length (split sep s) = S (count_of sep s).
Proof.
  unfold count_of. induction s as [|c s IH]; simpl; [done|].
  pose proof (split_nonempty sep s) as Hne. rewrite filter_cons.
  destruct (N.eqb_spec c sep) as [->|Hc].
  - rewrite decide_True by done. simpl. by rewrite IH.
  - rewrite decide_False by done.
    destruct (split sep s) as [|h t]; [done|]. simpl in *. done.
Qed.

Lemma split_pieces sep s piece : piece ∈ split sep s → sep ∉ piece.
Proof.
  revert piece; induction s as [|c s IH]; intros piece; simpl.
  - intros ->%list_elem_of_singleton. apply not_elem_of_nil.
  - pose proof (split_nonempty sep s) as Hne.
    destruct (N.eqb_spec c sep) as [->|Hc].
    + intros [->|H]%elem_of_cons; [apply not_elem_of_nil|by apply IH].
    + destruct (split sep s) as [|h t]; [done|].
      intros [->|H]%elem_of_cons.
      * rewrite not_elem_of_cons. split; [congruence|]. apply IH. by left.
      * apply IH. by right.
Qed.

(** ** The messages of a channel *)

Lemma filter_fmap_list {A B} (f : A → B) (P : B → Prop)
    `{!∀ b, Decision (P b)} (l : list A) :
  filter P (f <$> l) = f <$> filter (λ a, P (f a)) l.
Proof.
  induction l as [|a l IH]; [done|]. csimpl. rewrite !filter_cons.
  destruct (decide (P (f a))); csimpl; by rewrite IH.
Qed.

Lemma substring_join sep x l : x ∈ l → substring x (join sep l).
Proof.
  induction l as [|y l IH]; [by intros ?%elem_of_nil|].
  intros [->|Hx]%elem_of_cons.
  - destruct l as [|z l]; simpl.
    + exists [], []. by rewrite app_nil_r.
    + by exists [], (sep ++ join sep (z :: l)).
  - destruct (IH Hx) as (pre & post & E). destruct l as [|z l].
    + by apply elem_of_nil in Hx.
    + change (join sep (y :: z :: l)) with (y ++ sep ++ join sep (z :: l)).
      rewrite E. exists (y ++ sep ++ pre), post. by rewrite <-!(assoc_L (++)).
Qed.

Section Channel.
Context (toMessage : World → Slack.Message → MessageWithTimestamp).

Local Abbreviation fetchChannel := (Common.fetchSlackMessagesFromChannel toMessage).

(** The six filters are one filter on the raw messages. *)
Lemma fetchChannel_ok w channelId data :
  History.ok data = true →
  fetchChannel w channelId (Resolved data)
  = Resolved (toMessage w <$>
      filter (λ m, 3 < length (text (toMessage w m)))
        (filter substantive (default [] (History.messages data)))).
Proof.
  intros Hok. unfold Common.fetchSlackMessagesFromChannel. rewrite Hok.
  cbn [negb]. rewrite filter_fmap_list. do 3 f_equal.
  rewrite !list_filter_filter. apply list_filter_iff.
  intros m. unfold substantive. tauto.
Qed.

Lemma fetchChannel_kept w channelId data :
  History.ok data = true →
  ∃ kept,
    fetchChannel w channelId (Resolved data) = Resolved (toMessage w <$> kept)
    ∧ kept `sublist_of` default [] (History.messages data)
    ∧ ∀ m, m ∈ kept ↔ m ∈ default [] (History.messages data) ∧ substantive m
                      ∧ 3 < length (text (toMessage w m)).
Proof.
  intros Hok. eexists. split; [by apply fetchChannel_ok|]. split.
  - etrans; apply sublist_filter.
  - intros m. rewrite !list_elem_of_filter. tauto.
Qed.

Lemma fetchChannel_resolved w channelId res ms :
  fetchChannel w channelId res = Resolved ms →
  ∃ data, res = Resolved data ∧ History.ok data = true.
Proof.
  unfold Common.fetchSlackMessagesFromChannel.
  destruct res as [data|e]; [|done].
  destruct (History.ok data) eqn:E; [|done]. intros _. by exists data.
Qed.

End Channel.

(** ** The sort *)

Lemma newest_first_nil : newest_first [].
Proof. by intros i j a b _ Hi. Qed.

Lemma newest_first_cons a l :
  (∀ b, b ∈ l → (timestamp b <= timestamp a)%Q) → newest_first l →
  newest_first (a :: l).
Proof.
  intros Ha Hl [|i] [|j] x y Hij; simpl; try lia.
  - intros [= <-] Hy. apply Ha. by eapply list_elem_of_lookup_2.
  - intros Hx Hy. apply (Hl i j); [lia|done..].
Qed.

Lemma newest_first_inv a l :
  newest_first (a :: l) →
  (∀ b, b ∈ l → (timestamp b <= timestamp a)%Q) ∧ newest_first l.
Proof.
  intros H; split.
  - intros b [j Hj]%list_elem_of_lookup_1. by apply (H 0 (S j) a b); [lia|..].
  - intros i j x y Hij Hx Hy. by apply (H (S i) (S j)); [lia|..].
Qed.

Lemma insert_newest_first_perm m l : insert_newest_first m l ≡ₚ m :: l.
Proof.
  induction l as [|x l IH]; simpl; [done|].
  destruct (Qgt_bool _ _); [|done]. rewrite IH. apply Permutation_swap.
Qed.

Lemma sort_newest_first_cons m l :
  sort_newest_first (m :: l) = insert_newest_first m (sort_newest_first l).
Proof. done. Qed.

Lemma sort_newest_first_perm l : sort_newest_first l ≡ₚ l.
Proof.
  induction l as [|m l IH]; [done|].
  rewrite sort_newest_first_cons, insert_newest_first_perm. by f_equiv.
Qed.

Lemma insert_newest_first_sorted m l :
  newest_first l → newest_first (insert_newest_first m l).
Proof.
  induction l as [|x l IH]; intros H; simpl.
  - apply newest_first_cons; [|done]. by intros b ?%elem_of_nil.
  - destruct (newest_first_inv _ _ H) as [Hx Hl].
    destruct (Qgt_bool (timestamp x) (timestamp m)) eqn:E.
    + apply Qgt_bool_iff in E. apply newest_first_cons; [|by apply IH].
      intros b Hb. rewrite insert_newest_first_perm in Hb.
      apply elem_of_cons in Hb as [->|Hb]; [by apply Qlt_le_weak|by apply Hx].
    + apply Qgt_bool_false in E. apply newest_first_cons; [|done].
      intros b [->|Hb]%elem_of_cons; [done|].
      eapply Qle_trans; [by apply Hx|done].
Qed.

Lemma sort_newest_first_sorted l : newest_first (sort_newest_first l).
Proof.
  induction l as [|m l IH]; [apply newest_first_nil|].
  rewrite sort_newest_first_cons. by apply insert_newest_first_sorted.
Qed.

Lemma insert_newest_first_stable t m l :
  filter (λ x, Qeq_bool (timestamp x) t = true) (insert_newest_first m l)
  = filter (λ x, Qeq_bool (timestamp x) t = true) (m :: l).
Proof.
  induction l as [|x l IH]; simpl; [done|].
  destruct (Qgt_bool (timestamp x) (timestamp m)) eqn:E; [|done].
  rewrite filter_cons, IH, !filter_cons.
  destruct (decide (Qeq_bool (timestamp x) t = true)) as [Hx|Hx],
    (decide (Qeq_bool (timestamp m) t = true)) as [Hm|Hm]; try done.
  exfalso. apply Qgt_bool_iff in E. apply Qeq_bool_iff in Hx, Hm.
  apply (Qlt_not_le _ _ E). rewrite Hx, Hm. apply Qle_refl.
Qed.

Lemma sort_newest_first_stable t l :
  filter (λ x, Qeq_bool (timestamp x) t = true) (sort_newest_first l)
  = filter (λ x, Qeq_bool (timestamp x) t = true) l.
Proof.
  induction l as [|m l IH]; [done|].
  rewrite sort_newest_first_cons, insert_newest_first_stable.
  by rewrite !filter_cons, IH.
Qed.

(** ** [Promise.all] over the channels *)

Lemma Promise_all_cons_resolved {A} t (a : A) ps :
  Promise_all ((t, Resolved a) :: ps)
  = match Promise_all ps with
    | Resolved l => Resolved (a :: l)
    | Rejected e => Rejected e
    end.
Proof. unfold Promise_all; simpl. by destruct (first_rejection ps) as [[??]|]. Qed.

Lemma Promise_all_cons_rejected {A} t e (ps : list (nat * Settled A)) :
  ∃ e', Promise_all ((t, Rejected e) :: ps) = Rejected e'.
Proof.
  unfold Promise_all; simpl.
  destruct (first_rejection ps) as [[t' e']|]; [destruct (t' <? t)|];
    by eexists.
Qed.

(** [Promise.all] resolves when every promise resolves, with the values in
    the order of the promises; the settle times play no part in that. *)
Lemma Promise_all_resolved {A} (ps : list (nat * Settled A)) vs :
  Promise_all ps = Resolved vs ↔ ps.*2 = Resolved <$> vs.
Proof.
  revert vs; induction ps as [|[t [a|e]] ps IH]; intros vs.
  - unfold Promise_all; simpl. split; [by intros [= <-]|by destruct vs].
  - rewrite Promise_all_cons_resolved. csimpl.
    destruct (Promise_all ps) as [l|e] eqn:E.
    + split.
      * intros [= <-]. csimpl. f_equal. by apply IH.
      * destruct vs as [|v vs]; csimpl; [done|]. intros [= <- H].
        apply IH in H. congruence.
    + split; [done|]. destruct vs as [|v vs]; csimpl; [done|].
      intros [= <- H]. by apply IH in H.
  - destruct (Promise_all_cons_rejected t e ps) as [e' ->].
    split; [done|]. by destruct vs.
Qed.

Lemma all_resolved {A} (rs : list (Settled A)) :
  (∀ i r, rs !! i = Some r → ∃ a, r = Resolved a) →
  ∃ vs, rs = Resolved <$> vs.
Proof.
  induction rs as [|r rs IH]; intros H; [by exists []|].
  destruct (H 0 r eq_refl) as [a ->].
  destruct IH as [vs ->]; [intros i r' Hi; by apply (H (S i))|].
  by exists (a :: vs).
Qed.

Lemma elem_of_concat {A} (x : A) (ls : list (list A)) :
  x ∈ concat ls ↔ ∃ l, l ∈ ls ∧ x ∈ l.
Proof.
  induction ls as [|l ls IH]; simpl.
  - split; [by intros ?%elem_of_nil|by intros (l & ?%elem_of_nil & _)].
  - rewrite elem_of_app, IH. split.
    + intros [H|(l' & H1 & H2)]; [exists l; split; [by left|done]|].
      exists l'. split; [by right|done].
    + intros (l' & [->|H1]%elem_of_cons & H2); [by left|right; by exists l'].
Qed.

Lemma recency_weight_bounds recent_age middle_age now m :
  1 ≤ recency_weight recent_age middle_age now m ≤ 3.
Proof. unfold recency_weight. repeat destruct (Qgt_bool _ _); lia. Qed.

Lemma sum_list_bounds {A} (f : A → nat) (l : list A) :
  (∀ a, 1 ≤ f a ≤ 3) → length l ≤ sum_list (f <$> l) ≤ 3 * length l.
Proof.
  intros Hf. induction l as [|a l IH]; csimpl; [lia|]. specialize (Hf a). lia.
Qed.

Lemma sum_list_fmap_perm {A} (f : A → nat) (l l' : list A) :
  l ≡ₚ l' → sum_list (f <$> l) = sum_list (f <$> l').
Proof. induction 1; csimpl; lia. Qed.

Lemma sum_list_ones {A} (f : A → nat) (l : list A) :
  (∀ a, 1 ≤ f a) →
  sum_list (f <$> l) = length l ↔ ∀ a, a ∈ l → f a = 1.
Proof.
  intros Hf. induction l as [|a l IH]; csimpl.
  - split; [by intros _ a ?%elem_of_nil|done].
  - assert (length l ≤ sum_list (f <$> l)) as Hl.
    { clear IH. induction l as [|b l IH]; csimpl; [lia|].
      specialize (Hf b). lia. }
    specialize (Hf a). split.
    + intros H b [->|Hb]%elem_of_cons; [lia|]. apply IH; [lia|done].
    + intros H. rewrite (H a) by (by left).
      f_equal. apply IH. intros b Hb. apply H. by right.
Qed.

Section Gather.
Context (toMessage : World → Slack.Message → MessageWithTimestamp).
Context (recent_age middle_age : Q).
Hypothesis toMessage_reschedule :
  ∀ w settles, toMessage (reschedule w settles) = toMessage w.

Local Abbreviation fetchChannel := (Common.fetchSlackMessagesFromChannel toMessage).
Local Abbreviation fetchAll :=
  (Common.fetchSlackFromMultipleChannels toMessage recent_age middle_age).

Lemma channel_fetches_results w :
  (Common.channel_fetches toMessage w).*2
  = imap (λ i channelId,
            fetchChannel w channelId (conversations_history w i channelId))
         (channelIds w).
Proof. unfold Common.channel_fetches. by rewrite fmap_imap. Qed.

Lemma channel_results_lookup w i r :
  (Common.channel_fetches toMessage w).*2 !! i = Some r ↔
  ∃ channelId, channelIds w !! i = Some channelId
    ∧ r = fetchChannel w channelId (conversations_history w i channelId).
Proof.
  rewrite channel_fetches_results, list_lookup_imap.
  destruct (channelIds w !! i) as [channelId|]; simpl.
  - split; [intros [= <-]; by eexists|]. by intros (? & [= <-] & ->).
  - split; [done|]. by intros (? & ? & _).
Qed.

(** The values that [Promise.all] resolves with are the results of the
    channels, one for each channel id. *)
Lemma channel_results_values w all :
  channel_results fetchChannel w all ↔
  (Common.channel_fetches toMessage w).*2 = Resolved <$> all.
Proof.
  split.
  - intros [Hlen H]. apply list_eq. intros i.
    rewrite channel_fetches_results, list_lookup_imap, list_lookup_fmap.
    destruct (channelIds w !! i) as [channelId|] eqn:Hi; simpl.
    + destruct (H i channelId Hi) as (ms & -> & ->). done.
    + apply lookup_ge_None in Hi. rewrite <-Hlen in Hi.
      apply lookup_ge_None in Hi. by rewrite Hi.
  - intros H. split.
    + apply (f_equal length) in H.
      rewrite channel_fetches_results, length_imap, length_fmap in H. done.
    + intros i channelId Hi.
      assert ((Common.channel_fetches toMessage w).*2 !! i
              = Some (fetchChannel w channelId
                        (conversations_history w i channelId))) as Hl
        by (apply channel_results_lookup; by exists channelId).
      rewrite H, list_lookup_fmap in Hl.
      destruct (all !! i) as [ms|]; [|done]. injection Hl as Hl.
      by exists ms.
Qed.

Lemma fetchAll_of_values w ids all :
  SLACK_CHANNEL_IDS w = Some ids →
  (Common.channel_fetches toMessage w).*2 = Resolved <$> all →
  fetchAll w
  = Resolved (Common.weightedMessages recent_age middle_age (now w)
                (sort_newest_first (concat all))).
Proof.
  intros Hids H%Promise_all_resolved.
  unfold Common.fetchSlackFromMultipleChannels. by rewrite Hids, H.
Qed.

Lemma fetchAll_values w msgs :
  fetchAll w = Resolved msgs →
  ∃ ids all,
    SLACK_CHANNEL_IDS w = Some ids
    ∧ (Common.channel_fetches toMessage w).*2 = Resolved <$> all
    ∧ msgs = Common.weightedMessages recent_age middle_age (now w)
               (sort_newest_first (concat all)).
Proof.
  unfold Common.fetchSlackFromMultipleChannels.
  destruct (SLACK_CHANNEL_IDS w) as [ids|]; [|done].
  destruct (Promise_all _) as [all|e] eqn:E; [|done].
  intros [= <-]. exists ids, all. split_and!; [done| |done].
  by apply Promise_all_resolved.
Qed.

(** Without the variable the fetch throws before any call is made. *)
Lemma fetchAll_unset w :
  SLACK_CHANNEL_IDS w = None → fetchAll w = Rejected (split_of_undefined w).
Proof. unfold Common.fetchSlackFromMultipleChannels. by intros ->. Qed.

(** The fetch of all channels resolves when the variable is set and each
    of the channels answers [ok]. *)
Lemma fetchAll_resolves_iff w :
  (∃ msgs, fetchAll w = Resolved msgs) ↔
  (∃ ids, SLACK_CHANNEL_IDS w = Some ids)
  ∧ ∀ i channelId, channelIds w !! i = Some channelId →
      ∃ data, conversations_history w i channelId = Resolved data
              ∧ History.ok data = true.
Proof.
  split.
  - intros [msgs (ids & all & Hids & Hall & _)%fetchAll_values].
    split; [by exists ids|]. intros i channelId Hi.
    apply channel_results_values in Hall as [_ Hall].
    destruct (Hall i channelId Hi) as (ms & _ & Hms).
    by apply fetchChannel_resolved in Hms.
  - intros [[ids Hids] H].
    destruct (all_resolved (Common.channel_fetches toMessage w).*2)
      as [all Hall].
    + intros i r (channelId & Hi & ->)%channel_results_lookup.
      destruct (H i channelId Hi) as (data & -> & Hok).
      eexists. by apply fetchChannel_ok.
    + eexists. by apply (fetchAll_of_values w ids).
Qed.

Lemma elem_of_weightedMessages now flat t :
  t ∈ Common.weightedMessages recent_age middle_age now flat
  ↔ ∃ m, m ∈ flat ∧ text m = t.
Proof.
  rewrite weightedMessages_expansion, list_elem_of_join. split.
  - intros (l & Ht & (m & -> & Hm)%list_elem_of_fmap).
    apply elem_of_replicate in Ht as [-> _]. by exists m.
  - intros (m & Hm & <-).
    exists (replicate (recency_weight recent_age middle_age now m) (text m)).
    split.
    + apply elem_of_replicate. split; [done|].
      pose proof (recency_weight_bounds recent_age middle_age now m). lia.
    + by apply (list_elem_of_fmap_2
        (λ m, replicate (recency_weight recent_age middle_age now m) (text m))).
Qed.

(** The length of the weighted sequence, in terms of the messages that
    the channels have contributed. *)
Lemma length_weighted_sorted now l :
  length (Common.weightedMessages recent_age middle_age now
            (sort_newest_first l))
  = sum_list (recency_weight recent_age middle_age now <$> l)
  ∧ length l
    ≤ length (Common.weightedMessages recent_age middle_age now
                (sort_newest_first l))
    ≤ 3 * length l
  ∧ (length (Common.weightedMessages recent_age middle_age now
               (sort_newest_first l)) = length l ↔
     ∀ m, m ∈ l → recency_weight recent_age middle_age now m = 1).
Proof.
  rewrite length_weightedMessages.
  rewrite (sum_list_fmap_perm _ _ l (sort_newest_first_perm l)).
  split_and!; [done|..].
  - apply sum_list_bounds. intros m. apply recency_weight_bounds.
  - apply sum_list_bounds. intros m. apply recency_weight_bounds.
  - apply sum_list_ones. intros m.
    pose proof (recency_weight_bounds recent_age middle_age now m). lia.
Qed.

(** What the fetch of all channels resolves with. *)
Lemma fetchAll_content w msgs :
  fetchAll w = Resolved msgs →
  ∃ all,
    channel_results fetchChannel w all
    ∧ msgs = Common.weightedMessages recent_age middle_age (now w)
               (sort_newest_first (concat all)).
Proof.
  intros (ids & all & _ & Hall & ->)%fetchAll_values.
  exists all. split; [|done]. by apply channel_results_values.
Qed.

(** ... and how that is made of the messages of the channels. *)
Lemma fetchAll_described w msgs :
  fetchAll w = Resolved msgs →
  ∃ all,
    channel_results fetchChannel w all
    ∧ msgs = Common.weightedMessages recent_age middle_age (now w)
               (sort_newest_first (concat all))
    ∧ sort_newest_first (concat all) ≡ₚ concat all
    ∧ newest_first (sort_newest_first (concat all))
    ∧ length (concat all) ≤ length msgs ≤ 3 * length (concat all)
    ∧ ∀ t, t ∈ msgs ↔ ∃ m, m ∈ concat all ∧ text m = t.
Proof.
  intros (all & Hall & ->)%fetchAll_content. exists all.
  destruct (length_weighted_sorted (now w) (concat all)) as (_ & [H1 H2] & _).
  split_and!; try done.
  - apply sort_newest_first_perm.
  - apply sort_newest_first_sorted.
  - intros t. rewrite elem_of_weightedMessages.
    by setoid_rewrite (sort_newest_first_perm (concat all)).
Qed.

Lemma channel_fetches_reschedule w settles :
  (Common.channel_fetches toMessage (reschedule w settles)).*2
  = (Common.channel_fetches toMessage w).*2.
Proof.
  rewrite !channel_fetches_results. apply imap_ext. intros i channelId _.
  unfold Common.fetchSlackMessagesFromChannel.
  by rewrite toMessage_reschedule.
Qed.

Lemma fetchAll_reschedule w settles msgs :
  fetchAll (reschedule w settles) = Resolved msgs ↔ fetchAll w = Resolved msgs.
Proof.
  split.
  - intros (ids & all & Hids & Hall & ->)%fetchAll_values.
    rewrite channel_fetches_reschedule in Hall.
    by rewrite (fetchAll_of_values w ids all).
  - intros (ids & all & Hids & Hall & ->)%fetchAll_values.
    rewrite <-(channel_fetches_reschedule w settles) in Hall.
    by rewrite (fetchAll_of_values (reschedule w settles) ids all).
Qed.

End Gather.

Section Answer.
Context (getBasicEmojiMap : gmap jsstring jsstring).
Context (toMessage : World → Slack.Message → MessageWithTimestamp).
Context (recent_age middle_age : Q).
Context (parse_failure : jsstring → JsError → JsError).
Context (playlistsForMood : jsstring → ref Playlist).
Hypothesis toMessage_reschedule :
  ∀ w settles, toMessage (reschedule w settles) = toMessage w.

Local Abbreviation fetchAll :=
  (Common.fetchSlackFromMultipleChannels toMessage recent_age middle_age).
Local Abbreviation analyze :=
  (Common.analyzeWithOpenAI getBasicEmojiMap parse_failure).
Local Abbreviation handler :=
  (Common.GET getBasicEmojiMap toMessage recent_age middle_age parse_failure
     playlistsForMood).

Lemma GET_cases w :
  (∃ data, handler w = {| status := 200; body := Payload data |})
  ∨ (∃ reason, handler w = {| status := 500; body := Failure reason |}).
Proof.
  unfold Common.GET. destruct (fetchAll w) as [msgs|e]; [|right; by eexists].
  destruct (analyze w msgs) as [mood|e]; [left|right]; by eexists.
Qed.

Lemma GET_reschedule w settles :
  status (handler (reschedule w settles)) = status (handler w)
  ∧ (status (handler w) = 200%N → handler (reschedule w settles) = handler w).
Proof.
  unfold Common.GET. destruct (fetchAll w) as [msgs|e] eqn:E.
  - apply (fetchAll_reschedule toMessage recent_age middle_age
             toMessage_reschedule w settles) in E. rewrite E.
    change (analyze (reschedule w settles) msgs) with (analyze w msgs).
    by destruct (analyze w msgs).
  - destruct (fetchAll (reschedule w settles)) as [msgs|e'] eqn:E'; [|done].
    apply (fetchAll_reschedule toMessage recent_age middle_age
             toMessage_reschedule) in E'. congruence.
Qed.

Lemma analyze_no_content w msgs data :
  chat_completions w msgs = Resolved data → OpenAI.error data = None →
  truthy (OpenAI.content data) = false →
  analyze w msgs = Rejected (Error (js "OpenAI returned no content")).
Proof.
  intros Hc He Hn. unfold Common.analyzeWithOpenAI. by rewrite Hc, He, Hn.
Qed.

Lemma analyze_parsed w msgs data content parsed :
  chat_completions w msgs = Resolved data → OpenAI.error data = None →
  OpenAI.content data = Some content → content ≠ [] →
  JSON_parse w content = Resolved (Analysis parsed) →
  ∃ mood,
    analyze w msgs = Resolved mood
    ∧ mood_score mood = mood_score parsed
    ∧ mood_label mood = mood_label parsed
    ∧ summary mood = summary parsed
    ∧ positive_signals mood = positive_signals parsed
    ∧ negative_signals mood = negative_signals parsed
    ∧ length (top_emojis mood) = length (top_emojis parsed)
    ∧ ∀ i emoji, top_emojis parsed !! i = Some emoji →
        top_emojis mood !! i
        = Some (Common.convertSlackEmojiToUnicode getBasicEmojiMap (cache w)
                  (now_ms w) (emoji_list w i) emoji).1.
Proof.
  intros Hc He Hco Hne Hp. unfold Common.analyzeWithOpenAI.
  rewrite Hc, He, Hco. destruct content as [|c content]; [done|].
  cbn [truthy negb interpolate]. rewrite Hp. eexists. split; [done|].
  cbn [mood_score mood_label summary positive_signals negative_signals
       top_emojis].
  split_and!; try done.
  - by rewrite length_imap.
  - intros i emoji Hi. by rewrite list_lookup_imap, Hi.
Qed.

Lemma analyze_resolved w msgs mood :
  analyze w msgs = Resolved mood →
  ∃ data content parsed,
    chat_completions w msgs = Resolved data ∧ OpenAI.error data = None
    ∧ OpenAI.content data = Some content ∧ content ≠ []
    ∧ JSON_parse w content = Resolved (Analysis parsed).
Proof.
  unfold Common.analyzeWithOpenAI.
  destruct (chat_completions w msgs) as [data|e] eqn:Ec; [|done].
  destruct (OpenAI.error data) eqn:Ee; [done|].
  destruct (OpenAI.content data) as [[|c content]|] eqn:Eco; simpl; try done.
  destruct (JSON_parse w (c :: content)) as [[parsed|thrown]|e] eqn:Ep;
    try done.
  intros _. by exists data, (c :: content), parsed.
Qed.

(** A value without an array of emojis: [parsed.top_emojis.map] throws. *)
Lemma analyze_no_emojis w msgs data content thrown :
  chat_completions w msgs = Resolved data → OpenAI.error data = None →
  OpenAI.content data = Some content → content ≠ [] →
  JSON_parse w content = Resolved (NoEmojis thrown) →
  analyze w msgs = Rejected (parse_failure content thrown).
Proof.
  unfold Common.analyzeWithOpenAI. intros -> -> -> Hne. simpl.
  destruct content as [|c content]; [done|]. simpl. by intros ->.
Qed.

Lemma GET_200_iff w :
  status (handler w) = 200%N ↔
  ∃ msgs data content parsed,
    fetchAll w = Resolved msgs
    ∧ chat_completions w msgs = Resolved data ∧ OpenAI.error data = None
    ∧ OpenAI.content data = Some content ∧ content ≠ []
    ∧ JSON_parse w content = Resolved (Analysis parsed).
Proof.
  unfold Common.GET. split.
  - destruct (fetchAll w) as [msgs|e] eqn:Ef; [|done].
    destruct (analyze w msgs) as [mood|e] eqn:Ea; [|done]. intros _.
    apply analyze_resolved in Ea as (data & content & parsed & H).
    by exists msgs, data, content, parsed.
  - intros (msgs & data & content & parsed & -> & Hc & He & Hco & Hne & Hp).
    by destruct (analyze_parsed w msgs data content parsed Hc He Hco Hne Hp)
      as (mood & -> & _).
Qed.

(** The sample size of a successful answer, in terms of the messages that
    the channels have contributed. *)
Lemma GET_sample_size w data :
  body (handler w) = Payload data →
  ∃ all,
    channel_results (Common.fetchSlackMessagesFromChannel toMessage) w all
    ∧ fetchAll w
      = Resolved (Common.weightedMessages recent_age middle_age (now w)
                    (sort_newest_first (concat all)))
    ∧ analyze w (Common.weightedMessages recent_age middle_age (now w)
                   (sort_newest_first (concat all)))
      = Resolved (mood data)
    ∧ sample_size data
      = length (Common.weightedMessages recent_age middle_age (now w)
                  (sort_newest_first (concat all)))
    ∧ sample_size data
      = sum_list (recency_weight recent_age middle_age (now w) <$> concat all)
    ∧ length (concat all) ≤ sample_size data ≤ 3 * length (concat all)
    ∧ (sample_size data = length (concat all) ↔
       ∀ m, m ∈ concat all →
         recency_weight recent_age middle_age (now w) m = 1).
Proof.
  intros (msgs & m & Hf & Ha & _ & ->)%GET_payload.
  destruct (fetchAll_content toMessage recent_age middle_age w msgs Hf)
    as (all & Hall & ->).
  exists all. cbn [sample_size mood].
  destruct (length_weighted_sorted recent_age middle_age (now w) (concat all))
    as (H1 & [H2 H2'] & H3).
  by split_and!.
Qed.

End Answer.

(** ** The emoji directory *)

Section Built.
Context (getBasicEmojiMap : gmap jsstring jsstring).

Local Abbreviation entry := (Common.emoji_entry getBasicEmojiMap).
Local Abbreviation build := (Common.buildEmojiMap getBasicEmojiMap).
Local Abbreviation unicode := (Common.getUnicodeForEmojiName getBasicEmojiMap).
Local Abbreviation fetchEmojis := (Common.fetchSlackEmojis getBasicEmojiMap).
Local Abbreviation convert := (Common.convertSlackEmojiToUnicode getBasicEmojiMap).

Lemma emoji_code_nonempty name : emoji_code name ≠ [].
Proof. done. Qed.

(** What a turn of the loop writes is not empty. *)
Lemma emoji_entry_lookup emojiMap name value key s :
  entry emojiMap (name, value) !! key = Some s →
  emojiMap !! key = Some s
  ∨ (∃ v, value = EmojiList.Str v ∧ key = emoji_code name ∧ s ≠ []).
Proof.
  unfold Common.emoji_entry. cbn [fst snd].
  destruct value as [v|]; [|by left].
  destruct (starts_with (js "alias:") v);
    [|destruct (starts_with (js "http") v)];
    (rewrite lookup_insert_Some; intros [[<- <-]|[_ H]]; [right|by left];
     exists v; split_and!; try done).
  - destruct (emojiMap !! _) as [[|??]|]; try done;
      apply getUnicodeForEmojiName_nonempty.
  - apply getUnicodeForEmojiName_nonempty.
Qed.

Lemma emoji_entry_own emojiMap name v :
  is_Some (entry emojiMap (name, EmojiList.Str v) !! emoji_code name).
Proof.
  unfold Common.emoji_entry. cbn [fst snd].
  destruct (starts_with (js "alias:") v);
    [|destruct (starts_with (js "http") v)];
    rewrite lookup_insert_eq; by eexists.
Qed.

Lemma emoji_entry_keeps emojiMap e key :
  is_Some (emojiMap !! key) → is_Some (entry emojiMap e !! key).
Proof.
  intros H. unfold Common.emoji_entry. destruct e as [name [v|]]; [|done].
  cbn [fst snd].
  destruct (starts_with (js "alias:") v);
    [|destruct (starts_with (js "http") v)];
    rewrite lookup_insert_is_Some; destruct (decide (emoji_code name = key));
    auto.
Qed.

Lemma foldl_emoji_entry_keeps entries emojiMap key :
  is_Some (emojiMap !! key) → is_Some (foldl entry emojiMap entries !! key).
Proof.
  revert emojiMap; induction entries as [|e entries IH]; intros m H; [done|].
  simpl. by apply IH, emoji_entry_keeps.
Qed.

Lemma foldl_emoji_entry_lookup entries emojiMap key s :
  foldl entry emojiMap entries !! key = Some s →
  emojiMap !! key = Some s
  ∨ (∃ name v, (name, EmojiList.Str v) ∈ entries ∧ key = emoji_code name
               ∧ s ≠ []).
Proof.
  revert emojiMap; induction entries as [|[n val] entries IH]; intros m;
    [by left|].
  simpl. intros [H|(name & v & Hin & -> & Hs)]%IH.
  - apply emoji_entry_lookup in H as [H|(v & -> & -> & Hs)]; [by left|right].
    exists n, v. split_and!; try done. by left.
  - right. exists name, v. split_and!; try done. by right.
Qed.

Lemma buildEmojiMap_lookup entries key s :
  build entries !! key = Some s →
  ∃ name v, (name, EmojiList.Str v) ∈ entries ∧ key = emoji_code name ∧ s ≠ [].
Proof. by intros [?|?]%foldl_emoji_entry_lookup. Qed.

Lemma buildEmojiMap_has entries name v :
  (name, EmojiList.Str v) ∈ entries →
  is_Some (build entries !! emoji_code name).
Proof.
  intros (pre & post & ->)%list_elem_of_split. unfold Common.buildEmojiMap.
  rewrite foldl_app. cbn [foldl].
  apply foldl_emoji_entry_keeps, emoji_entry_own.
Qed.

Lemma NoDup_names_later (entries : list (jsstring * EmojiList.Value)) i j name v :
  NoDup entries.*1 → entries !! j = Some (name, v) → j < i →
  ∀ v', (name, v') ∉ drop i entries.
Proof.
  intros Hnd Hj Hji v' [k Hk]%list_elem_of_lookup_1.
  rewrite lookup_drop in Hk.
  assert (entries.*1 !! j = Some name) as H1
    by (by rewrite list_lookup_fmap, Hj).
  assert (entries.*1 !! (i + k) = Some name) as H2
    by (by rewrite list_lookup_fmap, Hk).
  pose proof (NoDup_lookup _ _ _ _ Hnd H1 H2). lia.
Qed.

(** The entry of a name is decided in the turn of its own entry. *)
Lemma buildEmojiMap_at entries i name v :
  NoDup entries.*1 → entries !! i = Some (name, EmojiList.Str v) →
  build entries !! emoji_code name
  = entry (build (take i entries)) (name, EmojiList.Str v) !! emoji_code name.
Proof.
  intros Hnd Hi. unfold Common.buildEmojiMap.
  rewrite <-(take_drop_middle entries i _ Hi) at 1.
  rewrite foldl_app. cbn [foldl]. apply foldl_emoji_entry_other.
  intros s. by apply (NoDup_names_later entries (S i) i name
                        (EmojiList.Str v)); [| |lia].
Qed.

Lemma buildEmojiMap_before entries i j target v :
  NoDup entries.*1 → entries !! j = Some (target, EmojiList.Str v) → j < i →
  build (take i entries) !! emoji_code target
  = build entries !! emoji_code target.
Proof.
  intros Hnd Hj Hji. unfold Common.buildEmojiMap.
  rewrite <-(take_drop i entries) at 2. rewrite foldl_app.
  symmetry. apply foldl_emoji_entry_other.
  intros s. by apply (NoDup_names_later entries i j target (EmojiList.Str v)).
Qed.

Lemma buildEmojiMap_unlisted entries target :
  (∀ v, (target, EmojiList.Str v) ∉ entries) →
  build entries !! emoji_code target = None.
Proof.
  intros H. unfold Common.buildEmojiMap. by rewrite foldl_emoji_entry_other.
Qed.

Lemma buildEmojiMap_alias_listed entries i j name target v :
  NoDup entries.*1 →
  entries !! i = Some (name, EmojiList.Str (js "alias:" ++ target)) →
  entries !! j = Some (target, EmojiList.Str v) → j < i →
  build entries !! emoji_code name = build entries !! emoji_code target.
Proof.
  intros Hnd Hi Hj Hji. rewrite (buildEmojiMap_at entries i name _ Hnd Hi).
  unfold Common.emoji_entry. cbn [fst snd].
  assert (starts_with (js "alias:") (js "alias:" ++ target) = true) as ->
    by done.
  rewrite replace_first_alias, lookup_insert_eq.
  rewrite (buildEmojiMap_before entries i j target v Hnd Hj Hji).
  destruct (buildEmojiMap_has entries target v) as [s Hs];
    [by eapply list_elem_of_lookup_2|].
  rewrite Hs. apply buildEmojiMap_lookup in Hs as (_ & _ & _ & _ & Hne).
  by destruct s.
Qed.

Lemma buildEmojiMap_alias_unlisted entries i name target :
  NoDup entries.*1 →
  entries !! i = Some (name, EmojiList.Str (js "alias:" ++ target)) →
  (∀ v, (target, EmojiList.Str v) ∉ entries) →
  build entries !! emoji_code name = Some (unicode target).
Proof.
  intros Hnd Hi Hun. rewrite (buildEmojiMap_at entries i name _ Hnd Hi).
  unfold Common.emoji_entry. cbn [fst snd].
  assert (starts_with (js "alias:") (js "alias:" ++ target) = true) as ->
    by done.
  rewrite replace_first_alias, lookup_insert_eq.
  rewrite buildEmojiMap_unlisted; [done|].
  intros v' Hin. apply (Hun v').
  rewrite <-(take_drop i entries). apply elem_of_app. by left.
Qed.

Lemma buildEmojiMap_plain entries name v :
  NoDup entries.*1 → (name, EmojiList.Str v) ∈ entries →
  starts_with (js "alias:") v = false →
  build entries !! emoji_code name
  = Some (if starts_with (js "http") v then emoji_code name else unicode name).
Proof.
  intros Hnd [i Hi]%list_elem_of_lookup_1 Ha.
  rewrite (buildEmojiMap_at entries i name _ Hnd Hi).
  unfold Common.emoji_entry. cbn [fst snd]. rewrite Ha.
  destruct (starts_with (js "http") v); by rewrite lookup_insert_eq.
Qed.

Lemma fetchSlackEmojis_pair c now entries :
  cache_expired c now →
  fetchEmojis c now
    (Resolved {| EmojiList.ok := true; EmojiList.emoji := Some entries |})
  = (build entries ∪ getBasicEmojiMap,
     {| emojiCache := Some (build entries ∪ getBasicEmojiMap);
        emojiCacheTime := now |}).
Proof.
  unfold Common.fetchSlackEmojis. intros [->|H]; [done|].
  destruct (emojiCache c); [|done].
  destruct (Z.ltb_spec (now - emojiCacheTime c) CACHE_DURATION); [lia|done].
Qed.

Lemma fetchSlackEmojis_fresh c now res cached :
  emojiCache c = Some cached → (now - emojiCacheTime c < CACHE_DURATION)%Z →
  fetchEmojis c now res = (cached, c).
Proof.
  intros Hc Ht. unfold Common.fetchSlackEmojis. rewrite Hc.
  by destruct (Z.ltb_spec (now - emojiCacheTime c) CACHE_DURATION); [|lia].
Qed.

Lemma fetchSlackEmojis_failed c now res :
  cache_expired c now →
  (∀ entries,
     res ≠ Resolved {| EmojiList.ok := true; EmojiList.emoji := Some entries |}) →
  fetchEmojis c now res = (getBasicEmojiMap, c).
Proof.
  intros Hc Hres. unfold Common.fetchSlackEmojis.
  assert (match res with
          | Resolved {| EmojiList.ok := true; EmojiList.emoji := Some entries |} =>
              (build entries ∪ getBasicEmojiMap,
               {| emojiCache := Some (build entries ∪ getBasicEmojiMap);
                  emojiCacheTime := now |})
          | _ => (getBasicEmojiMap, c)
          end = (getBasicEmojiMap, c)) as E.
  { destruct res as [[[] [entries|]]|e]; try done. by destruct (Hres entries). }
  destruct Hc as [->|H]; [done|].
  destruct (emojiCache c); [|done].
  destruct (Z.ltb_spec (now - emojiCacheTime c) CACHE_DURATION); [lia|done].
Qed.

Lemma no_empty_glyph_union m1 m2 :
  no_empty_glyph m1 → no_empty_glyph m2 → no_empty_glyph (m1 ∪ m2).
Proof.
  intros H1 H2 code s [H|[_ H]]%lookup_union_Some_raw;
    [by apply (H1 code)|by apply (H2 code)].
Qed.

Lemma no_empty_glyph_build entries : no_empty_glyph (build entries).
Proof. by intros code s (_ & _ & _ & _ & H)%buildEmojiMap_lookup. Qed.

Lemma fetchSlackEmojis_no_empty c now res :
  no_empty_glyph getBasicEmojiMap →
  (∀ cached, emojiCache c = Some cached → no_empty_glyph cached) →
  no_empty_glyph (fetchEmojis c now res).1
  ∧ ∀ cached, emojiCache (fetchEmojis c now res).2 = Some cached →
      no_empty_glyph cached.
Proof.
  intros Hb Hc.
  assert (∀ entries, no_empty_glyph (build entries ∪ getBasicEmojiMap)) as Hm
    by (intros entries; by apply no_empty_glyph_union, Hb;
        apply no_empty_glyph_build).
  unfold Common.fetchSlackEmojis.
  destruct (emojiCache c) as [cached|] eqn:Ec.
  - destruct (_ <? _)%Z; [split; [by apply Hc|simpl; by rewrite Ec]|].
    destruct res as [[[] [entries|]]|e]; simpl;
      try (split; [done|by rewrite Ec]).
    split; [done|]. by intros ? [= <-].
  - destruct res as [[[] [entries|]]|e]; simpl;
      try (split; [done|by rewrite Ec]).
    split; [done|]. by intros ? [= <-].
Qed.

Lemma convert_listed c now res code s :
  no_empty_glyph (fetchEmojis c now res).1 →
  (fetchEmojis c now res).1 !! code = Some s →
  (convert c now res code).1 = Val s.
Proof.
  intros Hn Hl. unfold Common.convertSlackEmojiToUnicode.
  destruct (fetchEmojis c now res) as [emojiMap c']. simpl in *.
  unfold get. rewrite Hl. specialize (Hn code s Hl). by destruct s.
Qed.

End Built.

Lemma no_empty_glyph_decide m :
  bool_decide (map_Forall (λ _ s : jsstring, s ≠ []) m) = true →
  no_empty_glyph m.
Proof. intros H%bool_decide_eq_true_1 code s Hs. by apply (H code s). Qed.

Lemma Route_no_empty_glyph : no_empty_glyph Route.getBasicEmojiMap.
Proof. apply no_empty_glyph_decide. by vm_compute. Qed.

Lemma Route2_no_empty_glyph : no_empty_glyph Route2.getBasicEmojiMap.
Proof. apply no_empty_glyph_decide. by vm_compute. Qed.

(** ** The page *)

Lemma Qle_bool_false a b : Qle_bool a b = false ↔ (b < a)%Q.
Proof.
  rewrite <-not_true_iff_false, Qle_bool_iff.
  split; [apply Qnot_le_lt|apply Qlt_not_le].
Qed.

Lemma Qeq_bool_false a b : Qeq_bool a b = false ↔ ¬ (a == b)%Q.
Proof. by rewrite <-not_true_iff_false, Qeq_bool_iff. Qed.

Lemma high_not_low score :
  Qle_bool 80 score = true → Qle_bool score 30 = false.
Proof.
  intros H%Qle_bool_iff. apply Qle_bool_false.
  eapply Qlt_le_trans; [|exact H]. done.
Qed.

Lemma Qgt_bool_negb a b : Qgt_bool a b = negb (Qle_bool a b).
Proof. done. Qed.

Lemma slice_last_snoc {A} (l : list A) x :
  Page.slice_last 9 (l ++ [x]) = Page.slice_last 8 l ++ [x].
Proof.
  unfold Page.slice_last. rewrite length_app. simpl.
  replace (length l + 1 - 9) with (length l - 8) by lia.
  by rewrite drop_app_le by lia.
Qed.

Lemma slice_last_slice_last {A} (l : list A) :
  Page.slice_last 8 (Page.slice_last 9 l) = Page.slice_last 8 l.
Proof.
  unfold Page.slice_last. rewrite length_drop, drop_drop. f_equal. lia.
Qed.

Lemma trail_of_snoc events e :
  trail_of (events ++ [e])
  = trail_of events
    ++ [{| Page.x := e.1; Page.y := e.2;
           Page.id := Z.of_nat (length events) |}].
Proof.
  unfold trail_of. rewrite imap_app. simpl. by rewrite Nat.add_0_r.
Qed.

Lemma length_trail_of events : length (trail_of events) = length events.
Proof. unfold trail_of. by rewrite length_imap. Qed.

Lemma trail_of_lookup events i t :
  trail_of events !! i = Some t → Page.id t = Z.of_nat i.
Proof.
  unfold trail_of. rewrite list_lookup_imap.
  destruct (events !! i); [|done]. by intros [= <-].
Qed.

Lemma cursor_after events :
  (Z.of_nat (length events) ≤ 2 ^ 53)%Z →
  foldl Page.handleMouseMove Page.no_trail events
  = {| Page.cursorTrail := Page.slice_last 9 (trail_of events);
       Page.trailIdRef := Z.of_nat (length events) |}.
Proof.
  induction events as [|e events IH] using rev_ind; intros Hn; [done|].
  rewrite length_app in Hn |- *. simpl in Hn |- *.
  rewrite foldl_app. cbn [foldl]. rewrite IH by lia.
  unfold Page.handleMouseMove. cbn [Page.cursorTrail Page.trailIdRef].
  rewrite slice_last_slice_last, trail_of_snoc, slice_last_snoc. f_equal.
  unfold Page.increment.
  destruct (Z.ltb_spec (Z.of_nat (length events)) (2 ^ 53)); lia.
Qed.

Lemma Qgt_bool_mono t a b :
  (a <= b)%Q → Qgt_bool t b = true → Qgt_bool t a = true.
Proof.
  rewrite !Qgt_bool_iff. intros Hab Hb. by eapply Qle_lt_trans.
Qed.

(** * The claims *)

(** Membership and [NoDup] of given lists, by evaluation. *)
Ltac by_evaluation :=
  match goal with
  | |- ?P => refine (bool_decide_unpack P _); vm_compute; exact I
  end.

(** C1: the cleaned text keeps every emoji code [:name:] of the raw text.
    [cleanSlackText] of [route.ts] does not: its pattern
    [/:[a-z0-9_+-]+:/g] deletes the code [:fire:] of this message, which the
    [cleanSlackText] of the second route returns untouched. *)
Theorem Route_cleanSlackText_deletes_emoji_codes :
  Route.cleanSlackText (js "deploy done :fire: nice work")
  = js "deploy done nice work"
  ∧ includes (js ":fire:")
      (Route.cleanSlackText (js "deploy done :fire: nice work")) = false
  ∧ Route2.cleanSlackText (js "deploy done :fire: nice work")
    = js "deploy done :fire: nice work".
Proof. by vm_compute. Qed.

(** The second route on a message with a mention before the emoji code and
    a link behind it. *)
Lemma Route2_cleanSlackText_keeps_fire :
  substring (js ":fire:")
    (Route2.cleanSlackText (js "<@U123> thanks :fire: see <http://x.y|docs>")).
Proof.
  exact (Route2_cleanSlackText_keeps_emoji_codes
           (js "<@U123> thanks ") (js "fire") (js " see <http://x.y|docs>")
           eq_refl (or_introl eq_refl)).
Defined.

(** C2: the weighted sequence holds the text of each message, in order,
    exactly 3 times when its timestamp is above the recent threshold,
    2 times when it is strictly between the two thresholds, and once
    otherwise; a timestamp that equals a threshold counts for the tier
    below.  The thresholds are 24 hours and 7 days before [now] in
    [route.ts], one hour and six hours in the second route. *)
Theorem weightedMessages_tiers (now : Q) (msgs : list MessageWithTimestamp) :
  (let weight := recency_weight (24 * 60 * 60) (7 * 24 * 60 * 60) now in
   Route.weightedMessages now msgs
   = mjoin ((λ m, replicate (weight m) (text m)) <$> msgs)
   ∧ (∀ m, in_tier (now - 24 * 60 * 60) (now - 7 * 24 * 60 * 60)
             (timestamp m) (weight m))
   ∧ (NoDup (text <$> msgs) → ∀ m, m ∈ msgs →
        occurrences (text m) (Route.weightedMessages now msgs) = weight m))
  ∧
  (let weight := recency_weight (60 * 60) (6 * 60 * 60) now in
   Route2.weightedMessages now msgs
   = mjoin ((λ m, replicate (weight m) (text m)) <$> msgs)
   ∧ (∀ m, in_tier (now - 60 * 60) (now - 6 * 60 * 60)
             (timestamp m) (weight m))
   ∧ (NoDup (text <$> msgs) → ∀ m, m ∈ msgs →
        occurrences (text m) (Route2.weightedMessages now msgs) = weight m)).
Proof.
  split; cbv zeta; split_and!.
  - apply weightedMessages_expansion.
  - intros m. by apply recency_weight_tiers.
  - intros Hnd m Hm. by apply occurrences_weight.
  - apply weightedMessages_expansion.
  - intros m. by apply recency_weight_tiers.
  - intros Hnd m Hm. by apply occurrences_weight.
Qed.

(** Three messages of the second route, 10 minutes, 2 hours and exactly 6
    hours old: 3, 2 and 1 times. *)
Lemma weightedMessages_three_tiers :
  let fresh := {| text := js "a"; timestamp := 999400 |} in
  let recent := {| text := js "b"; timestamp := 992800 |} in
  let old := {| text := js "c"; timestamp := 978400 |} in
  Route2.weightedMessages 1000000 [fresh; recent; old]
  = [js "a"; js "a"; js "a"; js "b"; js "b"; js "c"]
  ∧ occurrences (js "c") (Route2.weightedMessages 1000000 [fresh; recent; old])
    = 1.
Proof.
  intros fresh recent old.
  destruct (weightedMessages_tiers 1000000 [fresh; recent; old])
    as [_ (Hexp & Htier & Hocc)].
  split; [by rewrite Hexp|].
  assert (old ∈ [fresh; recent; old]) as Hold by (do 2 right; left).
  etrans; [exact (Hocc ltac:(by_evaluation) old Hold)|].
  destruct (Htier old) as (_ & _ & _ & Hmiddle & _). apply Hmiddle.
  by vm_compute.
Defined.

(** C3: on every successful run, [sample_size] is the length of the
    weighted sequence that was handed to the classifier.  With [all] the
    messages that the channels have contributed, channel by channel, that
    sequence is made of the sorted messages of [all]; [sample_size] is the
    sum of their weights, between their number and three times their
    number, and it is their number only when every message is older than
    both thresholds. *)
Theorem sample_size_is_weighted_length (w : World) (data : MoodData) :
  (body (Route.GET w) = Payload data →
   ∃ all,
     channel_results Route.fetchSlackMessagesFromChannel w all
     ∧ Route.fetchSlackFromMultipleChannels w
       = Resolved (Route.weightedMessages (now w)
                     (sort_newest_first (concat all)))
     ∧ Route.analyzeWithOpenAI w
         (Route.weightedMessages (now w) (sort_newest_first (concat all)))
       = Resolved (mood data)
     ∧ sample_size data
       = length (Route.weightedMessages (now w)
                   (sort_newest_first (concat all)))
     ∧ sample_size data
       = sum_list (recency_weight (24 * 60 * 60) (7 * 24 * 60 * 60) (now w)
                     <$> concat all)
     ∧ length (concat all) ≤ sample_size data ≤ 3 * length (concat all)
     ∧ (sample_size data = length (concat all) ↔
        ∀ m, m ∈ concat all →
          recency_weight (24 * 60 * 60) (7 * 24 * 60 * 60) (now w) m = 1))
  ∧
  (body (Route2.GET w) = Payload data →
   ∃ all,
     channel_results Route2.fetchSlackMessagesFromChannel w all
     ∧ Route2.fetchSlackFromMultipleChannels w
       = Resolved (Route2.weightedMessages (now w)
                     (sort_newest_first (concat all)))
     ∧ Route2.analyzeWithAI w
         (Route2.weightedMessages (now w) (sort_newest_first (concat all)))
       = Resolved (mood data)
     ∧ sample_size data
       = length (Route2.weightedMessages (now w)
                   (sort_newest_first (concat all)))
     ∧ sample_size data
       = sum_list (recency_weight (60 * 60) (6 * 60 * 60) (now w)
                     <$> concat all)
     ∧ length (concat all) ≤ sample_size data ≤ 3 * length (concat all)
     ∧ (sample_size data = length (concat all) ↔
        ∀ m, m ∈ concat all →
          recency_weight (60 * 60) (6 * 60 * 60) (now w) m = 1)).
Proof. split; apply GET_sample_size. Qed.

(** Two cleaned messages, one of this second and one two hours old:
    [route.ts] reports a sample size of 6, the second route one of 5. *)
Lemma sample_size_quiet_day :
  ∃ data data2 all all2,
    body (Route.GET quiet_day) = Payload data
    ∧ body (Route2.GET quiet_day) = Payload data2
    ∧ channel_results Route.fetchSlackMessagesFromChannel quiet_day all
    ∧ channel_results Route2.fetchSlackMessagesFromChannel quiet_day all2
    ∧ length (concat all) ≤ sample_size data
    ∧ length (concat all2) ≤ sample_size data2
    ∧ sample_size data = 6
    ∧ sample_size data2 = 5.
Proof.
  assert (∃ data, body (Route.GET quiet_day) = Payload data
                  ∧ sample_size data = 6) as (data & Hd & Hn)
    by (eexists; split; vm_compute; reflexivity).
  assert (∃ data, body (Route2.GET quiet_day) = Payload data
                  ∧ sample_size data = 5) as (data2 & Hd2 & Hn2)
    by (eexists; split; vm_compute; reflexivity).
  destruct (sample_size_is_weighted_length quiet_day data) as [H _].
  destruct (sample_size_is_weighted_length quiet_day data2) as [_ H2].
  destruct (H Hd) as (all & Hall & _ & _ & _ & _ & [Hlen _] & _).
  destruct (H2 Hd2) as (all2 & Hall2 & _ & _ & _ & _ & [Hlen2 _] & _).
  exists data, data2, all, all2. by split_and!.
Defined.

(** C4, as it is stated, fails: normalizing the normalized text of
    [&lt;b&gt;] once more deletes it, in both routes. *)
Lemma cleanSlackText_twice_differs :
  Route.cleanSlackText (js "&lt;b&gt;") = js "<b>"
  ∧ Route.cleanSlackText (Route.cleanSlackText (js "&lt;b&gt;")) = js ""
  ∧ Route2.cleanSlackText (js "&lt;b&gt;") = js "<b>"
  ∧ Route2.cleanSlackText (Route2.cleanSlackText (js "&lt;b&gt;")) = js "".
Proof. by vm_compute. Qed.

(** C4, amended: on a text without [&] (no entity is decoded) the
    normalization of the second route is idempotent; that of [route.ts],
    which deletes emoji codes as well, is idempotent on a text that has no
    [:] either. *)
Theorem cleanSlackText_idempotent_without_entities (s : jsstring) :
  AMP ∉ s →
  Route2.cleanSlackText (Route2.cleanSlackText s) = Route2.cleanSlackText s
  ∧ (COLON ∉ s →
     Route.cleanSlackText (Route.cleanSlackText s) = Route.cleanSlackText s).
Proof.
  intros Ha. pose proof (normal_clean s Ha) as Hn.
  fold (strip_markup s) in Hn. split.
  - apply Route2_cleanSlackText_normal, Hn.
  - intros Hc.
    assert (Route.cleanSlackText s = trim (collapse_space (strip_markup s)))
      as ->.
    { unfold Route.cleanSlackText. fold (strip_markup s).
      rewrite strip_emoji_no_colon; [done|].
      rewrite strip_markup_no_amp by done.
      by intros ?%elem_of_strip%elem_of_strip%elem_of_strip. }
    apply Route_cleanSlackText_normal; [done|].
    intros [H|H]%elem_of_trim%elem_of_collapse_space; [|done].
    rewrite strip_markup_no_amp in H by done.
    by apply elem_of_strip, elem_of_strip, elem_of_strip in H.
Qed.

Lemma cleanSlackText_idempotent_on_a_mention :
  let s := js "  hi <@U1>   the build is   green <#C42|ops>  " in
  Route2.cleanSlackText (Route2.cleanSlackText s) = Route2.cleanSlackText s
  ∧ Route.cleanSlackText (Route.cleanSlackText s) = Route.cleanSlackText s.
Proof.
  intros s.
  destruct (cleanSlackText_idempotent_without_entities s ltac:(not_in))
    as [H2 H1].
  split; [exact H2|]. apply H1. not_in.
Defined.

(** C5: a completion that does not parse as JSON fails the run with a
    parse error that quotes a truncated excerpt of the content.  The second
    route does not: it has no handler around [JSON.parse], and on a text
    with unquoted keys the endpoint answers with the message of the
    exception, whatever the runtime has worded, and adds no excerpt of its
    own; [route.ts] answers with the first 100 code units and an
    ellipsis. *)
Theorem Route2_GET_parse_failure_unguarded (thrown : JsError) :
  Route2.GET (unparsed (js "{ mood_label: Vibes }") thrown)
  = {| status := 500; body := Failure (error_string thrown) |}
  ∧ Route.GET (unparsed (js "{ mood_label: Vibes }") thrown)
    = {| status := 500;
         body := Failure
           (js "Failed to parse OpenAI response as JSON: { mood_label: Vibes }...") |}.
Proof. by vm_compute. Qed.

(** In [route.ts] every completion that does not parse is reported by its
    first 100 code units. *)
Theorem Route_GET_parse_failure (w : World) (msgs : list jsstring)
    (data : OpenAI.Body) (content : jsstring) (e : JsError) :
  Route.fetchSlackFromMultipleChannels w = Resolved msgs →
  chat_completions w msgs = Resolved data →
  OpenAI.error data = None → OpenAI.content data = Some content →
  content ≠ [] → JSON_parse w content = Rejected e →
  Route.GET w
  = {| status := 500;
       body := Failure (js "Failed to parse OpenAI response as JSON: "
                          ++ take 100 content ++ js "...") |}
  ∧ take 100 content `prefix_of` content
  ∧ length (take 100 content) ≤ 100
  ∧ (100 < length content → take 100 content ≠ content).
Proof.
  intros Hf Hc He Hco Hne Hp. split_and!.
  - unfold Route.GET.
    rewrite (GET_analyze_rejected _ _ _ _ _ _ w msgs
               (Route.parse_failure content e) Hf); [done|].
    by apply (analyze_parse_failure _ _ w msgs data).
  - apply prefix_take.
  - rewrite length_take. lia.
  - intros Hlen E. apply (f_equal length) in E.
    rewrite length_take in E. lia.
Qed.

Lemma Route_GET_parse_failure_apology :
  Route.GET not_json
  = {| status := 500;
       body := Failure (js "Failed to parse OpenAI response as JSON: "
                          ++ take 100 apology ++ js "...") |}
  ∧ take 100 apology ≠ apology.
Proof.
  assert (∃ msgs, Route.fetchSlackFromMultipleChannels not_json = Resolved msgs)
    as [msgs Hf] by (eexists; vm_compute; reflexivity).
  destruct (Route_GET_parse_failure not_json msgs
              {| OpenAI.error := None; OpenAI.content := Some apology |}
              apology apology_error
              Hf eq_refl eq_refl eq_refl ltac:(done) eq_refl)
    as (Hg & _ & _ & Ht).
  split; [exact Hg|]. apply Ht. vm_compute. lia.
Defined.

(** C6, as it is stated, fails: [C1] answers [invalid_auth], but the call
    for [C2] has failed before, and the endpoint answers with that failure,
    which names neither the channel nor the reason. *)
Lemma GET_reports_the_first_failure :
  Route.fetchSlackMessagesFromChannel two_failures (js "C1")
    (conversations_history two_failures 0 (js "C1"))
  = Rejected (Error (js "Slack error for channel C1: invalid_auth"))
  ∧ Route.GET two_failures
    = {| status := 500; body := Failure (js "fetch failed") |}
  ∧ Route2.GET two_failures
    = {| status := 500; body := Failure (js "fetch failed") |}.
Proof. by vm_compute. Qed.

(** C6, amended: when the history of a channel is not [ok], the error
    thrown for the channel names the channel and the reason, the
    aggregation is rejected as a whole, and the endpoint answers 500 with
    an [{ error }] body: the message of the rejection that came first,
    hence the message of this channel when every other channel that fails
    settles later. *)
Theorem GET_channel_not_ok (w : World) (i : nat) (channelId : jsstring)
    (data : History.Body) :
  channelIds w !! i = Some channelId →
  conversations_history w i channelId = Resolved data →
  History.ok data = false →
  let thrown := js "Slack error for channel " ++ channelId ++ js ": "
                  ++ interpolate (History.error data) in
  (Route.fetchSlackMessagesFromChannel w channelId (Resolved data)
   = Rejected (Error thrown)
   ∧ (∃ e, Route.fetchSlackFromMultipleChannels w = Rejected e
           ∧ Route.GET w = {| status := 500; body := Failure (error_string e) |})
   ∧ ((∀ j id e', j ≠ i → channelIds w !! j = Some id →
         Route.fetchSlackMessagesFromChannel w id (conversations_history w j id)
         = Rejected e' →
         settles_at w i < settles_at w j) →
      Route.GET w = {| status := 500; body := Failure thrown |}))
  ∧
  (Route2.fetchSlackMessagesFromChannel w channelId (Resolved data)
   = Rejected (Error thrown)
   ∧ (∃ e, Route2.fetchSlackFromMultipleChannels w = Rejected e
           ∧ Route2.GET w = {| status := 500; body := Failure (error_string e) |})
   ∧ ((∀ j id e', j ≠ i → channelIds w !! j = Some id →
         Route2.fetchSlackMessagesFromChannel w id (conversations_history w j id)
         = Rejected e' →
         settles_at w i < settles_at w j) →
      Route2.GET w = {| status := 500; body := Failure thrown |})).
Proof.
  intros Hi Hh Hok thrown.
  assert (∀ toMessage,
            Common.fetchSlackMessagesFromChannel toMessage w channelId
              (conversations_history w i channelId)
            = Rejected (Error thrown)) as Hthrown.
  { intros toMessage. rewrite Hh. by apply fetchChannel_not_ok. }
  split; (split_and!;
    [ by apply fetchChannel_not_ok
    | edestruct GET_channel_rejected as (e & Hf & Hg & _);
        [exact Hi|apply Hthrown|]; exists e; split; [exact Hf|exact Hg]
    | intros Hfirst;
      edestruct GET_channel_rejected_first as [_ Hg];
        [exact Hi|apply Hthrown|exact Hfirst|exact Hg] ]).
Qed.

Lemma GET_invalid_auth :
  Route.GET invalid_auth
  = {| status := 500;
       body := Failure (js "Slack error for channel C1: invalid_auth") |}
  ∧ Route2.GET invalid_auth
    = {| status := 500;
         body := Failure (js "Slack error for channel C1: invalid_auth") |}.
Proof.
  destruct (GET_channel_not_ok invalid_auth 0 (js "C1")
              {| History.ok := false; History.error := Some (js "invalid_auth");
                 History.messages := None |}
              eq_refl eq_refl eq_refl) as [(_ & _ & H1) (_ & _ & H2)].
  split; [apply H1|apply H2]; intros [|[|j]] id e' Hj Hid; try done.
Defined.

(** C7: when the body of the completion carries an error object, the
    endpoint answers 500 with ["OpenAI API error: "] before the message of
    that object (before its JSON text when it has no message); the message
    [rate limited] gives [OpenAI API error: rate limited]. *)
Theorem GET_api_error (w : World) (msgs : list jsstring) (data : OpenAI.Body)
    (err : OpenAI.ApiError) :
  chat_completions w msgs = Resolved data →
  OpenAI.error data = Some err →
  let reason := if truthy (OpenAI.error_message err)
                then interpolate (OpenAI.error_message err)
                else OpenAI.stringified err in
  (Route.fetchSlackFromMultipleChannels w = Resolved msgs →
   Route.GET w
   = {| status := 500; body := Failure (js "OpenAI API error: " ++ reason) |})
  ∧ (Route2.fetchSlackFromMultipleChannels w = Resolved msgs →
     Route2.GET w
     = {| status := 500; body := Failure (js "OpenAI API error: " ++ reason) |})
  ∧ (∀ c message, OpenAI.error_message err = Some (c :: message) →
       reason = c :: message).
Proof.
  intros Hc He reason. split_and!.
  - intros Hf. unfold Route.GET.
    rewrite (GET_analyze_rejected _ _ _ _ _ _ w msgs
               (Error (js "OpenAI API error: " ++ reason)) Hf); [done|].
    by apply (analyze_api_error _ _ w msgs data).
  - intros Hf. unfold Route2.GET.
    rewrite (GET_analyze_rejected _ _ _ _ _ _ w msgs
               (Error (js "OpenAI API error: " ++ reason)) Hf); [done|].
    by apply (analyze_api_error _ _ w msgs data).
  - intros c m Hm. unfold reason. by rewrite Hm.
Qed.

Lemma GET_rate_limited :
  Route.GET rate_limited
  = {| status := 500; body := Failure (js "OpenAI API error: rate limited") |}
  ∧ Route2.GET rate_limited
    = {| status := 500; body := Failure (js "OpenAI API error: rate limited") |}.
Proof.
  assert (∃ msgs, Route.fetchSlackFromMultipleChannels rate_limited = Resolved msgs)
    as [msgs1 Hf1] by (eexists; vm_compute; reflexivity).
  assert (∃ msgs, Route2.fetchSlackFromMultipleChannels rate_limited = Resolved msgs)
    as [msgs2 Hf2] by (eexists; vm_compute; reflexivity).
  destruct (GET_api_error rate_limited msgs1 _ _ eq_refl eq_refl) as (H1 & _).
  destruct (GET_api_error rate_limited msgs2 _ _ eq_refl eq_refl) as (_ & H2 & _).
  split; [exact (H1 Hf1)|exact (H2 Hf2)].
Defined.

(** C8, as it is stated, fails: the empty code is translated to the empty
    string. *)
Lemma convertSlackEmojiToUnicode_empty_code :
  (Route.convertSlackEmojiToUnicode no_cache 0 (emoji_list quiet_day 0) (js "")).1
  = Val (js "")
  ∧ (Route2.convertSlackEmojiToUnicode no_cache 0 (emoji_list quiet_day 0)
       (js "")).1
    = Val (js "").
Proof. by vm_compute. Qed.

(** C8, amended: every code that is not empty (and is not the name of a
    member of [Object.prototype]) is translated to a string that is not
    empty: the entry of the directory in use (cached or fetched) or of the
    fallback table for the code, or else the code itself. *)
Theorem convertSlackEmojiToUnicode_total (c : EmojiCache) (now : Z)
    (res : Settled EmojiList.Body) (emojiCode : jsstring) :
  emojiCode ≠ [] → emojiCode ∉ Object_prototype →
  (∃ s, (Route.convertSlackEmojiToUnicode c now res emojiCode).1 = Val s
        ∧ s ≠ []
        ∧ (s = emojiCode
           ∨ directory_entry Route.getBasicEmojiMap c res emojiCode s))
  ∧ (∃ s, (Route2.convertSlackEmojiToUnicode c now res emojiCode).1 = Val s
          ∧ s ≠ []
          ∧ (s = emojiCode
             ∨ directory_entry Route2.getBasicEmojiMap c res emojiCode s)).
Proof.
  intros Hne Hp.
  assert (∀ basic,
    ∃ s, (Common.convertSlackEmojiToUnicode basic c now res emojiCode).1 = Val s
         ∧ s ≠ [] ∧ (s = emojiCode ∨ directory_entry basic c res emojiCode s))
    as H.
  { intros basic.
    destruct (convert_total basic c now res emojiCode Hne Hp)
      as (s & Hs & Hn & [Heq|Hl]); exists s; (split_and!; [done..|]);
      [by left|right].
    unfold directory_entry.
    destruct (fetchSlackEmojis_cases basic c now res)
      as [(cached & Hc & E)|[E|(entries & -> & E)]]; rewrite E in Hl.
    - left. by exists cached.
    - right; by left.
    - apply lookup_union_Some_raw in Hl as [Hl|[_ Hl]].
      + right; right. by exists entries.
      + right; by left. }
  split; apply H.
Qed.

Lemma convertSlackEmojiToUnicode_fire :
  (∃ s, (Route.convertSlackEmojiToUnicode no_cache 0 (emoji_list quiet_day 0)
           (js ":fire:")).1 = Val s ∧ s ≠ [])
  ∧ (Route.convertSlackEmojiToUnicode no_cache 0 (emoji_list quiet_day 0)
       (js ":fire:")).1 = Val [55357; 56613]%N.
Proof.
  destruct (convertSlackEmojiToUnicode_total no_cache 0 (emoji_list quiet_day 0)
              (js ":fire:") ltac:(done) ltac:(not_in))
    as [(s & Hs & Hn & _) _].
  split; [by exists s|by vm_compute].
Defined.

(** C9: the playlist lookup returns the Neutral entry for every string
    outside of the five labels.  It does not for the names of the members
    of [Object.prototype]: [map[moodLabel]] finds the inherited member,
    which is truthy, and the default is not taken.  A completion with the
    label [constructor] is answered with that member for a playlist. *)
Theorem playlistsForMood_inherited_key :
  Route.playlistsForMood (js "constructor") = ProtoMember (js "constructor")
  ∧ Route2.playlistsForMood (js "constructor") = ProtoMember (js "constructor")
  ∧ Route.playlistsForMood (js "toString") = ProtoMember (js "toString")
  ∧ Route.playlistsForMood (js "anything else") = Val Route.Neutral
  ∧ (∃ data, body (Route.GET odd_label) = Payload data
             ∧ playlist data = ProtoMember (js "constructor"))
  ∧ (∃ data, body (Route2.GET odd_label) = Payload data
             ∧ playlist data = ProtoMember (js "constructor")).
Proof.
  split_and!; try by vm_compute.
  - eexists. split; vm_compute; reflexivity.
  - eexists. split; vm_compute; reflexivity.
Qed.

(** On the five labels the lookup returns the entry of the label, with a
    name and a well-formed link; on every other string that does not name
    a member of [Object.prototype] it returns the Neutral entry. *)
Theorem playlistsForMood_labels (moodLabel : jsstring) :
  (moodLabel ∈ five_labels →
   (∃ p, Route.playlistsForMood moodLabel = Val p ∧ name p ≠ []
         ∧ well_formed_url (url p) = true)
   ∧ (∃ p, Route2.playlistsForMood moodLabel = Val p ∧ name p ≠ []
           ∧ well_formed_url (url p) = true))
  ∧ (moodLabel ∉ five_labels → moodLabel ∉ Object_prototype →
     Route.playlistsForMood moodLabel = Val Route.Neutral
     ∧ Route2.playlistsForMood moodLabel = Val Route2.Neutral)
  ∧ Route.playlistsForMood (js "Chaos") = Val Route.Chaos
  ∧ Route.playlistsForMood (js "Stressed") = Val Route.Stressed
  ∧ Route.playlistsForMood (js "Neutral") = Val Route.Neutral
  ∧ Route.playlistsForMood (js "Good") = Val Route.Good
  ∧ Route.playlistsForMood (js "Vibes") = Val Route.Vibes
  ∧ Route2.playlistsForMood (js "Chaos") = Val Route2.Chaos
  ∧ Route2.playlistsForMood (js "Stressed") = Val Route2.Stressed
  ∧ Route2.playlistsForMood (js "Neutral") = Val Route2.Neutral
  ∧ Route2.playlistsForMood (js "Good") = Val Route2.Good
  ∧ Route2.playlistsForMood (js "Vibes") = Val Route2.Vibes.
Proof.
  split_and!; try by vm_compute.
  - unfold five_labels. rewrite !elem_of_cons, elem_of_nil.
    intros [->|[->|[->|[->|[->|[]]]]]]; split; eexists;
      (split_and!; [by vm_compute|done|by vm_compute]).
  - intros H5 Hp. unfold Route.playlistsForMood, Route2.playlistsForMood, get.
    rewrite !object_lookup_other by done.
    by rewrite bool_decide_eq_false_2.
Qed.

Lemma playlistsForMood_Vibes_and_unknown :
  (∃ p, Route.playlistsForMood (js "Vibes") = Val p ∧ name p ≠ []
        ∧ well_formed_url (url p) = true)
  ∧ Route2.playlistsForMood (js "Meh") = Val Route2.Neutral.
Proof.
  destruct (playlistsForMood_labels (js "Vibes")) as [H _].
  destruct (playlistsForMood_labels (js "Meh")) as (_ & H' & _).
  split.
  - apply H. by_evaluation.
  - apply H'; not_in.
Defined.

(** C10: the directory resolves an alias in the order of the enumeration,
    against the entries made so far.  An alias whose target is not in the
    fallback table and has not been assigned earlier in the enumeration is
    mapped to the code [:target:] of its target, whatever the rest of the
    enumeration assigns to the target; an alias whose target has been
    assigned earlier is given the entry of its target. *)
Theorem fetchSlackEmojis_alias_order (c : EmojiCache) (now : Z)
    (entries : list (jsstring * EmojiList.Value)) (i : nat)
    (name target : jsstring) :
  cache_expired c now →
  NoDup entries.*1 →
  entries !! i = Some (name, EmojiList.Str (js "alias:" ++ target)) →
  let res := Resolved {| EmojiList.ok := true; EmojiList.emoji := Some entries |} in
  ((∀ j value, j < i → entries !! j ≠ Some (target, EmojiList.Str value)) →
   (Route.getBasicEmojiMap !! emoji_code target = None →
    (Route.fetchSlackEmojis c now res).1 !! emoji_code name
    = Some (emoji_code target))
   ∧ (Route2.getBasicEmojiMap !! emoji_code target = None →
      (Route2.fetchSlackEmojis c now res).1 !! emoji_code name
      = Some (emoji_code target)))
  ∧ (∀ j value, j < i → entries !! j = Some (target, EmojiList.Str value) →
     (Route.fetchSlackEmojis c now res).1 !! emoji_code name
     = (Route.fetchSlackEmojis c now res).1 !! emoji_code target
     ∧ (Route2.fetchSlackEmojis c now res).1 !! emoji_code name
       = (Route2.fetchSlackEmojis c now res).1 !! emoji_code target).
Proof.
  intros Hc Hnd Hi res. split.
  - intros Hbefore.
    assert (∀ basic, basic !! emoji_code target = None →
              (Common.fetchSlackEmojis basic c now res).1 !! emoji_code name
              = Some (emoji_code target)) as H.
    { intros basic Hb. unfold res. rewrite fetchSlackEmojis_fetched by done.
      apply lookup_union_Some_l.
      by apply (buildEmojiMap_alias_unknown basic entries i). }
    split; apply H.
  - intros j value Hji Hj.
    assert (∀ basic,
      (Common.fetchSlackEmojis basic c now res).1 !! emoji_code name
      = (Common.fetchSlackEmojis basic c now res).1 !! emoji_code target)
      as H; [|split; apply H].
    intros basic. unfold res. rewrite fetchSlackEmojis_fetched by done.
    pose proof (buildEmojiMap_alias_listed basic entries i j name target value
                  Hnd Hi Hj Hji) as E.
    destruct (buildEmojiMap_has basic entries target value) as [s Hs];
      [by eapply list_elem_of_lookup_2|].
    rewrite (lookup_union_Some_l _ _ _ s) by congruence.
    by rewrite (lookup_union_Some_l _ _ _ s).
Qed.

(** [shipit] is an alias of [squirrel], itself an alias of [tada].  Listed
    before [squirrel] it is mapped to [:squirrel:], although [squirrel] is
    mapped to the glyph of [tada]; listed after [squirrel] it is mapped to
    that glyph. *)
Lemma fetchSlackEmojis_shipit :
  let res :=
    Resolved {| EmojiList.ok := true; EmojiList.emoji := Some aliases |} in
  let res' :=
    Resolved {| EmojiList.ok := true;
                EmojiList.emoji := Some aliases_target_first |} in
  (Route.fetchSlackEmojis no_cache 0 res).1 !! js ":shipit:"
  = Some (js ":squirrel:")
  ∧ (Route.fetchSlackEmojis no_cache 0 res).1 !! js ":squirrel:"
    = Some [55356; 57226]%N
  ∧ (Route.fetchSlackEmojis no_cache 0 res').1 !! js ":shipit:"
    = Some [55356; 57226]%N.
Proof.
  intros res res'.
  destruct (fetchSlackEmojis_alias_order no_cache 0 aliases 0
              (js "shipit") (js "squirrel"))
    as [Hfirst _]; [by left|by_evaluation|reflexivity|].
  destruct (fetchSlackEmojis_alias_order no_cache 0 aliases_target_first 1
              (js "shipit") (js "squirrel"))
    as [_ Hlater]; [by left|by_evaluation|reflexivity|].
  destruct Hfirst as [H1 _]; [intros j value Hj; lia|].
  destruct (Hlater 0 (js "alias:tada") ltac:(lia) eq_refl) as [H2 _].
  split_and!.
  - apply H1. by vm_compute.
  - by vm_compute.
  - etrans; [exact H2|]. by vm_compute.
Defined.

(** * Further properties of the two routes and of the page *)

(** X4: cleaning only removes and decodes.  The cleaned text is never
    longer than the raw text, and each of its code units is one of the raw
    text, or a space, [&], [<] or [>]. *)
Theorem cleanSlackText_shrinks (s : jsstring) :
  (length (Route.cleanSlackText s) ≤ length s
   ∧ ∀ x, x ∈ Route.cleanSlackText s → x ∈ s ∨ x ∈ [AMP; LT; GT; SPACE])
  ∧ (length (Route2.cleanSlackText s) ≤ length s
     ∧ ∀ x, x ∈ Route2.cleanSlackText s → x ∈ s ∨ x ∈ [AMP; LT; GT; SPACE]).
Proof.
  unfold Route.cleanSlackText, Route2.cleanSlackText. fold (strip_markup s).
  pose proof (length_strip_markup s).
  pose proof (length_strip_emoji_codes (strip_markup s)).
  pose proof (length_collapse_space (strip_markup s)).
  pose proof (length_collapse_space (strip_emoji_codes (strip_markup s))).
  pose proof (length_trim (collapse_space (strip_markup s))).
  pose proof (length_trim
                (collapse_space (strip_emoji_codes (strip_markup s)))).
  assert (∀ x, x ∈ strip_markup s → x ∈ s ∨ x ∈ [AMP; LT; GT; SPACE]) as Hm.
  { intros x [Hx|Hx]%elem_of_strip_markup; [by left|right].
    revert Hx. rewrite !elem_of_cons, !elem_of_nil. tauto. }
  split_and!; try lia.
  - intros x [Hx|Hx]%elem_of_trim%elem_of_collapse_space.
    + by apply elem_of_strip, Hm in Hx.
    + right. subst x. do 3 right; by left.
  - intros x [Hx|Hx]%elem_of_trim%elem_of_collapse_space.
    + by apply Hm.
    + right. subst x. do 3 right; by left.
Qed.

(** X5: the cleaned text is normalized for white space in both routes.
    It neither starts nor ends with white space, every white space code
    unit in it is a plain space, and no white space follows a space. *)
Theorem cleanSlackText_white_space (s : jsstring) :
  (collapsed (Route.cleanSlackText s)
   ∧ (∀ c, head (Route.cleanSlackText s) = Some c → is_space c = false)
   ∧ (∀ c, last (Route.cleanSlackText s) = Some c → is_space c = false))
  ∧ (collapsed (Route2.cleanSlackText s)
     ∧ (∀ c, head (Route2.cleanSlackText s) = Some c → is_space c = false)
     ∧ (∀ c, last (Route2.cleanSlackText s) = Some c → is_space c = false)).
Proof.
  unfold Route.cleanSlackText, Route2.cleanSlackText.
  split; (split_and!;
    [ apply collapsed_trim, collapsed_collapse_space
    | intros c; apply run_0_head, run_trim
    | intros c; rewrite <-head_reverse; apply run_0_head, run_reverse_trim ]).
Qed.

(** X6: splitting the configured channel list loses nothing.  Joining
    the pieces with commas gives the configured string back; there is one
    channel id more than there are commas, so at least one; and each id is
    trimmed and holds no comma. *)
Theorem channelIds_of_configuration (w : World) (ids : jsstring) :
  SLACK_CHANNEL_IDS w = Some ids →
  join [COMMA] (split COMMA ids) = ids
  ∧ length (channelIds w) = S (count_of COMMA ids)
  ∧ ∀ channelId, channelId ∈ channelIds w →
      trim channelId = channelId ∧ COMMA ∉ channelId.
Proof.
  intros Hids. unfold channelIds. rewrite Hids. split_and!.
  - apply join_split.
  - by rewrite length_fmap, length_split.
  - intros id (piece & -> & Hp)%list_elem_of_fmap.
    split; [apply trim_trim|].
    intros Hc%elem_of_trim. by apply (split_pieces _ _ _ Hp).
Qed.

(** The two channel ids of the sample requests. *)
Lemma channelIds_of_the_quiet_day :
  join [COMMA] (split COMMA (js "C1, C2")) = js "C1, C2"
  ∧ channelIds quiet_day = [js "C1"; js "C2"]
  ∧ length (channelIds quiet_day) = 2.
Proof.
  destruct (channelIds_of_configuration quiet_day (js "C1, C2") eq_refl)
    as (H1 & H2 & _).
  split_and!; [exact H1|by vm_compute|exact H2].
Defined.

(** X7: the messages that a channel contributes.  When Slack answers [ok],
    the fetch succeeds, and what it returns are the cleaned forms, in the
    order of the answer, of exactly the raw messages that have the type
    [message], no subtype other than [thread_broadcast], no bot id, no
    files, a text, and a final text of more than three code units. *)
Theorem fetchSlackMessagesFromChannel_kept (w : World) (channelId : jsstring)
    (data : History.Body) :
  History.ok data = true →
  let raw := default [] (History.messages data) in
  (∃ kept,
     Route.fetchSlackMessagesFromChannel w channelId (Resolved data)
     = Resolved (Route.toMessage w <$> kept)
     ∧ kept = filter (λ m, substantive m
                           ∧ 3 < length (text (Route.toMessage w m))) raw
     ∧ kept `sublist_of` raw
     ∧ ∀ m, m ∈ kept ↔ m ∈ raw ∧ substantive m
                       ∧ 3 < length (text (Route.toMessage w m)))
  ∧ (∃ kept,
       Route2.fetchSlackMessagesFromChannel w channelId (Resolved data)
       = Resolved (Route2.toMessage w <$> kept)
       ∧ kept = filter (λ m, substantive m
                             ∧ 3 < length (text (Route2.toMessage w m))) raw
       ∧ kept `sublist_of` raw
       ∧ ∀ m, m ∈ kept ↔ m ∈ raw ∧ substantive m
                         ∧ 3 < length (text (Route2.toMessage w m))).
Proof.
  intros Hok raw.
  assert (∀ toMessage,
    ∃ kept,
      Common.fetchSlackMessagesFromChannel toMessage w channelId (Resolved data)
      = Resolved (toMessage w <$> kept)
      ∧ kept = filter (λ m, substantive m
                            ∧ 3 < length (text (toMessage w m))) raw
      ∧ kept `sublist_of` raw
      ∧ ∀ m, m ∈ kept ↔ m ∈ raw ∧ substantive m
                        ∧ 3 < length (text (toMessage w m))) as H.
  { intros toMessage. eexists. split_and!; [|done|..].
    - rewrite (fetchChannel_ok toMessage w channelId data Hok).
      do 2 f_equal. rewrite list_filter_filter. apply list_filter_iff.
      intros m. tauto.
    - apply sublist_filter.
    - intros m. rewrite list_elem_of_filter. tauto. }
  split; apply H.
Qed.

(** Of the seven messages of the mixed history, the second route keeps the
    two ordinary ones. *)
Lemma fetchSlackMessagesFromChannel_mixed :
  ∃ kept,
    Route2.fetchSlackMessagesFromChannel quiet_day (js "C1")
      (Resolved mixed_history)
    = Resolved (Route2.toMessage quiet_day <$> kept)
    ∧ Slack.text <$> kept
      = [Some (js "we shipped the release");
         Some (js "also posted to the channel")].
Proof.
  destruct (fetchSlackMessagesFromChannel_kept quiet_day (js "C1") mixed_history
              eq_refl) as [_ (kept & Hk & Hkept & _ & _)].
  exists kept. split; [done|]. rewrite Hkept. by vm_compute.
Defined.

(** X8: in [route.ts] a user message with a reaction is never dropped for
    being short.  Its final text starts with its cleaned text and holds
    the code of each of its reactions, which the cleaning of the text
    would have deleted. *)
Theorem Route_reactions_are_kept (w : World) (channelId : jsstring)
    (data : History.Body) (m : Slack.Message) (r : Slack.Reaction)
    (rs : list Slack.Reaction) :
  History.ok data = true →
  m ∈ default [] (History.messages data) →
  substantive m →
  Slack.reactions m = Some (r :: rs) →
  ∃ ms,
    Route.fetchSlackMessagesFromChannel w channelId (Resolved data) = Resolved ms
    ∧ Route.toMessage w m ∈ ms
    ∧ Route.cleanSlackText (default [] (Slack.text m))
        `prefix_of` text (Route.toMessage w m)
    ∧ ∀ r', r' ∈ r :: rs →
        substring (emoji_code (Slack.name r')) (text (Route.toMessage w m)).
Proof.
  intros Hok Hm Hs Hr.
  destruct (fetchChannel_kept Route.toMessage w channelId data Hok)
    as (kept & Hk & _ & Hin).
  assert (text (Route.toMessage w m)
          = Route.cleanSlackText (default [] (Slack.text m))
            ++ js " [Reactions: "
            ++ join (js " ") ((λ r, emoji_code (Slack.name r)) <$> (r :: rs))
            ++ js "]") as Ht.
  { unfold Route.toMessage. by rewrite Hr. }
  eexists. split; [exact Hk|]. split_and!.
  - apply list_elem_of_fmap_2, Hin. split_and!; [done..|].
    rewrite Ht, !length_app. simpl. lia.
  - rewrite Ht. by eexists.
  - intros r' Hr'. rewrite Ht.
    destruct (substring_join (js " ") (emoji_code (Slack.name r'))
                ((λ r, emoji_code (Slack.name r)) <$> (r :: rs)))
      as (pre & post & E).
    { by apply (list_elem_of_fmap_2 (λ r, emoji_code (Slack.name r))). }
    rewrite E.
    exists (Route.cleanSlackText (default [] (Slack.text m))
              ++ js " [Reactions: " ++ pre), (post ++ js "]").
    by rewrite <-!(assoc_L (++)).
Qed.

(** A mention with a [tada] reaction reaches the classifier as the
    reaction alone. *)
Lemma Route_reaction_on_a_mention :
  ∃ ms,
    Route.fetchSlackMessagesFromChannel quiet_day (js "C1")
      (Resolved mixed_history) = Resolved ms
    ∧ Route.toMessage quiet_day reacted ∈ ms
    ∧ text (Route.toMessage quiet_day reacted) = js " [Reactions: :tada:]".
Proof.
  destruct (Route_reactions_are_kept quiet_day (js "C1") mixed_history reacted
              {| Slack.name := js "tada" |} [])
    as (ms & Hms & Hin & _ & _).
  - reflexivity.
  - simpl. do 4 right. left.
  - unfold substantive. by vm_compute; auto.
  - reflexivity.
  - exists ms. by split_and!.
Defined.

(** X9: the sort of the flattened messages.  The sorted list is a
    rearrangement of the messages, each message is at least as recent as
    every message behind it, and messages of the same timestamp stay in
    the order in which the channels gave them. *)
Theorem sort_newest_first_sorts (l : list MessageWithTimestamp) :
  sort_newest_first l ≡ₚ l
  ∧ newest_first (sort_newest_first l)
  ∧ ∀ t, filter (λ m, Qeq_bool (timestamp m) t = true) (sort_newest_first l)
       = filter (λ m, Qeq_bool (timestamp m) t = true) l.
Proof.
  split_and!.
  - apply sort_newest_first_perm.
  - apply sort_newest_first_sorted.
  - intros t. apply sort_newest_first_stable.
Qed.

(** X10: what the classifier is given.  When the fetch of all channels
    succeeds, with [all] the messages that the channels have contributed,
    channel by channel, the weighted sequence is made of the sorted list
    of the messages of [all]: a rearrangement of these messages, newest
    first.  It has at least as many entries as there are messages and at most
    three times as many, and its entries are exactly the texts of these
    messages. *)
Theorem fetchSlackFromMultipleChannels_content (w : World) (msgs : list jsstring) :
  (Route.fetchSlackFromMultipleChannels w = Resolved msgs →
   ∃ all,
     channel_results Route.fetchSlackMessagesFromChannel w all
     ∧ msgs = Route.weightedMessages (now w) (sort_newest_first (concat all))
     ∧ sort_newest_first (concat all) ≡ₚ concat all
     ∧ newest_first (sort_newest_first (concat all))
     ∧ length (concat all) ≤ length msgs ≤ 3 * length (concat all)
     ∧ ∀ t, t ∈ msgs ↔ ∃ m, m ∈ concat all ∧ text m = t)
  ∧ (Route2.fetchSlackFromMultipleChannels w = Resolved msgs →
     ∃ all,
       channel_results Route2.fetchSlackMessagesFromChannel w all
       ∧ msgs = Route2.weightedMessages (now w) (sort_newest_first (concat all))
       ∧ sort_newest_first (concat all) ≡ₚ concat all
       ∧ newest_first (sort_newest_first (concat all))
       ∧ length (concat all) ≤ length msgs ≤ 3 * length (concat all)
       ∧ ∀ t, t ∈ msgs ↔ ∃ m, m ∈ concat all ∧ text m = t).
Proof. split; apply fetchAll_described. Qed.

(** On the quiet day the two channels contribute one message each, and
    five entries are made of them. *)
Lemma fetchSlackFromMultipleChannels_quiet_day :
  ∃ msgs all,
    Route2.fetchSlackFromMultipleChannels quiet_day = Resolved msgs
    ∧ channel_results Route2.fetchSlackMessagesFromChannel quiet_day all
    ∧ length (concat all) ≤ length msgs ≤ 3 * length (concat all)
    ∧ length msgs = 5.
Proof.
  assert (∃ msgs, Route2.fetchSlackFromMultipleChannels quiet_day = Resolved msgs
                  ∧ length msgs = 5)
    as (msgs & Hf & Hn) by (eexists; split; vm_compute; reflexivity).
  destruct (fetchSlackFromMultipleChannels_content quiet_day msgs) as [_ H].
  destruct (H Hf) as (all & Hall & _ & _ & _ & [Hl1 Hl2] & _).
  exists msgs, all. by split_and!.
Defined.

(** X11: the fetch of all channels succeeds exactly when the variable
    [SLACK_CHANNEL_IDS] is set and the history call of every configured
    channel is answered with [ok].  When the variable is not set, the fetch
    fails with the [TypeError] of [split], and the endpoint answers 500
    with its message. *)
Theorem fetchSlackFromMultipleChannels_resolves (w : World) :
  (((∃ msgs, Route.fetchSlackFromMultipleChannels w = Resolved msgs) ↔
    (∃ ids, SLACK_CHANNEL_IDS w = Some ids)
    ∧ ∀ i channelId, channelIds w !! i = Some channelId →
        ∃ data, conversations_history w i channelId = Resolved data
                ∧ History.ok data = true)
   ∧ (SLACK_CHANNEL_IDS w = None →
      Route.fetchSlackFromMultipleChannels w = Rejected (split_of_undefined w)
      ∧ Route.GET w
        = {| status := 500;
             body := Failure (error_string (split_of_undefined w)) |}))
  ∧ (((∃ msgs, Route2.fetchSlackFromMultipleChannels w = Resolved msgs) ↔
      (∃ ids, SLACK_CHANNEL_IDS w = Some ids)
      ∧ ∀ i channelId, channelIds w !! i = Some channelId →
          ∃ data, conversations_history w i channelId = Resolved data
                  ∧ History.ok data = true)
     ∧ (SLACK_CHANNEL_IDS w = None →
        Route2.fetchSlackFromMultipleChannels w = Rejected (split_of_undefined w)
        ∧ Route2.GET w
          = {| status := 500;
               body := Failure (error_string (split_of_undefined w)) |})).
Proof.
  split; (split; [apply fetchAll_resolves_iff|]); intros Hn.
  - pose proof (fetchAll_unset Route.toMessage (24 * 60 * 60)
                  (7 * 24 * 60 * 60) w Hn) as Hf.
    split; [exact Hf|]. unfold Route.GET.
    by apply GET_fetch_rejected.
  - pose proof (fetchAll_unset Route2.toMessage (60 * 60) (6 * 60 * 60) w Hn)
      as Hf.
    split; [exact Hf|]. unfold Route2.GET.
    by apply GET_fetch_rejected.
Qed.

(** Without the variable the endpoint answers with the words of V8 for
    [undefined.split]; with it, the fetch of the quiet day resolves. *)
Lemma fetchSlackFromMultipleChannels_unconfigured :
  Route.GET unconfigured
  = {| status := 500;
       body := Failure
         (js "Cannot read properties of undefined (reading 'split')") |}
  ∧ ∃ msgs, Route.fetchSlackFromMultipleChannels quiet_day = Resolved msgs.
Proof.
  destruct (fetchSlackFromMultipleChannels_resolves unconfigured)
    as [[_ H] _].
  destruct (fetchSlackFromMultipleChannels_resolves quiet_day)
    as [[H' _] _].
  split; [by destruct (H eq_refl) as [_ ->]|].
  apply H'. split; [by eexists|].
  intros [|[|i]] channelId Hi; try done; eexists; by split.
Defined.

(** X12: the order in which the history calls settle decides which failure
    is reported and nothing else.  The status of the answer does not depend
    on it, and a successful answer is the same for every order. *)
Theorem GET_does_not_depend_on_timing (w : World) (settles : nat → nat) :
  (status (Route.GET (reschedule w settles)) = status (Route.GET w)
   ∧ (status (Route.GET w) = 200%N →
      Route.GET (reschedule w settles) = Route.GET w))
  ∧ (status (Route2.GET (reschedule w settles)) = status (Route2.GET w)
     ∧ (status (Route2.GET w) = 200%N →
        Route2.GET (reschedule w settles) = Route2.GET w)).
Proof. split; by apply GET_reschedule. Qed.

(** X13: the endpoint answers with status 200 and a payload, or with
    status 500 and an error string.  It answers 200 exactly when the fetch
    of all channels resolves and the completion for its messages has no
    error object, has a content that is not empty, and parses to a value
    with an array of emojis.  A content that parses to a value without
    that array fails the run like a content that does not parse: with the
    excerpt in [route.ts], with the message of the [TypeError] in the
    second route. *)
Theorem GET_succeeds_exactly_when (w : World) :
  (((∃ data, Route.GET w = {| status := 200; body := Payload data |})
    ∨ (∃ reason, Route.GET w = {| status := 500; body := Failure reason |}))
   ∧ (status (Route.GET w) = 200%N ↔
      ∃ msgs data content parsed,
        Route.fetchSlackFromMultipleChannels w = Resolved msgs
        ∧ chat_completions w msgs = Resolved data ∧ OpenAI.error data = None
        ∧ OpenAI.content data = Some content ∧ content ≠ []
        ∧ JSON_parse w content = Resolved (Analysis parsed))
   ∧ (∀ msgs data content thrown,
        Route.fetchSlackFromMultipleChannels w = Resolved msgs →
        chat_completions w msgs = Resolved data → OpenAI.error data = None →
        OpenAI.content data = Some content → content ≠ [] →
        JSON_parse w content = Resolved (NoEmojis thrown) →
        Route.GET w
        = {| status := 500;
             body := Failure (js "Failed to parse OpenAI response as JSON: "
                                ++ take 100 content ++ js "...") |}))
  ∧ (((∃ data, Route2.GET w = {| status := 200; body := Payload data |})
      ∨ (∃ reason, Route2.GET w = {| status := 500; body := Failure reason |}))
     ∧ (status (Route2.GET w) = 200%N ↔
        ∃ msgs data content parsed,
          Route2.fetchSlackFromMultipleChannels w = Resolved msgs
          ∧ chat_completions w msgs = Resolved data ∧ OpenAI.error data = None
          ∧ OpenAI.content data = Some content ∧ content ≠ []
          ∧ JSON_parse w content = Resolved (Analysis parsed))
     ∧ (∀ msgs data content thrown,
          Route2.fetchSlackFromMultipleChannels w = Resolved msgs →
          chat_completions w msgs = Resolved data → OpenAI.error data = None →
          OpenAI.content data = Some content → content ≠ [] →
          JSON_parse w content = Resolved (NoEmojis thrown) →
          Route2.GET w
          = {| status := 500; body := Failure (error_string thrown) |})).
Proof.
  split; (split_and!; [apply GET_cases|apply GET_200_iff|]);
    intros msgs data content thrown Hf Hc He Hco Hne Hp.
  - unfold Route.GET.
    rewrite (GET_analyze_rejected _ _ _ _ _ _ w msgs
               (Route.parse_failure content thrown) Hf); [done|].
    by apply (analyze_no_emojis _ _ w msgs data).
  - unfold Route2.GET.
    rewrite (GET_analyze_rejected _ _ _ _ _ _ w msgs
               (Route2.parse_failure content thrown) Hf); [done|].
    by apply (analyze_no_emojis _ _ w msgs data).
Qed.

(** A JSON text without [top_emojis] is answered with 500 by both routes,
    and the JSON text of the quiet day with 200. *)
Lemma GET_without_top_emojis :
  Route.GET no_emojis
  = {| status := 500;
       body := Failure
         (js "Failed to parse OpenAI response as JSON: "
            ++ json "{'mood_score':82}" ++ js "...") |}
  ∧ Route2.GET no_emojis
    = {| status := 500;
         body := Failure
           (js "Cannot read properties of undefined (reading 'map')") |}
  ∧ status (Route.GET quiet_day) = 200%N.
Proof.
  assert (∃ msgs, Route.fetchSlackFromMultipleChannels no_emojis = Resolved msgs)
    as [msgs1 Hf1] by (eexists; vm_compute; reflexivity).
  assert (∃ msgs, Route2.fetchSlackFromMultipleChannels no_emojis = Resolved msgs)
    as [msgs2 Hf2] by (eexists; vm_compute; reflexivity).
  assert (∃ msgs, Route.fetchSlackFromMultipleChannels quiet_day = Resolved msgs)
    as [msgs3 Hf3] by (eexists; vm_compute; reflexivity).
  destruct (GET_succeeds_exactly_when no_emojis) as [(_ & _ & H1) (_ & _ & H2)].
  destruct (GET_succeeds_exactly_when quiet_day) as [(_ & H3 & _) _].
  split_and!.
  - etrans;
      [eapply (H1 msgs1);
         [exact Hf1|reflexivity|reflexivity|reflexivity|done|reflexivity]
      |by vm_compute].
  - etrans;
      [eapply (H2 msgs2);
         [exact Hf2|reflexivity|reflexivity|reflexivity|done|reflexivity]
      |by vm_compute].
  - apply H3. exists msgs3. do 3 eexists.
    split_and!; [exact Hf3|reflexivity|reflexivity|reflexivity|done|reflexivity].
Defined.

(** X14: a completion without an error object and without content, or
    with an empty content, fails the run with [OpenAI returned no content]
    in both routes. *)
Theorem GET_no_content (w : World) (msgs : list jsstring) (data : OpenAI.Body) :
  chat_completions w msgs = Resolved data →
  OpenAI.error data = None →
  OpenAI.content data = None ∨ OpenAI.content data = Some [] →
  (Route.fetchSlackFromMultipleChannels w = Resolved msgs →
   Route.GET w
   = {| status := 500; body := Failure (js "OpenAI returned no content") |})
  ∧ (Route2.fetchSlackFromMultipleChannels w = Resolved msgs →
     Route2.GET w
     = {| status := 500; body := Failure (js "OpenAI returned no content") |}).
Proof.
  intros Hc He Hn.
  assert (truthy (OpenAI.content data) = false) as Ht
    by (by destruct Hn as [->| ->]).
  split; intros Hf.
  - unfold Route.GET.
    rewrite (GET_analyze_rejected _ _ _ _ _ _ w msgs
               (Error (js "OpenAI returned no content")) Hf); [done|].
    by apply (analyze_no_content _ _ w msgs data).
  - unfold Route2.GET.
    rewrite (GET_analyze_rejected _ _ _ _ _ _ w msgs
               (Error (js "OpenAI returned no content")) Hf); [done|].
    by apply (analyze_no_content _ _ w msgs data).
Qed.

Lemma GET_no_content_at_all :
  Route.GET no_content
  = {| status := 500; body := Failure (js "OpenAI returned no content") |}
  ∧ Route2.GET no_content
    = {| status := 500; body := Failure (js "OpenAI returned no content") |}.
Proof.
  assert (∃ msgs, Route.fetchSlackFromMultipleChannels no_content = Resolved msgs)
    as [msgs1 Hf1] by (eexists; vm_compute; reflexivity).
  assert (∃ msgs, Route2.fetchSlackFromMultipleChannels no_content = Resolved msgs)
    as [msgs2 Hf2] by (eexists; vm_compute; reflexivity).
  destruct (GET_no_content no_content msgs1
              {| OpenAI.error := None; OpenAI.content := None |}
              eq_refl eq_refl (or_introl eq_refl)) as [H1 _].
  destruct (GET_no_content no_content msgs2
              {| OpenAI.error := None; OpenAI.content := None |}
              eq_refl eq_refl (or_introl eq_refl)) as [_ H2].
  split; [by apply H1|by apply H2].
Defined.

(** X15: a completion that parses to a value with an array of emojis is
    passed on as it is.  The answer has status 200; the score, the label,
    the summary and the signals are those of the completion, whatever they
    are; [top_emojis] holds the conversion of each emoji of the completion,
    at its place; the playlist is the one of the label, [sample_size] is
    the length of the weighted sequence, and the time is the time of the
    answer. *)
Theorem GET_passes_the_completion_on (w : World) (msgs : list jsstring)
    (data : OpenAI.Body) (content : jsstring) (parsed : MoodAnalysis jsstring) :
  chat_completions w msgs = Resolved data →
  OpenAI.error data = None →
  OpenAI.content data = Some content → content ≠ [] →
  JSON_parse w content = Resolved (Analysis parsed) →
  (Route.fetchSlackFromMultipleChannels w = Resolved msgs →
   ∃ d,
     Route.GET w = {| status := 200; body := Payload d |}
     ∧ mood_score (mood d) = mood_score parsed
     ∧ mood_label (mood d) = mood_label parsed
     ∧ summary (mood d) = summary parsed
     ∧ positive_signals (mood d) = positive_signals parsed
     ∧ negative_signals (mood d) = negative_signals parsed
     ∧ length (top_emojis (mood d)) = length (top_emojis parsed)
     ∧ (∀ i emoji, top_emojis parsed !! i = Some emoji →
          top_emojis (mood d) !! i
          = Some (Route.convertSlackEmojiToUnicode (cache w) (now_ms w)
                    (emoji_list w i) emoji).1)
     ∧ playlist d = Route.playlistsForMood (mood_label parsed)
     ∧ sample_size d = length msgs
     ∧ generated_at d = toISOString w)
  ∧ (Route2.fetchSlackFromMultipleChannels w = Resolved msgs →
     ∃ d,
       Route2.GET w = {| status := 200; body := Payload d |}
       ∧ mood_score (mood d) = mood_score parsed
       ∧ mood_label (mood d) = mood_label parsed
       ∧ summary (mood d) = summary parsed
       ∧ positive_signals (mood d) = positive_signals parsed
       ∧ negative_signals (mood d) = negative_signals parsed
       ∧ length (top_emojis (mood d)) = length (top_emojis parsed)
       ∧ (∀ i emoji, top_emojis parsed !! i = Some emoji →
            top_emojis (mood d) !! i
            = Some (Route2.convertSlackEmojiToUnicode (cache w) (now_ms w)
                      (emoji_list w i) emoji).1)
       ∧ playlist d = Route2.playlistsForMood (mood_label parsed)
       ∧ sample_size d = length msgs
       ∧ generated_at d = toISOString w).
Proof.
  intros Hc He Hco Hne Hp. split; intros Hf.
  - destruct (analyze_parsed Route.getBasicEmojiMap Route.parse_failure
                w msgs data content parsed Hc He Hco Hne Hp)
      as (m & Ha & H1 & H2 & H3 & H4 & H5 & H6 & H7).
    eexists. split.
    { unfold Route.GET, Common.GET.
      unfold Route.fetchSlackFromMultipleChannels in Hf. rewrite Hf.
      by rewrite Ha. }
    cbn [mood playlist sample_size generated_at]. rewrite H2.
    by split_and!.
  - destruct (analyze_parsed Route2.getBasicEmojiMap Route2.parse_failure
                w msgs data content parsed Hc He Hco Hne Hp)
      as (m & Ha & H1 & H2 & H3 & H4 & H5 & H6 & H7).
    eexists. split.
    { unfold Route2.GET, Common.GET.
      unfold Route2.fetchSlackFromMultipleChannels in Hf. rewrite Hf.
      by rewrite Ha. }
    cbn [mood playlist sample_size generated_at]. rewrite H2.
    by split_and!.
Qed.

(** The completion of the quiet day is the JSON text of an analysis with
    the score 82 and two emojis. *)
Lemma GET_quiet_day :
  ∃ d,
    Route2.GET quiet_day = {| status := 200; body := Payload d |}
    ∧ mood_score (mood d) = mood_score good_day
    ∧ length (top_emojis (mood d)) = 2
    ∧ sample_size d = 5.
Proof.
  assert (∃ msgs, Route2.fetchSlackFromMultipleChannels quiet_day = Resolved msgs
                  ∧ length msgs = 5)
    as (msgs & Hf & Hlen) by (eexists; split; vm_compute; reflexivity).
  destruct (GET_passes_the_completion_on quiet_day msgs
              {| OpenAI.error := None;
                 OpenAI.content := Some (labelled_json (js "Vibes")) |}
              (labelled_json (js "Vibes")) good_day
              eq_refl eq_refl eq_refl ltac:(done) eq_refl) as [_ H].
  destruct (H Hf) as (d & Hd & Hs & _ & _ & _ & _ & Hn & _ & _ & Hsz & _).
  exists d. split_and!; try done. by rewrite Hsz.
Defined.

(** X16: the emoji cache.  A directory that has been fetched is kept with
    the time of the fetch, and every call that comes less than an hour
    after that time is answered from the cache, with the same directory
    and without a change of the cache, however the [emoji.list] call of
    that request would have ended. *)
Theorem fetchSlackEmojis_cached (c : EmojiCache) (now later : Z)
    (entries : list (jsstring * EmojiList.Value)) (res' : Settled EmojiList.Body) :
  cache_expired c now →
  (later - now < CACHE_DURATION)%Z →
  let res :=
    Resolved {| EmojiList.ok := true; EmojiList.emoji := Some entries |} in
  (emojiCache (Route.fetchSlackEmojis c now res).2
   = Some (Route.fetchSlackEmojis c now res).1
   ∧ emojiCacheTime (Route.fetchSlackEmojis c now res).2 = now
   ∧ Route.fetchSlackEmojis (Route.fetchSlackEmojis c now res).2 later res'
     = Route.fetchSlackEmojis c now res)
  ∧ (emojiCache (Route2.fetchSlackEmojis c now res).2
     = Some (Route2.fetchSlackEmojis c now res).1
     ∧ emojiCacheTime (Route2.fetchSlackEmojis c now res).2 = now
     ∧ Route2.fetchSlackEmojis (Route2.fetchSlackEmojis c now res).2 later res'
       = Route2.fetchSlackEmojis c now res).
Proof.
  intros Hc Hl res.
  unfold Route.fetchSlackEmojis, Route2.fetchSlackEmojis, res.
  rewrite !fetchSlackEmojis_pair by done. cbn [fst snd].
  split; (split_and!; [done..|]); by apply fetchSlackEmojis_fresh.
Qed.

(** A directory fetched at millisecond 1000 is served half an hour later,
    although the directory cannot be fetched then. *)
Lemma fetchSlackEmojis_half_an_hour_later :
  let res :=
    Resolved {| EmojiList.ok := true; EmojiList.emoji := Some aliases |} in
  Route.fetchSlackEmojis (Route.fetchSlackEmojis no_cache 1000 res).2 1801000
    (emoji_list quiet_day 0)
  = Route.fetchSlackEmojis no_cache 1000 res.
Proof.
  intros res.
  destruct (fetchSlackEmojis_cached no_cache 1000 1801000 aliases
              (emoji_list quiet_day 0)) as [(_ & _ & H) _].
  - by left.
  - by vm_compute.
  - exact H.
Defined.

(** X17: when the cache is of no use and the directory cannot be fetched
    (the call fails, Slack refuses, or the answer has no directory), the
    fallback table is returned and the cache is left as it was: a
    directory that has expired is not served, and the next call tries
    again. *)
Theorem fetchSlackEmojis_falls_back (c : EmojiCache) (now : Z)
    (res : Settled EmojiList.Body) :
  cache_expired c now →
  (∀ entries,
     res ≠ Resolved {| EmojiList.ok := true; EmojiList.emoji := Some entries |}) →
  Route.fetchSlackEmojis c now res = (Route.getBasicEmojiMap, c)
  ∧ Route2.fetchSlackEmojis c now res = (Route2.getBasicEmojiMap, c).
Proof. intros Hc Hres. split; by apply fetchSlackEmojis_failed. Qed.

(** The directory of the old cache is not served after two hours. *)
Lemma fetchSlackEmojis_expired_and_unreachable :
  (Route.fetchSlackEmojis old_cache 7200005 (emoji_list quiet_day 0)).1
    !! js ":old:" = None
  ∧ (Route.fetchSlackEmojis old_cache 7200005 (emoji_list quiet_day 0)).2
    = old_cache.
Proof.
  destruct (fetchSlackEmojis_falls_back old_cache 7200005
              (emoji_list quiet_day 0)) as [H _].
  - right. by vm_compute.
  - done.
  - rewrite H. split; [by vm_compute|done].
Defined.

(** X18: no entry of the directory in use is the empty string, as long as
    the cache holds none; the cache that a call leaves holds none either.
    So every code that the directory lists is converted to its entry: the
    conversion falls back on the code itself for unlisted codes only. *)
Theorem fetchSlackEmojis_no_empty_glyph (c : EmojiCache) (now : Z)
    (res : Settled EmojiList.Body) :
  (∀ cached, emojiCache c = Some cached → no_empty_glyph cached) →
  (no_empty_glyph (Route.fetchSlackEmojis c now res).1
   ∧ (∀ cached, emojiCache (Route.fetchSlackEmojis c now res).2 = Some cached →
        no_empty_glyph cached)
   ∧ ∀ code s, (Route.fetchSlackEmojis c now res).1 !! code = Some s →
       (Route.convertSlackEmojiToUnicode c now res code).1 = Val s)
  ∧ (no_empty_glyph (Route2.fetchSlackEmojis c now res).1
     ∧ (∀ cached, emojiCache (Route2.fetchSlackEmojis c now res).2 = Some cached →
          no_empty_glyph cached)
     ∧ ∀ code s, (Route2.fetchSlackEmojis c now res).1 !! code = Some s →
         (Route2.convertSlackEmojiToUnicode c now res code).1 = Val s).
Proof.
  intros Hc.
  destruct (fetchSlackEmojis_no_empty Route.getBasicEmojiMap c now res
              Route_no_empty_glyph Hc) as [H1 H1'].
  destruct (fetchSlackEmojis_no_empty Route2.getBasicEmojiMap c now res
              Route2_no_empty_glyph Hc) as [H2 H2'].
  split; (split_and!; [done..|]); intros code s Hs;
    by apply convert_listed.
Qed.

(** With the directory of the aliases, [:parrot:] is converted to its
    entry, the code itself. *)
Lemma fetchSlackEmojis_parrot :
  let res :=
    Resolved {| EmojiList.ok := true; EmojiList.emoji := Some aliases |} in
  (Route.convertSlackEmojiToUnicode no_cache 0 res (js ":parrot:")).1
  = Val (js ":parrot:").
Proof.
  intros res.
  destruct (fetchSlackEmojis_no_empty_glyph no_cache 0 res) as [(_ & _ & H) _].
  - by intros cached.
  - apply H. by vm_compute.
Defined.

(** X19: the keys of a fetched directory are the keys of the fallback
    table and the codes [:name:] of the entries of the answer whose value is
    a string; entries with other values are skipped. *)
Theorem fetchSlackEmojis_keys (c : EmojiCache) (now : Z)
    (entries : list (jsstring * EmojiList.Value)) (code : jsstring) :
  cache_expired c now →
  let res :=
    Resolved {| EmojiList.ok := true; EmojiList.emoji := Some entries |} in
  (is_Some ((Route.fetchSlackEmojis c now res).1 !! code) ↔
   is_Some (Route.getBasicEmojiMap !! code)
   ∨ ∃ name value, (name, EmojiList.Str value) ∈ entries
                   ∧ code = emoji_code name)
  ∧ (is_Some ((Route2.fetchSlackEmojis c now res).1 !! code) ↔
     is_Some (Route2.getBasicEmojiMap !! code)
     ∨ ∃ name value, (name, EmojiList.Str value) ∈ entries
                     ∧ code = emoji_code name).
Proof.
  intros Hc res.
  assert (∀ basic,
    is_Some ((Common.fetchSlackEmojis basic c now res).1 !! code) ↔
    is_Some (basic !! code)
    ∨ ∃ name value, (name, EmojiList.Str value) ∈ entries
                    ∧ code = emoji_code name) as H.
  { intros basic. unfold res. rewrite fetchSlackEmojis_fetched by done.
    rewrite lookup_union_is_Some. split.
    - intros [[s Hs]|Hb]; [right|by left].
      apply buildEmojiMap_lookup in Hs as (name & v & Hin & -> & _).
      by exists name, v.
    - intros [Hb|(name & v & Hin & ->)]; [by right|left].
      by apply (buildEmojiMap_has basic entries name v). }
  split; apply H.
Qed.

(** In the sample workspace [:lit:] is a key, and [:broken:], whose
    value is no string, is none. *)
Lemma fetchSlackEmojis_keys_of_the_workspace :
  let res :=
    Resolved {| EmojiList.ok := true; EmojiList.emoji := Some workspace_emoji |} in
  is_Some ((Route.fetchSlackEmojis no_cache 0 res).1 !! js ":lit:")
  ∧ (Route.fetchSlackEmojis no_cache 0 res).1 !! js ":broken:" = None.
Proof.
  intros res.
  destruct (fetchSlackEmojis_keys no_cache 0 workspace_emoji (js ":lit:"))
    as [H _]; [by left|].
  split; [|by vm_compute]. apply H. right.
  exists (js "lit"), (js "alias:fire"). split; [|done]. do 3 right. left.
Defined.

(** X20: an entry of the answer that is no alias.  When the names of the
    answer are distinct, a custom emoji (its value starts with [http]) is
    mapped to its own code, also when the fallback table has a glyph for
    that code, and every other entry is mapped to the glyph that the
    fallback table has for its name, or to its own code when it has none. *)
Theorem fetchSlackEmojis_custom_and_standard (c : EmojiCache) (now : Z)
    (entries : list (jsstring * EmojiList.Value)) (name value : jsstring) :
  cache_expired c now →
  NoDup entries.*1 →
  (name, EmojiList.Str value) ∈ entries →
  starts_with (js "alias:") value = false →
  let res :=
    Resolved {| EmojiList.ok := true; EmojiList.emoji := Some entries |} in
  (Route.fetchSlackEmojis c now res).1 !! emoji_code name
  = Some (if starts_with (js "http") value then emoji_code name
          else Route.getUnicodeForEmojiName name)
  ∧ (Route2.fetchSlackEmojis c now res).1 !! emoji_code name
    = Some (if starts_with (js "http") value then emoji_code name
            else Route2.getUnicodeForEmojiName name).
Proof.
  intros Hc Hnd Hin Ha res.
  unfold Route.fetchSlackEmojis, Route2.fetchSlackEmojis, res.
  rewrite !fetchSlackEmojis_fetched by done.
  split; apply lookup_union_Some_l; by apply buildEmojiMap_plain.
Qed.

(** A custom emoji with the name [fire] hides the glyph of the fallback
    table, and is converted to its code. *)
Lemma fetchSlackEmojis_custom_fire :
  let res :=
    Resolved {| EmojiList.ok := true; EmojiList.emoji := Some workspace_emoji |} in
  (Route.fetchSlackEmojis no_cache 0 res).1 !! js ":fire:" = Some (js ":fire:")
  ∧ Route.getBasicEmojiMap !! js ":fire:" = Some [55357; 56613]%N.
Proof.
  intros res.
  destruct (fetchSlackEmojis_custom_and_standard no_cache 0 workspace_emoji
              (js "fire") (js "https://emoji.slack-edge.com/fire.png"))
    as [H _].
  - by left.
  - by_evaluation.
  - right. left.
  - reflexivity.
  - split; [exact H|by vm_compute].
Defined.

(** X21: an alias that does not come before its target.  When the names
    of the answer are distinct, an alias that is listed after its target has
    the entry of the target, and an alias of a name that the answer does
    not list has the glyph that the fallback table has for that name, or
    the code of that name when it has none. *)
Theorem fetchSlackEmojis_alias (c : EmojiCache) (now : Z)
    (entries : list (jsstring * EmojiList.Value)) (i : nat)
    (name target : jsstring) :
  cache_expired c now →
  NoDup entries.*1 →
  entries !! i = Some (name, EmojiList.Str (js "alias:" ++ target)) →
  let res :=
    Resolved {| EmojiList.ok := true; EmojiList.emoji := Some entries |} in
  (∀ j value, entries !! j = Some (target, EmojiList.Str value) → j < i →
     (Route.fetchSlackEmojis c now res).1 !! emoji_code name
     = (Route.fetchSlackEmojis c now res).1 !! emoji_code target
     ∧ (Route2.fetchSlackEmojis c now res).1 !! emoji_code name
       = (Route2.fetchSlackEmojis c now res).1 !! emoji_code target)
  ∧ ((∀ value, (target, EmojiList.Str value) ∉ entries) →
     (Route.fetchSlackEmojis c now res).1 !! emoji_code name
     = Some (Route.getUnicodeForEmojiName target)
     ∧ (Route2.fetchSlackEmojis c now res).1 !! emoji_code name
       = Some (Route2.getUnicodeForEmojiName target)).
Proof.
  intros Hc Hnd Hi res.
  unfold Route.fetchSlackEmojis, Route2.fetchSlackEmojis, res.
  rewrite !fetchSlackEmojis_fetched by done. split.
  - intros j value Hj Hji.
    assert (∀ basic,
      (Common.buildEmojiMap basic entries ∪ basic) !! emoji_code name
      = (Common.buildEmojiMap basic entries ∪ basic) !! emoji_code target)
      as H; [|by split].
    intros basic.
    pose proof (buildEmojiMap_alias_listed basic entries i j name target value
                  Hnd Hi Hj Hji) as E.
    destruct (buildEmojiMap_has basic entries target value) as [s Hs];
      [by eapply list_elem_of_lookup_2|].
    rewrite (lookup_union_Some_l _ _ _ s) by congruence.
    by rewrite (lookup_union_Some_l _ _ _ s).
  - intros Hun.
    split; apply lookup_union_Some_l;
      by apply (buildEmojiMap_alias_unlisted _ entries i).
Qed.

(** In the sample workspace [lit] has the entry of the custom [fire], and
    [bravo] the glyph of [clap]. *)
Lemma fetchSlackEmojis_aliases_of_the_workspace :
  let res :=
    Resolved {| EmojiList.ok := true; EmojiList.emoji := Some workspace_emoji |} in
  (Route.fetchSlackEmojis no_cache 0 res).1 !! js ":lit:" = Some (js ":fire:")
  ∧ (Route.fetchSlackEmojis no_cache 0 res).1 !! js ":bravo:"
    = Some [55357; 56399]%N.
Proof.
  intros res.
  destruct (fetchSlackEmojis_alias no_cache 0 workspace_emoji 3
              (js "lit") (js "fire")) as [Hlit _];
    [by left|by_evaluation|reflexivity|].
  destruct (fetchSlackEmojis_alias no_cache 0 workspace_emoji 4
              (js "bravo") (js "clap")) as [_ Hbravo];
    [by left|by_evaluation|reflexivity|].
  destruct (Hlit 1 (js "https://emoji.slack-edge.com/fire.png") eq_refl
              ltac:(lia)) as [H1 _].
  destruct Hbravo as [H2 _].
  { intros value Hin. revert Hin. unfold workspace_emoji.
    rewrite !elem_of_cons, elem_of_nil.
    by intros [[= ?]|[[= ?]|[[= ?]|[[= ?]|[[= ?]|[]]]]]]. }
  split.
  - etrans; [exact H1|]. by vm_compute.
  - etrans; [exact H2|]. by vm_compute.
Defined.

(** X22: the effects of a run of [fetchMood].  A run starts at most one
    effect: confetti exactly when the answer carries a score of 80 or
    more, the emoji rain only for a score below 80 and with the emojis of
    the answer.  After the run the page is neither loading nor refreshing;
    a failure leaves the data of the page as they were, and an answer with
    data leaves the error as it was. *)
Theorem Page_fetchMood_effects (s : Page.State) (reply : Settled Page.Json) :
  let s' := (Page.fetchMood s reply).1 in
  let effects := (Page.fetchMood s reply).2 in
  length effects ≤ 1
  ∧ (Page.Confetti ∈ effects ↔
     ∃ d, reply = Resolved (Page.MoodBody d) ∧ (80 <= Page.mood_score d)%Q)
  ∧ (∀ emojis, Page.EmojiRain emojis ∈ effects →
       ∃ d, reply = Resolved (Page.MoodBody d) ∧ emojis = Page.top_emojis d
            ∧ (Page.mood_score d < 80)%Q)
  ∧ Page.loading s' = false
  ∧ Page.isRefreshing s' = false
  ∧ (∀ e, reply = Rejected e → Page.data s' = Page.data s)
  ∧ (∀ d, reply = Resolved (Page.MoodBody d) →
       Page.data s' = Some (Page.MoodBody d) ∧ Page.error s' = Page.error s).
Proof.
  intros s' effects. unfold s', effects, Page.fetchMood.
  destruct reply as [[[|c reason]|d]|e]; cbn [fst snd];
    try (split_and!; try done; simpl;
         [lia
         |split; [by intros ?%elem_of_nil|by intros (? & ? & _)]
         |by intros ? ?%elem_of_nil]).
  rewrite !Qgt_bool_negb.
  destruct (Qle_bool 80 (Page.mood_score d)) eqn:E80.
  - rewrite (high_not_low _ E80). cbn [andb negb]. rewrite !andb_false_r.
    apply Qle_bool_iff in E80.
    split_and!; try done.
    + split; [intros _; by exists d|intros _; by left].
    + intros emojis [[=]|[]%elem_of_nil]%elem_of_cons.
    + by intros d' [= <-].
  - apply Qle_bool_false in E80. cbn [negb]. rewrite !andb_true_r.
    assert (∀ b1 b2 : bool,
      length ((if b1 then [Page.EmojiRain (Page.top_emojis d)] else [])
              ++ (if b2 then [Page.EmojiRain (Page.top_emojis d)] else []))
      ≤ 1 ∨ (b1 = true ∧ b2 = true)) as Hlen
      by (intros [] []; simpl; auto).
    split_and!; try done.
    + destruct (Qle_bool (Page.mood_score d) 30); cbn [andb negb app];
        [|destruct (_ && _); simpl; lia].
      rewrite andb_false_r. destruct (_ || _); simpl; lia.
    + split.
      * intros Hin. exfalso. cbn [app] in Hin.
        apply elem_of_app in Hin as [Hin|Hin];
          [destruct (_ && _)|destruct (_ && _)];
          try (by apply elem_of_nil in Hin);
          by apply elem_of_cons in Hin as [[=]|?%elem_of_nil].
      * intros (d' & [= <-] & Hd). exfalso. by apply (Qlt_not_le _ _ E80).
    + intros emojis Hin. exists d. split; [done|]. split; [|done].
      cbn [app] in Hin.
      apply elem_of_app in Hin as [Hin|Hin];
        [destruct (_ && _)|destruct (_ && _)];
        try (by apply elem_of_nil in Hin);
        by apply elem_of_cons in Hin as [[= ->]|?%elem_of_nil].
    + by intros d' [= <-].
Qed.

(** X23: the first load.  An answer with data is shown on the dashboard,
    with confetti for a score of 80 or more and the emoji rain for a score
    of 30 or less; an error of the endpoint or of the request is shown on
    the error panel.  A failure of the request whose message is empty
    leaves a blank page, and an answer whose error is the empty string is
    taken for data, which the dashboard cannot render. *)
Theorem Page_first_load (reply : Settled Page.Json) :
  let s' := (Page.fetchMood Page.initial reply).1 in
  let effects := (Page.fetchMood Page.initial reply).2 in
  Page.view Page.initial = Page.Spinner
  ∧ (∀ d, reply = Resolved (Page.MoodBody d) →
       Page.view s' = Page.Dashboard d
       ∧ effects
         = if Qle_bool 80 (Page.mood_score d) then [Page.Confetti]
           else if Qle_bool (Page.mood_score d) 30
                then [Page.EmojiRain (Page.top_emojis d)]
                else [])
  ∧ (∀ c reason, reply = Resolved (Page.ErrorBody (c :: reason)) →
       Page.view s' = Page.ErrorPanel (c :: reason) ∧ effects = [])
  ∧ (∀ e c reason, reply = Rejected e → message e = c :: reason →
       Page.view s' = Page.ErrorPanel (c :: reason) ∧ effects = [])
  ∧ (∀ e, reply = Rejected e → message e = [] → Page.view s' = Page.Blank)
  ∧ (reply = Resolved (Page.ErrorBody []) → Page.view s' = Page.RenderThrows).
Proof.
  intros s' effects. unfold s', effects. split_and!.
  - done.
  - intros d ->. split; [done|]. unfold Page.fetchMood. cbn [fst snd].
    cbn [Page.initial Page.data mbind option_bind Page.number_truthy
         Page.differs negb orb andb].
    rewrite andb_true_r, app_nil_r.
    destruct (Qle_bool 80 (Page.mood_score d)) eqn:E80.
    + by rewrite (high_not_low _ E80).
    + by destruct (Qle_bool (Page.mood_score d) 30).
  - by intros c reason ->.
  - intros e c reason -> Hm. unfold Page.fetchMood, Page.view. simpl.
    by rewrite Hm.
  - intros e -> Hm. unfold Page.fetchMood, Page.view. simpl. by rewrite Hm.
  - by intros ->.
Qed.

(** X24: a refresh of the dashboard.  A score of 80 or more starts
    confetti on every refresh.  Below 80, when the score shown before is
    not zero, the emoji rain falls exactly when the score has changed.
    When the score shown before is zero, the rain falls for every score of
    30 or less, changed or not, and does not fall for a score between 30
    and 80. *)
Theorem Page_refresh (s : Page.State) (prev d : Page.MoodData) :
  Page.data s = Some (Page.MoodBody prev) →
  let p := Page.mood_score prev in
  let score := Page.mood_score d in
  let effects := (Page.fetchMood s (Resolved (Page.MoodBody d))).2 in
  let rain := [Page.EmojiRain (Page.top_emojis d)] in
  ((80 <= score)%Q → effects = [Page.Confetti])
  ∧ ((score < 80)%Q → ¬ (p == 0)%Q → ¬ (p == score)%Q → effects = rain)
  ∧ ((score < 80)%Q → ¬ (p == 0)%Q → (p == score)%Q → effects = [])
  ∧ ((p == 0)%Q → (score <= 30)%Q → effects = rain)
  ∧ ((p == 0)%Q → (30 < score)%Q → (score < 80)%Q → effects = []).
Proof.
  intros Hs p score effects rain.
  unfold effects, rain, Page.fetchMood. cbn [fst snd]. rewrite Hs.
  cbn [mbind option_bind Page.score_of Page.number_truthy Page.differs].
  fold p score. rewrite !Qgt_bool_negb. split_and!.
  - intros H%Qle_bool_iff. rewrite H, (high_not_low _ H). cbn [andb negb].
    by rewrite !andb_false_r.
  - intros H80%Qle_bool_false H0%Qeq_bool_false Hp%Qeq_bool_false.
    rewrite H80, H0, Hp. cbn [negb andb orb].
    by destruct (Qle_bool score 30).
  - intros H80%Qle_bool_false H0%Qeq_bool_false Hp%Qeq_bool_iff.
    rewrite H80, H0, Hp. cbn [negb andb orb]. by rewrite !andb_false_r.
  - intros H0%Qeq_bool_iff H30%Qle_bool_iff.
    rewrite H0, H30. cbn [negb andb orb].
    destruct (Qle_bool 80 score) eqn:E80; [|done].
    apply high_not_low in E80. congruence.
  - intros H0%Qeq_bool_iff H30%Qle_bool_false H80%Qle_bool_false.
    by rewrite H0, H30, H80.
Qed.

(** After a score of zero, an unchanged score of zero makes it rain
    again. *)
Lemma Page_refresh_at_zero :
  (Page.fetchMood (showing 0) (Resolved (Page.MoodBody (scored 0)))).2
  = [Page.EmojiRain [js ":sob:"; js ":fire:"]]
  ∧ (Page.fetchMood (showing 0) (Resolved (Page.MoodBody (scored 50)))).2 = [].
Proof.
  destruct (Page_refresh (showing 0) (scored 0) (scored 0) eq_refl)
    as (_ & _ & _ & H1 & _).
  destruct (Page_refresh (showing 0) (scored 0) (scored 50) eq_refl)
    as (_ & _ & _ & _ & H2).
  split; [by apply H1|by apply H2].
Defined.

(** X25: the cursor trail.  After any sequence of mouse events (of at most
    [2^53]), the trail holds the points of the last nine events, in their
    order, each with the number of its event for an id: it never has more
    than nine points, and no two of them have the same id. *)
Theorem Page_cursor_trail (events : list (Q * Q)) :
  (Z.of_nat (length events) ≤ 2 ^ 53)%Z →
  let s := foldl Page.handleMouseMove Page.no_trail events in
  Page.cursorTrail s = Page.slice_last 9 (trail_of events)
  ∧ length (Page.cursorTrail s) = length events `min` 9
  ∧ Page.trailIdRef s = Z.of_nat (length events)
  ∧ NoDup (Page.id <$> Page.cursorTrail s).
Proof.
  intros Hn s. unfold s. rewrite cursor_after by done.
  cbn [Page.cursorTrail Page.trailIdRef]. split_and!; try done.
  - unfold Page.slice_last. rewrite length_drop, length_trail_of. lia.
  - apply NoDup_alt. intros i j n. rewrite !list_lookup_fmap.
    unfold Page.slice_last. rewrite !lookup_drop.
    destruct (trail_of events !! _) as [t|] eqn:Et; [|done].
    intros [= <-].
    destruct (trail_of events !! (_ + j)) as [t'|] eqn:Et'; [|done].
    intros [= E]. apply trail_of_lookup in Et, Et'. lia.
Qed.

(** Ten events leave the points of the last nine, with the ids 1 to 9. *)
Lemma Page_cursor_trail_of_ten_events :
  let events := (λ n : nat, (inject_Z (Z.of_nat n), 0%Q)) <$> seq 0 10 in
  Page.id <$> Page.cursorTrail (foldl Page.handleMouseMove Page.no_trail events)
  = [1; 2; 3; 4; 5; 6; 7; 8; 9]%Z.
Proof.
  intros events.
  destruct (Page_cursor_trail events) as (H & _ & _ & _); [by vm_compute|].
  rewrite H. by vm_compute.
Defined.

(** X26: the colours of a mood.  For every label that does not name a
    member of [Object.prototype], the text colour, the background and the
    stroke of the gauge are of one hue; the hue is gray for every label
    outside of the five labels. *)
Theorem Page_mood_colors (label : jsstring) :
  label ∉ Object_prototype →
  ∃ hue,
    Page.getMoodColor label = Val (js "text-" ++ hue ++ js "-500")
    ∧ Page.getMoodBgColor label = Val (js "bg-" ++ hue ++ js "-100")
    ∧ replace_first (js "text-") (js "stroke-") (js "text-" ++ hue ++ js "-500")
      = js "stroke-" ++ hue ++ js "-500"
    ∧ (label ∉ five_labels → hue = js "gray").
Proof.
  intros Hp. destruct (decide (label ∈ five_labels)) as [Hl|Hl].
  - unfold five_labels in Hl. rewrite !elem_of_cons, elem_of_nil in Hl.
    destruct Hl as [->|[->|[->|[->|[->|[]]]]]].
    + exists (js "red"). split_and!; try by vm_compute.
      intros H. destruct H. by_evaluation.
    + exists (js "orange"). split_and!; try by vm_compute.
      intros H. destruct H. by_evaluation.
    + exists (js "yellow"). split_and!; try by vm_compute.
      intros H. destruct H. by_evaluation.
    + exists (js "green"). split_and!; try by vm_compute.
      intros H. destruct H. by_evaluation.
    + exists (js "blue"). split_and!; try by vm_compute.
      intros H. destruct H. by_evaluation.
  - exists (js "gray").
    assert (bool_decide (label ∈ Object_prototype) = false) as Hb
      by (by apply bool_decide_eq_false_2).
    unfold Page.getMoodColor, Page.getMoodBgColor, get.
    rewrite !object_lookup_other by done. rewrite Hb. by split_and!.
Qed.

Lemma Page_mood_colors_of_Good :
  ∃ hue,
    Page.getMoodColor (js "Good") = Val (js "text-" ++ hue ++ js "-500")
    ∧ Page.getMoodBgColor (js "Good") = Val (js "bg-" ++ hue ++ js "-100")
    ∧ Page.getMoodColor (js "Good") = Val (js "text-green-500").
Proof.
  destruct (Page_mood_colors (js "Good")) as (hue & H1 & H2 & _ & _);
    [not_in|].
  exists hue. split_and!; [done|done|by vm_compute].
Defined.

(** X27: the heartbeat.  The speed of the heartbeat does not fall when the
    score rises, and lies between 0.5 and 1.5, so that the duration of a
    beat, 2 divided by the speed, is defined. *)
Theorem Page_getHeartbeatSpeed_monotone (a b : Q) :
  (a <= b)%Q →
  (Page.getHeartbeatSpeed a <= Page.getHeartbeatSpeed b)%Q
  ∧ (5 # 10 <= Page.getHeartbeatSpeed a)%Q
  ∧ (Page.getHeartbeatSpeed b <= 15 # 10)%Q.
Proof.
  intros Hab. unfold Page.getHeartbeatSpeed.
  pose proof (Qgt_bool_mono 20 a b Hab) as H20.
  pose proof (Qgt_bool_mono 40 a b Hab) as H40.
  pose proof (Qgt_bool_mono 60 a b Hab) as H60.
  pose proof (Qgt_bool_mono 80 a b Hab) as H80.
  destruct (Qgt_bool 20 b); [rewrite H20 by done; by split_and!|].
  destruct (Qgt_bool 40 b);
    [rewrite H40 by done; destruct (Qgt_bool 20 a); by split_and!|].
  destruct (Qgt_bool 60 b);
    [rewrite H60 by done; destruct (Qgt_bool 20 a), (Qgt_bool 40 a);
     by split_and!|].
  destruct (Qgt_bool 80 b);
    [rewrite H80 by done;
     destruct (Qgt_bool 20 a), (Qgt_bool 40 a), (Qgt_bool 60 a);
     by split_and!|].
  destruct (Qgt_bool 20 a), (Qgt_bool 40 a), (Qgt_bool 60 a),
    (Qgt_bool 80 a); by split_and!.
Qed.

Lemma Page_getHeartbeatSpeed_of_35_and_82 :
  (Page.getHeartbeatSpeed 35 <= Page.getHeartbeatSpeed 82)%Q
  ∧ Page.getHeartbeatSpeed 35 = 7 # 10
  ∧ Page.getHeartbeatSpeed 82 = 15 # 10.
Proof.
  destruct (Page_getHeartbeatSpeed_monotone 35 82) as (H & _ & _);
    [by vm_compute|].
  by split_and!.
Defined.
